(** * The pulsing heart: point-field generator and playback loop of [src/App.tsx]

    A shallow embedding of the component's logic.

    Numbers.  A JavaScript number is an IEEE-754 double.
    - The generator calls [Math.sin], [Math.cos], [Math.pow] and [Math.log],
      which ECMAScript leaves implementation-approximated, so its numbers are
      real numbers ([R]) and these functions are the real ones.
    - The playback loop and the floating texts only use [+ - * / %],
      [Math.floor] and comparisons.  They are modelled twice.  With exact
      rationals ([Q]), every definition evaluates and the arithmetic has its
      unrounded meaning; rounding, infinities and NaN are outside this
      model.  With doubles ([Binary64], on the primitive floats), every
      operation rounds as the code's does.  The two differ within a
      rounding error of a threshold: in which of two neighbouring frames is
      drawn at the instant the index changes, and in whether the trigger
      fires on a tick within an ulp of one beat after the last.  What is stated
      about the frame index as a formula of the timestamp, and about the
      distance between two firings of the trigger, is stated on the doubles;
      the tick at which a floating text's opacity reaches 0, which sits on
      a rounding boundary, is computed in both.

    Effects.  [Math.random] is an oracle read through a draw counter;
    canvas, audio and scheduler calls are logged as a list of [Effect]s;
    React refs and state are fields of an explicit [State]. *)

From Stdlib Require Import String ZArith QArith Qround Qabs Qpower Reals Lqa Lra Lia List Bool.
From Stdlib Require Import Zfloor.
From Stdlib Require PrimFloat SpecFloat FloatOps FloatAxioms.
From Stdlib Require Import Sorted.
Import ListNotations.

(** ** Constants *)

Definition HEART_COLOR : string := "#EEAEEE".
Definition BACKGROUND_COLOR : string := "#000000".
Definition IMAGE_ENLARGE : Z := 11.
Definition GENERATE_FRAMES : Z := 20.
Definition BPM : Z := 70.
(** seconds per beat *)
Definition BEAT_INTERVAL : Q := 60 / inject_Z BPM.

(** ** JavaScript operators on exact rationals *)

Module JS.

(** Rounding toward zero, the quotient used by [%]. *)
Definition truncate (q : Q) : Z :=
  if Qle_bool 0 q then Qfloor q else Qceiling q.

(** [n % d]: the remainder has the sign of the dividend.  ([d = 0] gives NaN
    in JavaScript; the program only divides by non-zero constants.) *)
Definition rem (n d : Q) : Q := n - d * inject_Z (truncate (n / d)).

Definition Math_floor (q : Q) : Q := inject_Z (Qfloor q).

(** [x > y] *)
Definition gt (x y : Q) : bool := negb (Qle_bool x y).

(** [x >= y] *)
Definition ge (x y : Q) : bool := Qle_bool y x.

(** [arr[i]] for a number [i]: an element when [i] is a non-negative integer
    below the length, [undefined] ([None]) otherwise. *)
Definition array_get {A : Type} (arr : list A) (i : Q) : option A :=
  let r := Qred i in
  if (Qden r =? 1)%positive && (0 <=? Qnum r)%Z
  then nth_error arr (Z.to_nat (Qnum r))
  else None.

End JS.

(** ** Data *)

Module Point.
Record t : Type := mk { x : R; y : R; size : R }.
End Point.

Module FloatingText.
Record t : Type := mk { id : Z; x : Q; y : Q; opacity : Q; scale : Q }.
End FloatingText.

Definition Frame : Type := list Point.t.

(** ** Audio *)

Inductive AudioContextState : Type := suspended | running | closed.

Record AudioContext : Type := mkAudioContext {
  state : AudioContextState;
  currentTime : Q
}.

Inductive AudioNode : Type := osc1 | gain1 | osc2 | gain2 | destination.

(** The Web Audio calls of [playHeartbeatSound], one constructor per call. *)
Inductive AudioCall : Type :=
| createOscillator (n : AudioNode)
| createGain (n : AudioNode)
| set_type (n : AudioNode) (waveform : string)
| frequency_setValueAtTime (n : AudioNode) (value time : Q)
| frequency_exponentialRampToValueAtTime (n : AudioNode) (value time : Q)
| gain_setValueAtTime (n : AudioNode) (value time : Q)
| gain_linearRampToValueAtTime (n : AudioNode) (value time : Q)
| gain_exponentialRampToValueAtTime (n : AudioNode) (value time : Q)
| connect (from to : AudioNode)
| start (n : AudioNode) (time : Q)
| stop (n : AudioNode) (time : Q)
| resume.

Definition is_running (ctx : option AudioContext) : bool :=
  match ctx with
  | Some c => match state c with running => true | _ => false end
  | None => false
  end.

(** [playHeartbeatSound]: the calls it makes on the audio context, in order. *)
Definition playHeartbeatSound (audioContextRef : option AudioContext) : list AudioCall :=
  match audioContextRef with
  | None => []
  | Some ctx =>
    match state ctx with
    | running =>
      let now := currentTime ctx in
      let delay := 0.15 in
      [ createOscillator osc1;
        createGain gain1;
        set_type osc1 "sine";
        frequency_setValueAtTime osc1 60 now;
        frequency_exponentialRampToValueAtTime osc1 40 (now + 0.1);
        gain_setValueAtTime gain1 0 now;
        gain_linearRampToValueAtTime gain1 0.5 (now + 0.02);
        gain_exponentialRampToValueAtTime gain1 0.001 (now + 0.15);
        connect osc1 gain1;
        connect gain1 destination;
        start osc1 now;
        stop osc1 (now + 0.15);
        createOscillator osc2;
        createGain gain2;
        set_type osc2 "sine";
        frequency_setValueAtTime osc2 70 (now + delay);
        frequency_exponentialRampToValueAtTime osc2 50 (now + delay + 0.08);
        gain_setValueAtTime gain2 0 (now + delay);
        gain_linearRampToValueAtTime gain2 0.4 (now + delay + 0.02);
        gain_exponentialRampToValueAtTime gain2 0.001 (now + delay + 0.1);
        connect osc2 gain2;
        connect gain2 destination;
        start osc2 (now + delay);
        stop osc2 (now + delay + 0.1) ]
    | _ => []
    end
  end.

(** ** The generator's numbers: [Math] on real numbers *)

Module RMath.
Local Open Scope R_scope.

Definition Math_PI : R := PI.
Definition Math_sin : R -> R := sin.
Definition Math_cos : R -> R := cos.
Definition Math_abs : R -> R := Rabs.
Definition Math_floor (v : R) : R := IZR (Zfloor v).

(** [Math.log]; at [0] JavaScript gives [-Infinity], which the real model
    does not have ([ln 0 = 0] here). *)
Definition Math_log : R -> R := ln.

(** [Math.pow base exponent]: repeated multiplication for an integer
    exponent, [exp (exponent * ln base)] for a positive base, and [0] for
    base [0] (and for the negative bases with a fractional exponent, where
    JavaScript gives NaN; the program raises only sums of squares to
    fractional exponents). *)
Definition Math_pow (base exponent : R) : R :=
  if Req_dec_T exponent (IZR (Zfloor exponent)) then powerRZ base (Zfloor exponent)
  else if Rlt_dec 0 base then Rpower base exponent
  else 0.

(** [arr[i]] for a number [i]. *)
Definition array_get {A : Type} (arr : list A) (i : R) : option A :=
  if Req_dec_T i (IZR (Zfloor i))
  then if (0 <=? Zfloor i)%Z then nth_error arr (Z.to_nat (Zfloor i)) else None
  else None.

(** Number of iterations of [for (let i = 0; i < bound; i++)]. *)
Definition loop_count (bound : R) : nat := Z.to_nat (Zceil bound).

End RMath.

(** ** The generator's effects: draws of [Math.random] and exceptions

    [Math.random] is a global stream.  A computation reads the oracle
    [draws] through the number [n] of values consumed so far; [None] is an
    uncaught exception. *)

Definition Gen (A : Type) : Type := (nat -> R) -> nat -> option (A * nat).

Definition ret {A : Type} (a : A) : Gen A := fun _ n => Some (a, n).

Definition bind {A B : Type} (g : Gen A) (k : A -> Gen B) : Gen B :=
  fun draws n =>
    match g draws n with
    | Some (a, n') => k a draws n'
    | None => None
    end.

Definition Math_random : Gen R := fun draws n => Some (draws n, S n).

(** Reading a component of [undefined] throws a TypeError. *)
Definition defined {A : Type} (o : option A) : Gen A :=
  fun _ n => match o with Some a => Some (a, n) | None => None end.

Declare Scope gen_scope.
Delimit Scope gen_scope with gen.
Notation "x <- g ;; k" := (bind g (fun x => k))
  (at level 61, g at next level, right associativity) : gen_scope.
Notation "' pat <- g ;; k" := (bind g (fun x => match x with pat => k end))
  (at level 61, pat pattern, g at next level, right associativity) : gen_scope.

(** [arr.forEach(a => out.push(f(a)))] and the counted [for] loops that push
    one value per iteration. *)
Fixpoint mapM {A B : Type} (f : A -> Gen B) (l : list A) : Gen (list B) :=
  match l with
  | [] => ret []
  | a :: l' => (b <- f a ;; bs <- mapM f l' ;; ret (b :: bs))%gen
  end.

Definition replicateM {A : Type} (n : nat) (g : Gen A) : Gen (list A) :=
  mapM (fun _ => g) (seq 0 n).

(** ** The point-field generator (the effect on [dimensions]) *)

Section Generator.
Local Open Scope R_scope.
Local Open Scope gen_scope.
Import RMath.

Variables width height : R.

Definition centerX : R := width / 2.
Definition centerY : R := height / 2.

Definition heartFunction (t : R) : R * R :=
  let x := 17 * Math_pow (Math_sin t) 3 in
  let y := - (16 * Math_cos t - 5 * Math_cos (2 * t) - 3 * Math_cos (3 * t)) in
  (x * IZR IMAGE_ENLARGE + centerX, y * IZR IMAGE_ENLARGE + centerY).

Definition scatterInside (x y beta : R) : Gen (R * R) :=
  u <- Math_random ;;
  let ratioX := - beta * Math_log u in
  v <- Math_random ;;
  let ratioY := - beta * Math_log v in
  ret (x - ratioX * (x - centerX), y - ratioY * (y - centerY)).

Definition distSq (x y : R) : R :=
  Math_pow (x - centerX) 2 + Math_pow (y - centerY) 2.

Definition shrink_force (x y : R) : R := - 1 / Math_pow (distSq x y) 0.6.

Definition shrink (x y ratio : R) : R * R :=
  let force := shrink_force x y in
  (x - ratio * force * (x - centerX), y - ratio * force * (y - centerY)).

Definition curve (p : R) : R := 2 * (2 * Math_sin (4 * p)) / (2 * Math_PI).

Definition calcPosition_force (x y : R) : R := 1 / Math_pow (distSq x y) 0.42.

Definition calcPosition (x y ratio : R) : Gen (R * R) :=
  let force := calcPosition_force x y in
  u <- Math_random ;;
  let dx := ratio * force * (x - centerX) + (u * 2 - 1) in
  v <- Math_random ;;
  let dy := ratio * force * (y - centerY) + (v * 2 - 1) in
  ret (x - dx, y - dy).

(** [for (let i = 0; i < 1000; i++) basePoints.push(...)] *)
Definition basePoints : Gen (list (R * R)) :=
  replicateM 1000 (u <- Math_random ;; ret (heartFunction (u * 2 * Math_PI))).

Definition edgeDiffusionPoints (base : list (R * R)) : Gen (list (R * R)) :=
  groups <- mapM (fun b => replicateM 3 (scatterInside (fst b) (snd b) 0.05)) base ;;
  ret (concat groups).

Definition centerDiffusionPoints (base : list (R * R)) : Gen (list (R * R)) :=
  replicateM 5000
    (u <- Math_random ;;
     b <- defined (array_get base (Math_floor (u * INR (length base)))) ;;
     scatterInside (fst b) (snd b) 0.27).

(** The per-frame quantities, for the loop variable [frame]. *)
Definition phase (frame : R) : R := (frame / IZR GENERATE_FRAMES) * Math_PI.
Definition ratio (frame : R) : R := 15 * curve (phase frame).
Definition haloRadius (frame : R) : R := 4 + 6 * (1 + curve (phase frame)).
Definition haloNumber (frame : R) : R :=
  Math_floor (1500 + 2000 * Math_pow (Math_abs (curve (phase frame))) 2).

(** One iteration of the halo loop. *)
Definition haloPoint (haloRadius : R) : Gen Point.t :=
  u <- Math_random ;;
  let '(hx, hy) := heartFunction (u * 2 * Math_PI) in
  let '(hx, hy) := shrink hx hy haloRadius in
  jx <- Math_random ;;
  jy <- Math_random ;;
  s <- Math_random ;;
  ret (Point.mk (hx + (jx * 120 - 60)) (hy + (jy * 120 - 60))
                (if Rlt_dec s 0.66 then 1 else 2)).

(** One callback of the three [forEach] loops: sizes [1..sizes]. *)
Definition projected (ratio sizes : R) (b : R * R) : Gen Point.t :=
  '(px, py) <- calcPosition (fst b) (snd b) ratio ;;
  s <- Math_random ;;
  ret (Point.mk px py (Math_floor (s * sizes) + 1)).

Definition framePoints (base edge center : list (R * R)) (frame : nat) : Gen Frame :=
  let frame := INR frame in
  halo <- replicateM (loop_count (haloNumber frame)) (haloPoint (haloRadius frame)) ;;
  bs <- mapM (projected (ratio frame) 3) base ;;
  es <- mapM (projected (ratio frame) 2) edge ;;
  cs <- mapM (projected (ratio frame) 2) center ;;
  ret (halo ++ bs ++ es ++ cs).

Definition generatedFrames : Gen (list Frame) :=
  base <- basePoints ;;
  edge <- edgeDiffusionPoints base ;;
  center <- centerDiffusionPoints base ;;
  mapM (framePoints base edge center) (seq 0 (Z.to_nat GENERATE_FRAMES)).

End Generator.

(** ** The playback loop *)

Record State : Type := mkState {
  dimensions : R * R;
  framesRef : list Frame;
  floatingTexts : list FloatingText.t;
  audioContextRef : option AudioContext;
  lastBeatTimeRef : Q;
  isAudioStarted : bool
}.

(** What a handler does to the outside: scheduler, canvas and audio calls. *)
Inductive Effect : Type :=
| requestAnimationFrame
| fillStyle (color : string)
| fillRect (x y w h : R)
| audio (call : AudioCall).

Definition initialState : State :=
  mkState (840%R, 680%R) [] [] None 0 false.

Definition beatProgress (seconds : Q) : Q :=
  JS.rem seconds BEAT_INTERVAL / BEAT_INTERVAL.

Definition frameIndex (time : Q) : Q :=
  let seconds := time / 1000 in
  JS.Math_floor (beatProgress seconds * inject_Z GENERATE_FRAMES).

(** [framesRef.current[frameIndex % GENERATE_FRAMES]] *)
Definition currentFramePoints (time : Q) (frames : list Frame) : option Frame :=
  JS.array_get frames (JS.rem (frameIndex time) (inject_Z GENERATE_FRAMES)).

(** The guard of the sound trigger. *)
Definition beatDue (seconds lastBeatTime : Q) : bool :=
  JS.ge (seconds - lastBeatTime) BEAT_INTERVAL.

(** The updater passed to [setFloatingTexts] by [render]. *)
Definition decay (t : FloatingText.t) : FloatingText.t :=
  FloatingText.mk (FloatingText.id t) (FloatingText.x t)
    (FloatingText.y t - 1) (FloatingText.opacity t - 0.01) (FloatingText.scale t + 0.005).

Definition visible (t : FloatingText.t) : bool := JS.gt (FloatingText.opacity t) 0.

Definition updateFloatingTexts (prev : list FloatingText.t) : list FloatingText.t :=
  filter visible (map decay prev).

Definition drawPoint (p : Point.t) : Effect :=
  fillRect (Point.x p) (Point.y p) (Point.size p) (Point.size p).

(** [render time]: [None] is the TypeError of calling [forEach] on an
    [undefined] frame. *)
Definition render (time : Q) (st : State) : option (State * list Effect) :=
  if (List.length (framesRef st) =? 0)%nat then Some (st, [requestAnimationFrame])
  else
    let seconds := time / 1000 in
    let beat := beatDue seconds (lastBeatTimeRef st) in
    let sound := if beat then playHeartbeatSound (audioContextRef st) else [] in
    let lastBeatTime := if beat then seconds else lastBeatTimeRef st in
    match currentFramePoints time (framesRef st) with
    | None => None
    | Some points =>
      Some (mkState (dimensions st) (framesRef st)
                    (updateFloatingTexts (floatingTexts st))
                    (audioContextRef st) lastBeatTime (isAudioStarted st),
            map audio sound
            ++ [fillStyle BACKGROUND_COLOR;
                fillRect 0 0 (fst (dimensions st)) (snd (dimensions st));
                fillStyle HEART_COLOR]
            ++ map drawPoint points
            ++ [requestAnimationFrame])
    end.

(** ** Clicks *)

(** [initAudio]; [fresh] is the context the constructor returns. *)
Definition initAudio (fresh : AudioContext) (st : State) : State * list Effect :=
  match audioContextRef st with
  | None =>
    (mkState (dimensions st) (framesRef st) (floatingTexts st)
             (Some fresh) (lastBeatTimeRef st) true, [])
  | Some ctx =>
    match state ctx with
    | suspended =>
      (mkState (dimensions st) (framesRef st) (floatingTexts st)
               (audioContextRef st) (lastBeatTimeRef st) true, [audio resume])
    | _ => (st, [])
    end
  end.

Definition newText (now : Z) (clientX clientY : Q) : FloatingText.t :=
  FloatingText.mk now clientX clientY 1 1.

Definition handleCanvasClick (fresh : AudioContext) (now : Z) (clientX clientY : Q)
    (st : State) : State * list Effect :=
  let '(st1, fx) := initAudio fresh st in
  (mkState (dimensions st1) (framesRef st1)
           (floatingTexts st1 ++ [newText now clientX clientY])
           (audioContextRef st1) (lastBeatTimeRef st1) (isAudioStarted st1), fx).

(** ** The component as a transition system *)

Inductive Event : Type :=
| Tick (time : Q)
| Click (fresh : AudioContext) (now : Z) (clientX clientY : Q)
| Dimensions (innerWidth innerHeight : R) (draws : nat -> R)
| AudioUpdate (ctx : AudioContext).

(** [Dimensions]: [setDimensions] followed by the generating effect, which
    replaces [framesRef.current] when it completes.  [AudioUpdate]: the
    browser moves the state and the clock of an existing audio context. *)
Definition step (e : Event) (st : State) : option (State * list Effect) :=
  match e with
  | Tick time => render time st
  | Click fresh now clientX clientY => Some (handleCanvasClick fresh now clientX clientY st)
  | Dimensions w h draws =>
    match generatedFrames w h draws 0%nat with
    | Some (frames, _) =>
      Some (mkState (w, h) frames (floatingTexts st) (audioContextRef st)
                    (lastBeatTimeRef st) (isAudioStarted st), [])
    | None => None
    end
  | AudioUpdate ctx =>
    match audioContextRef st with
    | Some _ =>
      Some (mkState (dimensions st) (framesRef st) (floatingTexts st) (Some ctx)
                    (lastBeatTimeRef st) (isAudioStarted st), [])
    | None => Some (st, [])
    end
  end.

Fixpoint run (events : list Event) (st : State) : option (State * list Effect) :=
  match events with
  | [] => Some (st, [])
  | e :: events' =>
    match step e st with
    | Some (st1, fx1) =>
      match run events' st1 with
      | Some (st2, fx2) => Some (st2, fx1 ++ fx2)
      | None => None
      end
    | None => None
    end
  end.

(** A tick fires the sound trigger when frames exist and the guard holds. *)
Definition fires (time : Q) (st : State) : bool :=
  negb (List.length (framesRef st) =? 0)%nat && beatDue (time / 1000) (lastBeatTimeRef st).

(** The timestamps (in seconds) at which a run calls [playHeartbeatSound]. *)
Fixpoint triggers (events : list Event) (st : State) : list Q :=
  match events with
  | [] => []
  | e :: events' =>
    let here :=
      match e with
      | Tick time => if fires time st then [time / 1000] else []
      | _ => []
      end in
    match step e st with
    | Some (st1, _) => here ++ triggers events' st1
    | None => here
    end
  end.

(** Iterating a tick's update [k] times. *)
Fixpoint ticks (k : nat) (texts : list FloatingText.t) : list FloatingText.t :=
  match k with
  | O => texts
  | S k' => updateFloatingTexts (ticks k' texts)
  end.

(** ** Observations and predicates used in the statements *)

(** What it means for a tick to draw the frame [points]: the canvas calls are
    the background followed by one square per point of that frame. *)
Definition draws (time : Q) (st : State) (points : Frame) : Prop :=
  exists (st' : State) (sound : list AudioCall),
    render time st =
    Some (st', map audio sound
               ++ [fillStyle BACKGROUND_COLOR;
                   fillRect 0 0 (fst (dimensions st)) (snd (dimensions st));
                   fillStyle HEART_COLOR]
               ++ map drawPoint points
               ++ [requestAnimationFrame]).

Definition is_audio (e : Effect) : bool :=
  match e with audio _ => true | _ => false end.

(** Every timestamp of [l] is at least one beat interval after the one
    before it, starting from [last]. *)
Fixpoint spaced (last : Q) (l : list Q) : Prop :=
  match l with
  | [] => True
  | a :: l' => BEAT_INTERVAL <= a - last /\ spaced a l'
  end.


(** The values [Math.random] may return. *)
Definition valid_draws (draws : nat -> R) : Prop :=
  forall n : nat, (0 <= draws n < 1)%R.

(** Total correctness: from every draw counter the computation returns,
    and its value satisfies [P]. *)
Definition total {A : Type} (draws : nat -> R) (g : Gen A) (P : A -> Prop) : Prop :=
  forall n : nat, exists (a : A) (n' : nat), g draws n = Some (a, n') /\ P a.

Definition size_in (sizes : list R) (p : Point.t) : Prop := In (Point.size p) sizes.

(** ** The displacement forces, as the specification words them

    The specification raises the distance from the canvas center to the
    powers [0.42] and [0.6]; the definitions below follow its words and are
    compared with [calcPosition] and [shrink] further down. *)

Section Specified.
Local Open Scope R_scope.
Local Open Scope gen_scope.
Import RMath.

Variables width height : R.

(** Distance of [(x, y)] from the canvas center. *)
Definition distance (x y : R) : R :=
  sqrt ((x - centerX width) * (x - centerX width) + (y - centerY height) * (y - centerY height)).

Definition spec_calcPosition_force (x y : R) : R := 1 / Math_pow (distance x y) 0.42.

Definition spec_calcPosition (x y ratio : R) : Gen (R * R) :=
  let force := spec_calcPosition_force x y in
  u <- Math_random ;;
  let dx := ratio * force * (x - centerX width) + (u * 2 - 1) in
  v <- Math_random ;;
  let dy := ratio * force * (y - centerY height) + (v * 2 - 1) in
  ret (x - dx, y - dy).

Definition spec_shrink_force (x y : R) : R := - 1 / Math_pow (distance x y) 0.6.

Definition spec_shrink (x y ratio : R) : R * R :=
  let force := spec_shrink_force x y in
  (x - ratio * force * (x - centerX width), y - ratio * force * (y - centerY height)).

Definition spec_haloPoint (haloRadius : R) : Gen Point.t :=
  u <- Math_random ;;
  let '(hx, hy) := heartFunction width height (u * 2 * Math_PI) in
  let '(hx, hy) := spec_shrink hx hy haloRadius in
  jx <- Math_random ;;
  jy <- Math_random ;;
  s <- Math_random ;;
  ret (Point.mk (hx + (jx * 120 - 60)) (hy + (jy * 120 - 60))
                (if Rlt_dec s 0.66 then 1 else 2)).

End Specified.

(** ** Sample inputs *)

(** A frame sequence of 20 one-point frames, and two states that hold it
    and differ in everything else. *)
Definition sampleFrames : list Frame :=
  map (fun k => [Point.mk (IZR k) 0 1])
      [0; 1; 2; 3; 4; 5; 6; 7; 8; 9; 10; 11; 12; 13; 14; 15; 16; 17; 18; 19]%Z.

Definition sampleState : State :=
  mkState (840%R, 680%R) sampleFrames [newText 0 100 200] None 0 false.

Definition otherState : State :=
  mkState (840%R, 680%R) sampleFrames [] (Some (mkAudioContext running 3)) 5 true.

(** The draws that are all one half, and those that are all zero. *)
Definition halves : nat -> R := fun _ => (/ 2)%R.
Definition zeros : nat -> R := fun _ => 0%R.

(** ** The playback loop on doubles

    The same handlers with binary64 numbers: timestamps, the last-beat
    timer and the fields of a floating text are primitive floats.  The
    frames (built by the generator over [R]), the audio calls and the
    effects are those of the exact model. *)

Module Binary64.
Import PrimFloat.

(** *** The opacity of a floating text

    The updater's [t.opacity - 0.01] and [t.opacity > 0], to compare the
    rounded computation with the exact one at the threshold. *)

(** The double nearest to [0.01]. *)
Definition hundredth : float := 0x1.47ae147ae147bp-7%float.

Fixpoint opacity_after (k : nat) : float :=
  match k with
  | O => 1%float
  | S k' => sub (opacity_after k') hundredth
  end.

(** [t.opacity > 0] *)
Definition visible (opacity : float) : bool := ltb 0%float opacity.

(** The opacity after the 100th update. *)
Definition below_zero : float := (-0x1.b2p-51)%float.

(** *** Numbers

    Division, multiplication, addition, subtraction and the comparisons are
    the primitive binary64 operations.  [%] and [Math.floor], whose results
    are exact, are computed on the sign, mantissa and exponent of their
    arguments. *)

Import SpecFloat.

(** The rational a finite binary float stands for. *)
Definition value (x : spec_float) : option Q :=
  match x with
  | S754_zero _ => Some 0%Q
  | S754_finite s m e => Some (inject_Z (cond_Zopp s (Zpos m)) * Qpower 2 e)%Q
  | _ => None
  end.

(** The rational a finite double stands for. *)
Definition to_Q (x : float) : option Q := value (FloatOps.Prim2SF x).

(** [n % d] (ECMAScript Number::remainder): NaN when [n] is infinite or [d]
    is zero; [n] when [d] is infinite or [n] is zero; otherwise
    [n - d * q] for the quotient [q] truncated toward zero, with the sign
    of [n]. *)
Definition rem (n d : float) : float :=
  match FloatOps.Prim2SF n, FloatOps.Prim2SF d with
  | S754_nan, _ | _, S754_nan => nan
  | S754_infinity _, _ | _, S754_zero _ => nan
  | _, S754_infinity _ | S754_zero _, _ => n
  | S754_finite sn mn en, S754_finite _ md ed =>
    let e := Z.min en ed in
    let r := Z.rem (Z.shiftl (Zpos mn) (en - e)) (Z.shiftl (Zpos md) (ed - e)) in
    FloatOps.SF2Prim (binary_normalize FloatOps.prec FloatOps.emax (cond_Zopp sn r) e sn)
  end.

(** [Math.floor]: a finite double that is not an integer goes to the integer
    below it; integers, zeros, infinities and NaN are returned as they are. *)
Definition Math_floor (x : float) : float :=
  match FloatOps.Prim2SF x with
  | S754_finite s m e =>
    if (0 <=? e)%Z then x
    else FloatOps.SF2Prim
           (binary_normalize FloatOps.prec FloatOps.emax
              (Z.shiftr (cond_Zopp s (Zpos m)) (- e)) 0 s)
  | _ => x
  end.

(** The integer a double is, when it is one. *)
Definition integer (x : float) : option Z :=
  match FloatOps.Prim2SF x with
  | S754_zero _ => Some 0%Z
  | S754_finite s m e =>
    if (0 <=? e)%Z then Some (cond_Zopp s (Z.shiftl (Zpos m) e))
    else if (Z.shiftl (Z.shiftr (Zpos m) (- e)) (- e) =? Zpos m)%Z
         then Some (cond_Zopp s (Z.shiftr (Zpos m) (- e)))
         else None
  | _ => None
  end.

(** [arr[i]] for a number [i]: an element when [i] is a non-negative integer
    below the length, [undefined] ([None]) otherwise. *)
Definition array_get {A : Type} (arr : list A) (i : float) : option A :=
  match integer i with
  | Some z =>
    if ((0 <=? z) && (z <? Z.of_nat (List.length arr)))%Z
    then nth_error arr (Z.to_nat z)
    else None
  | None => None
  end.

(** *** Constants and data *)

Definition GENERATE_FRAMES : float := 20%float.
Definition BPM : float := 70%float.
(** seconds per beat: the double nearest to 6/7 *)
Definition BEAT_INTERVAL : float := (60 / BPM)%float.

(** [BEAT_INTERVAL] as sign, mantissa and exponent. *)
Definition beat : spec_float := S754_finite false 7720456504063707 (-53).

(** The double nearest to [0.005]. *)
Definition two_hundredth : float := 0x1.47ae147ae147bp-8%float.

Module FloatingText.
Record t : Type := mk { id : Z; x : float; y : float; opacity : float; scale : float }.
End FloatingText.

Record State : Type := mkState {
  dimensions : R * R;
  framesRef : list Frame;
  floatingTexts : list FloatingText.t;
  audioContextRef : option AudioContext;
  lastBeatTimeRef : float;
  isAudioStarted : bool
}.

Definition initialState : State :=
  mkState (840%R, 680%R) [] [] None 0%float false.

(** *** [render] *)

Definition beatProgress (seconds : float) : float :=
  (rem seconds BEAT_INTERVAL / BEAT_INTERVAL)%float.

Definition frameIndex (time : float) : float :=
  let seconds := (time / 1000)%float in
  Math_floor (beatProgress seconds * GENERATE_FRAMES)%float.

(** [framesRef.current[frameIndex % GENERATE_FRAMES]] *)
Definition currentFramePoints (time : float) (frames : list Frame) : option Frame :=
  array_get frames (rem (frameIndex time) GENERATE_FRAMES).

(** The guard of the sound trigger, [seconds - lastBeatTime >= BEAT_INTERVAL]. *)
Definition beatDue (seconds lastBeatTime : float) : bool :=
  leb BEAT_INTERVAL (seconds - lastBeatTime)%float.

(** The updater passed to [setFloatingTexts] by [render]. *)
Definition decay (t : FloatingText.t) : FloatingText.t :=
  FloatingText.mk (FloatingText.id t) (FloatingText.x t)
    (FloatingText.y t - 1)%float (FloatingText.opacity t - hundredth)%float
    (FloatingText.scale t + two_hundredth)%float.

Definition updateFloatingTexts (prev : list FloatingText.t) : list FloatingText.t :=
  filter (fun t => visible (FloatingText.opacity t)) (map decay prev).

(** [render time]: [None] is the TypeError of calling [forEach] on an
    [undefined] frame. *)
Definition render (time : float) (st : State) : option (State * list Effect) :=
  if (List.length (framesRef st) =? 0)%nat then Some (st, [requestAnimationFrame])
  else
    let seconds := (time / 1000)%float in
    let beat := beatDue seconds (lastBeatTimeRef st) in
    let sound := if beat then playHeartbeatSound (audioContextRef st) else [] in
    let lastBeatTime := if beat then seconds else lastBeatTimeRef st in
    match currentFramePoints time (framesRef st) with
    | None => None
    | Some points =>
      Some (mkState (dimensions st) (framesRef st)
                    (updateFloatingTexts (floatingTexts st))
                    (audioContextRef st) lastBeatTime (isAudioStarted st),
            map audio sound
            ++ [fillStyle BACKGROUND_COLOR;
                fillRect 0 0 (fst (dimensions st)) (snd (dimensions st));
                fillStyle HEART_COLOR]
            ++ map drawPoint points
            ++ [requestAnimationFrame])
    end.

(** *** Clicks *)

Definition initAudio (fresh : AudioContext) (st : State) : State * list Effect :=
  match audioContextRef st with
  | None =>
    (mkState (dimensions st) (framesRef st) (floatingTexts st)
             (Some fresh) (lastBeatTimeRef st) true, [])
  | Some ctx =>
    match state ctx with
    | suspended =>
      (mkState (dimensions st) (framesRef st) (floatingTexts st)
               (audioContextRef st) (lastBeatTimeRef st) true, [audio resume])
    | _ => (st, [])
    end
  end.

Definition newText (now : Z) (clientX clientY : float) : FloatingText.t :=
  FloatingText.mk now clientX clientY 1%float 1%float.

Definition handleCanvasClick (fresh : AudioContext) (now : Z) (clientX clientY : float)
    (st : State) : State * list Effect :=
  let '(st1, fx) := initAudio fresh st in
  (mkState (dimensions st1) (framesRef st1)
           (floatingTexts st1 ++ [newText now clientX clientY])
           (audioContextRef st1) (lastBeatTimeRef st1) (isAudioStarted st1), fx).

(** *** The component as a transition system *)

Inductive Event : Type :=
| Tick (time : float)
| Click (fresh : AudioContext) (now : Z) (clientX clientY : float)
| Dimensions (innerWidth innerHeight : R) (draws : nat -> R)
| AudioUpdate (ctx : AudioContext).

Definition step (e : Event) (st : State) : option (State * list Effect) :=
  match e with
  | Tick time => render time st
  | Click fresh now clientX clientY => Some (handleCanvasClick fresh now clientX clientY st)
  | Dimensions w h draws =>
    match generatedFrames w h draws 0%nat with
    | Some (frames, _) =>
      Some (mkState (w, h) frames (floatingTexts st) (audioContextRef st)
                    (lastBeatTimeRef st) (isAudioStarted st), [])
    | None => None
    end
  | AudioUpdate ctx =>
    match audioContextRef st with
    | Some _ =>
      Some (mkState (dimensions st) (framesRef st) (floatingTexts st) (Some ctx)
                    (lastBeatTimeRef st) (isAudioStarted st), [])
    | None => Some (st, [])
    end
  end.

Fixpoint run (events : list Event) (st : State) : option (State * list Effect) :=
  match events with
  | [] => Some (st, [])
  | e :: events' =>
    match step e st with
    | Some (st1, fx1) =>
      match run events' st1 with
      | Some (st2, fx2) => Some (st2, fx1 ++ fx2)
      | None => None
      end
    | None => None
    end
  end.

(** A tick fires the sound trigger when frames exist and the guard holds. *)
Definition fires (time : float) (st : State) : bool :=
  negb (List.length (framesRef st) =? 0)%nat
  && beatDue (time / 1000)%float (lastBeatTimeRef st).

(** The timestamps (in seconds) at which a run calls [playHeartbeatSound]. *)
Fixpoint triggers (events : list Event) (st : State) : list float :=
  match events with
  | [] => []
  | e :: events' =>
    let here :=
      match e with
      | Tick time => if fires time st then [(time / 1000)%float] else []
      | _ => []
      end in
    match step e st with
    | Some (st1, _) => here ++ triggers events' st1
    | None => here
    end
  end.

(** *** Observations *)

(** What it means for a tick to draw the frame [points]. *)
Definition draws (time : float) (st : State) (points : Frame) : Prop :=
  exists (st' : State) (sound : list AudioCall),
    render time st =
    Some (st', map audio sound
               ++ [fillStyle BACKGROUND_COLOR;
                   fillRect 0 0 (fst (dimensions st)) (snd (dimensions st));
                   fillStyle HEART_COLOR]
               ++ map drawPoint points
               ++ [requestAnimationFrame]).

(** Every timestamp of [l] is at least one beat interval after the one
    before it, starting from [last], as the guard measures it: the rounded
    difference is at least the double [BEAT_INTERVAL]. *)
Fixpoint spaced (last : float) (l : list float) : Prop :=
  match l with
  | [] => True
  | a :: l' => leb BEAT_INTERVAL (a - last)%float = true /\ spaced a l'
  end.

(** What [k] right shifts of the mantissa [m0] keep of it: the shifted
    mantissa and its round bit do not exceed [m0]. *)
Definition shifted (m0 : Z) (k : Z) (mrs : shr_record) : Prop :=
  (0 <= shr_m mrs /\ (2 * shr_m mrs + Z.b2z (shr_r mrs)) * 2 ^ k <= 2 * m0)%Z.

(** Two states that hold the sample frames and differ in everything else. *)
Definition sampleState : State :=
  mkState (840%R, 680%R) sampleFrames [newText 0 100%float 200%float] None 0%float false.

Definition otherState : State :=
  mkState (840%R, 680%R) sampleFrames [] (Some (mkAudioContext running 3)) 5%float true.

End Binary64.

(** ** Further observations on effects, ticks and texts *)

Definition AudioNode_eqb (a b : AudioNode) : bool :=
  match a, b with
  | osc1, osc1 | gain1, gain1 | osc2, osc2 | gain2, gain2 | destination, destination => true
  | _, _ => false
  end.

(** The audio-clock times a call schedules something at. *)
Definition call_times (c : AudioCall) : list Q :=
  match c with
  | frequency_setValueAtTime _ _ t
  | frequency_exponentialRampToValueAtTime _ _ t
  | gain_setValueAtTime _ _ t
  | gain_linearRampToValueAtTime _ _ t
  | gain_exponentialRampToValueAtTime _ _ t
  | start _ t
  | stop _ t => [t]
  | _ => []
  end.

(** The target values of exponential ramps (the Web Audio API throws a
    RangeError for a target of 0). *)
Definition exponential_targets (c : AudioCall) : list Q :=
  match c with
  | frequency_exponentialRampToValueAtTime _ v _
  | gain_exponentialRampToValueAtTime _ v _ => [v]
  | _ => []
  end.

Definition starts_of (n : AudioNode) (calls : list AudioCall) : list Q :=
  flat_map (fun c => match c with
                     | start m t => if AudioNode_eqb m n then [t] else []
                     | _ => []
                     end) calls.

Definition stops_of (n : AudioNode) (calls : list AudioCall) : list Q :=
  flat_map (fun c => match c with
                     | stop m t => if AudioNode_eqb m n then [t] else []
                     | _ => []
                     end) calls.



Definition is_click (e : Event) : bool :=
  match e with Click _ _ _ _ => true | _ => false end.

(** A text on its way from opacity 1 to 0, its scale tied to its opacity. *)
Definition fading (t : FloatingText.t) : Prop :=
  0 < FloatingText.opacity t /\ FloatingText.opacity t <= 1 /\
  FloatingText.scale t == 1 + (1 - FloatingText.opacity t) / 2.

(** ** Where the points of a run come from *)

Section PointSets.
Local Open Scope R_scope.
Import RMath.

Variables width height : R.
Variable draws : nat -> R.

(** A sample of the heart curve at a parameter in [[0, 2 pi)]. *)
Definition on_heart (b : R * R) : Prop :=
  exists t : R, 0 <= t < 2 * PI /\ b = heartFunction width height t.

(** [c] is what [scatterInside] returns for [b] at some point of the run. *)
Definition scattered_from (beta : R) (b c : R * R) : Prop :=
  exists n : nat,
    scatterInside width height (fst b) (snd b) beta draws n = Some (c, S (S n)).

(** [p] is what a [forEach] callback pushes for [b] at some point of the run. *)
Definition projected_from (r sizes : R) (b : R * R) (p : Point.t) : Prop :=
  exists n : nat, projected width height r sizes b draws n = Some (p, S (S (S n))).

(** [p] is what an iteration of the halo loop pushes at some point of the run. *)
Definition halo_from (r : R) (p : Point.t) : Prop :=
  exists n : nat, haloPoint width height r draws n = Some (p, S (S (S (S n)))).

(** A frame is the halo followed by the projections of the base, edge and
    center points, in their order. *)
Definition frame_layout (base edge center : list (R * R)) (frame : nat) (f : Frame) : Prop :=
  exists halo bs es cs : list Point.t,
    f = halo ++ bs ++ es ++ cs /\
    List.length halo = loop_count (haloNumber (INR frame)) /\
    Forall (halo_from (haloRadius (INR frame))) halo /\
    Forall2 (projected_from (ratio (INR frame)) 3) base bs /\
    Forall2 (projected_from (ratio (INR frame)) 2) edge es /\
    Forall2 (projected_from (ratio (INR frame)) 2) center cs.

End PointSets.

(** ** Counting draws *)

(** Whenever [g] returns, it has called [Math.random] exactly [k] times. *)
Definition counts {A : Type} (g : Gen A) (k : nat) : Prop :=
  forall (draws : nat -> R) (n : nat) (a : A) (n' : nat),
    g draws n = Some (a, n') -> n' = (n + k)%nat.

(** The halo populations of the 20 frames, as integers. *)
Definition haloCounts : list Z :=
  map (fun frame => Z.of_nat (RMath.loop_count (haloNumber (INR frame)))) (seq 0 20).

(** The number of [Math.random] calls one frame makes: four per halo point
    and three per projected point. *)
Definition frameDraws (frame : nat) : nat :=
  4 * RMath.loop_count (haloNumber (INR frame)) + 3 * (1000 + 3000 + 5000).

(** The number of calls made before the loop body of [frame] starts: those
    of the three point sets, then those of the earlier frames. *)
Fixpoint frameStart (frame : nat) : nat :=
  match frame with
  | O => 1000 + 2 * 3000 + 3 * 5000
  | S earlier => frameStart earlier + frameDraws earlier
  end.

(** The number of the first of the four draws of halo point [i] of [frame]. *)
Definition haloDraw (frame i : nat) : nat := frameStart frame + 4 * i.

(** The [Date.now()] values of the clicks of a run, in order. *)
Definition click_nows (events : list Event) : list Z :=
  flat_map (fun e => match e with Click _ now _ _ => [now] | _ => [] end) events.

(** The React keys of the overlay. *)
Definition text_ids (st : State) : list Z := map FloatingText.id (floatingTexts st).

(** * Properties *)

(** ** Rational arithmetic of the playback loop *)

(** Linear arithmetic on [Q]; plain [lra] is the one on [R]. *)
Ltac qlra := Lqa.lra.

Lemma BEAT_INTERVAL_pos : 0 < BEAT_INTERVAL.
Proof. reflexivity. Qed.

Lemma truncate_nonneg (q : Q) : 0 <= q -> JS.truncate q = Qfloor q.
Proof.
  intros H. unfold JS.truncate.
  destruct (Qle_bool 0 q) eqn:E; [reflexivity|].
  apply Qle_bool_iff in H. congruence.
Qed.

(** For a non-negative dividend and a positive divisor, [%] lands in
    [[0, d)]. *)
Lemma rem_range (n d : Q) : 0 <= n -> 0 < d -> 0 <= JS.rem n d /\ JS.rem n d < d.
Proof.
  intros Hn Hd. unfold JS.rem.
  assert (Hq : 0 <= n / d).
  { apply Qle_shift_div_l; [exact Hd|]. rewrite Qmult_0_l. exact Hn. }
  rewrite (truncate_nonneg _ Hq).
  pose proof (Qfloor_le (n / d)) as Hlo.
  pose proof (Qlt_floor (n / d)) as Hhi.
  assert (Hnd : n == d * (n / d)).
  { rewrite Qmult_div_r; [reflexivity|]. intros E. rewrite E in Hd. discriminate. }
  set (f := inject_Z (Qfloor (n / d))) in *.
  assert (Hhi' : n / d < f + 1).
  { unfold f. rewrite inject_Z_plus in Hhi. exact Hhi. }
  split.
  - assert (d * f <= d * (n / d)) by (apply Qmult_le_l; assumption).
    rewrite <- Hnd in H. qlra.
  - assert (d * (n / d) < d * (f + 1)) by (apply Qmult_lt_l; assumption).
    rewrite <- Hnd in H. qlra.
Qed.

Lemma Qfloor_eq (q : Q) (z : Z) :
  inject_Z z <= q -> q < inject_Z z + 1 -> Qfloor q = z.
Proof.
  intros Hlo Hhi.
  pose proof (Qfloor_resp_le _ _ Hlo) as H1. rewrite Qfloor_Z in H1.
  pose proof (Qfloor_le q) as H2.
  assert (H3 : inject_Z (Qfloor q) < inject_Z (z + 1)).
  { rewrite inject_Z_plus. change (inject_Z 1) with 1. qlra. }
  rewrite <- Zlt_Qlt in H3. lia.
Qed.

Lemma rem_small (k : Z) (d : Q) :
  (0 <= k)%Z -> inject_Z k < d -> JS.rem (inject_Z k) d == inject_Z k.
Proof.
  intros Hk Hd. unfold JS.rem.
  assert (H0 : 0 <= inject_Z k) by (change 0 with (inject_Z 0); rewrite <- Zle_Qle; exact Hk).
  assert (Hdpos : 0 < d) by qlra.
  assert (Hq : 0 <= inject_Z k / d).
  { apply Qle_shift_div_l; [exact Hdpos|]. qlra. }
  rewrite (truncate_nonneg _ Hq).
  rewrite (Qfloor_eq _ 0%Z).
  - change (inject_Z 0) with 0. qlra.
  - exact Hq.
  - change (inject_Z 0 + 1) with 1. apply Qlt_shift_div_r; [exact Hdpos|]. qlra.
Qed.

Lemma Qred_inject_Z (z : Z) : Qred (inject_Z z) = inject_Z z.
Proof.
  unfold Qred, inject_Z.
  generalize (Z.ggcd_gcd z 1) (Z.ggcd_correct_divisors z 1).
  destruct (Z.ggcd z 1) as (g, (a, b)). simpl.
  intros Hg [Ha Hb]. rewrite Z.gcd_1_r in Hg. subst g.
  replace a with z by lia. replace b with 1%Z by lia. reflexivity.
Qed.

Lemma array_get_integer {A : Type} (arr : list A) (q : Q) (z : Z) :
  q == inject_Z z -> (0 <= z)%Z -> JS.array_get arr q = nth_error arr (Z.to_nat z).
Proof.
  intros E Hz. unfold JS.array_get.
  rewrite (Qred_complete _ _ E).
  rewrite Qred_inject_Z.
  simpl. destruct (0 <=? z)%Z eqn:L; [reflexivity|].
  apply Z.leb_gt in L. lia.
Qed.

(** For a non-negative timestamp the floored beat progress is one of
    [0 .. 19]. *)
Lemma frameIndex_range (time : Q) :
  0 <= time ->
  exists k : Z, (0 <= k < GENERATE_FRAMES)%Z /\ frameIndex time = inject_Z k.
Proof.
  intros Ht. unfold frameIndex, JS.Math_floor.
  set (seconds := time / 1000).
  assert (Hs : 0 <= seconds).
  { unfold seconds. apply Qle_shift_div_l; [reflexivity|]. qlra. }
  destruct (rem_range seconds BEAT_INTERVAL Hs BEAT_INTERVAL_pos) as [Hlo Hhi].
  assert (Hp0 : 0 <= beatProgress seconds).
  { unfold beatProgress. apply Qle_shift_div_l; [exact BEAT_INTERVAL_pos|]. qlra. }
  assert (Hp1 : beatProgress seconds < 1).
  { unfold beatProgress. apply Qlt_shift_div_r; [exact BEAT_INTERVAL_pos|]. qlra. }
  set (v := beatProgress seconds * inject_Z GENERATE_FRAMES).
  assert (Hv : 0 <= v /\ v < 20).
  { unfold v. change (inject_Z GENERATE_FRAMES) with 20. split; qlra. }
  exists (Qfloor v). split; [|reflexivity].
  split.
  - change 0%Z with (Qfloor 0). apply Qfloor_resp_le. tauto.
  - pose proof (Qfloor_le v) as Hf.
    assert (H : inject_Z (Qfloor v) < inject_Z 20) by (change (inject_Z 20) with 20; qlra).
    rewrite <- Zlt_Qlt in H. exact H.
Qed.

(** The index the tick reads, as a natural number. *)
Lemma currentFramePoints_index (time : Q) (frames : list Frame) :
  0 <= time ->
  exists k : nat, (k < 20)%nat /\
    JS.rem (frameIndex time) (inject_Z GENERATE_FRAMES) == inject_Z (Z.of_nat k) /\
    currentFramePoints time frames = nth_error frames k.
Proof.
  intros Ht. destruct (frameIndex_range time Ht) as (z & Hz & E).
  unfold GENERATE_FRAMES in Hz.
  assert (R : JS.rem (frameIndex time) (inject_Z GENERATE_FRAMES) == inject_Z z).
  { rewrite E. apply rem_small; [lia|].
    rewrite <- Zlt_Qlt. unfold GENERATE_FRAMES. lia. }
  exists (Z.to_nat z). split; [lia|]. split.
  - rewrite Z2Nat.id by lia. exact R.
  - unfold currentFramePoints. apply array_get_integer; [exact R|lia].
Qed.

(** ** The playback loop: frame selection *)

Lemma render_nonempty (time : Q) (st : State) :
  framesRef st <> [] ->
  match currentFramePoints time (framesRef st) with
  | Some points => draws time st points
  | None => render time st = None
  end.
Proof.
  intros Hne. unfold draws, render.
  destruct (framesRef st) as [|f fs] eqn:F; [congruence|]. simpl List.length. simpl Nat.eqb.
  destruct (currentFramePoints time (f :: fs)) as [points|]; [|reflexivity].
  eexists. eexists. reflexivity.
Qed.

(** ** The playback loop: the sound trigger *)

(** Only a tick that fires moves the last-beat timer, and it moves it to the
    tick's own timestamp. *)
Lemma step_lastBeatTimeRef (e : Event) (st st' : State) (fx : list Effect) :
  step e st = Some (st', fx) ->
  lastBeatTimeRef st' =
  match e with
  | Tick time => if fires time st then time / 1000 else lastBeatTimeRef st
  | _ => lastBeatTimeRef st
  end.
Proof.
  destruct e as [time|fresh now cx cy|w h d|ctx]; simpl.
  - unfold render, fires.
    destruct (List.length (framesRef st) =? 0)%nat; simpl.
    + intros H. inversion H. reflexivity.
    + destruct (currentFramePoints time (framesRef st)); [|discriminate].
      intros H. inversion H. reflexivity.
  - unfold handleCanvasClick, initAudio.
    destruct (audioContextRef st) as [c|]; [destruct (state c)|];
      intros H; inversion H; reflexivity.
  - destruct (generatedFrames w h d 0%nat) as [[frames n]|]; [|discriminate].
    intros H. inversion H. reflexivity.
  - destruct (audioContextRef st); intros H; inversion H; reflexivity.
Qed.


(** ** Rounding in binary64

    The subtraction of two doubles is the exact difference of their
    aligned mantissas, rounded to nearest.  What follows bounds the rounded
    number from above by the exact one plus half a unit in the last place,
    which is all the guard of the sound trigger needs. *)

Section Rounding.
Import SpecFloat.

Lemma digits2_pos_bounds (m : positive) :
  (2 ^ (Zpos (digits2_pos m) - 1) <= Zpos m < 2 ^ Zpos (digits2_pos m))%Z.
Proof.
  induction m as [m IH|m IH|]; cbn [digits2_pos].
  - rewrite Pos2Z.inj_succ, Pos2Z.inj_xI.
    replace (Z.succ (Zpos (digits2_pos m)) - 1)%Z with (Z.succ (Zpos (digits2_pos m) - 1))%Z by lia.
    rewrite !Z.pow_succ_r by lia.
    revert IH. generalize (2 ^ (Zpos (digits2_pos m) - 1))%Z (2 ^ Zpos (digits2_pos m))%Z.
    intros a b. lia.
  - rewrite Pos2Z.inj_succ. change (Zpos m~0) with (2 * Zpos m)%Z.
    replace (Z.succ (Zpos (digits2_pos m)) - 1)%Z with (Z.succ (Zpos (digits2_pos m) - 1))%Z by lia.
    rewrite !Z.pow_succ_r by lia.
    revert IH. generalize (2 ^ (Zpos (digits2_pos m) - 1))%Z (2 ^ Zpos (digits2_pos m))%Z.
    intros a b. lia.
  - cbn. lia.
Qed.

Lemma shr_1_shifted (m0 k : Z) (mrs : shr_record) :
  (0 <= k)%Z -> Binary64.shifted m0 k mrs -> Binary64.shifted m0 (k + 1) (shr_1 mrs).
Proof.
  intros Hk [H0 H]. destruct mrs as [m r s]. cbn [shr_m shr_r] in *.
  unfold Binary64.shifted. rewrite Z.pow_add_r, Z.pow_1_r by lia.
  assert (P : (0 < 2 ^ k)%Z) by (apply Z.pow_pos_nonneg; lia).
  assert (B : (0 <= Z.b2z r)%Z) by (destruct r; cbn; lia).
  destruct m as [|[p|p|]|p]; cbn [shr_1 shr_m shr_r Z.b2z]; lia.
Qed.

Lemma iter_pos_shifted (m0 : Z) (p : positive) (k : Z) (mrs : shr_record) :
  (0 <= k)%Z -> Binary64.shifted m0 k mrs ->
  Binary64.shifted m0 (k + Zpos p) (iter_pos shr_1 p mrs).
Proof.
  revert k mrs. induction p as [p IH|p IH|]; intros k mrs Hk H; cbn [iter_pos].
  - replace (k + Zpos p~1)%Z with (k + 1 + Zpos p + Zpos p)%Z by lia.
    apply IH; [lia|]. apply IH; [lia|]. now apply shr_1_shifted.
  - replace (k + Zpos p~0)%Z with (k + Zpos p + Zpos p)%Z by lia.
    apply IH; [lia|]. now apply IH.
  - now apply shr_1_shifted.
Qed.

Lemma shr_shifted (m0 : Z) (mrs : shr_record) (e n : Z) :
  Binary64.shifted m0 0 mrs ->
  exists k : Z,
    (0 <= k)%Z /\ snd (shr mrs e n) = (e + k)%Z /\
    Binary64.shifted m0 k (fst (shr mrs e n)).
Proof.
  intros H. destruct n as [|p|p]; cbn [shr fst snd].
  - exists 0%Z. split; [lia|]. split; [lia|exact H].
  - exists (Zpos p). split; [lia|]. split; [reflexivity|].
    apply (iter_pos_shifted m0 p 0 mrs); [lia|exact H].
  - exists 0%Z. split; [lia|]. split; [lia|exact H].
Qed.

Lemma shr_fexp_shifted (prec emax m e : Z) :
  (0 <= m)%Z ->
  exists k : Z,
    (0 <= k)%Z /\ snd (shr_fexp prec emax m e loc_Exact) = (e + k)%Z /\
    Binary64.shifted m k (fst (shr_fexp prec emax m e loc_Exact)).
Proof.
  intros Hm. unfold shr_fexp. apply shr_shifted.
  unfold Binary64.shifted. cbn [shr_record_of_loc shr_m shr_r Z.b2z]. lia.
Qed.

Lemma round_nearest_even_bounds (mrs : shr_record) :
  (0 <= shr_m mrs)%Z ->
  (shr_m mrs <= round_nearest_even (shr_m mrs) (loc_of_shr_record mrs)
   <= shr_m mrs + Z.b2z (shr_r mrs))%Z.
Proof.
  intros H. destruct mrs as [m [|] [|]];
    cbn [shr_m shr_r loc_of_shr_record round_nearest_even Z.b2z]; try lia.
  destruct (Z.even m); lia.
Qed.

(** The result of rounding [m * 2^e]: a mantissa [m'] at an exponent
    [e' >= e], not more than half a unit of [e'] above the rounded number. *)
Lemma binary_round_aux_bound (prec emax : Z) (s : bool) (m : positive) (e : Z) :
  exists (m' e' : Z),
    (0 <= m')%Z /\ (e <= e')%Z /\ ((2 * m' - 1) * 2 ^ (e' - e) <= 2 * Zpos m)%Z /\
    binary_round_aux prec emax s (Zpos m) e loc_Exact =
    match m' with
    | Z0 => S754_zero s
    | Zpos p => if (e' <=? emax - prec)%Z then S754_finite s p e' else S754_infinity s
    | Zneg _ => S754_nan
    end.
Proof.
  unfold binary_round_aux.
  destruct (shr_fexp_shifted prec emax (Zpos m) e) as (k & Hk & E1 & [P1 S1]); [lia|].
  destruct (shr_fexp prec emax (Zpos m) e loc_Exact) as [mrs1 e1]. cbn [fst snd] in *.
  pose proof (round_nearest_even_bounds mrs1 P1) as [R1 R2].
  set (m1 := round_nearest_even (shr_m mrs1) (loc_of_shr_record mrs1)) in *.
  destruct (shr_fexp_shifted prec emax m1 e1) as (j & Hj & E2 & [P2 S2]); [lia|].
  destruct (shr_fexp prec emax m1 e1 loc_Exact) as [mrs2 e2]. cbn [fst snd] in *.
  exists (shr_m mrs2), e2. split; [exact P2|]. split; [lia|]. split; [|reflexivity].
  subst e1 e2. replace (e + k + j - e)%Z with (j + k)%Z by lia.
  rewrite Z.pow_add_r by lia.
  assert (Pj : (1 <= 2 ^ j)%Z) by (apply (Z.pow_le_mono_r 2 0 j); lia).
  assert (Pk : (1 <= 2 ^ k)%Z) by (apply (Z.pow_le_mono_r 2 0 k); lia).
  assert (B1 : (0 <= Z.b2z (shr_r mrs1) <= 1)%Z) by (destruct (shr_r mrs1); cbn; lia).
  assert (B2 : (0 <= Z.b2z (shr_r mrs2) <= 1)%Z) by (destruct (shr_r mrs2); cbn; lia).
  assert (A : ((2 * shr_m mrs2 - 1) * 2 ^ j <= 2 * m1 - 1)%Z) by nia.
  assert (B : ((2 * m1 - 1) * 2 ^ k <= 2 * Zpos m)%Z) by nia.
  nia.
Qed.

Lemma iter_xO (p : positive) (m : positive) :
  Zpos (Pos.iter xO m p) = (Zpos m * 2 ^ Zpos p)%Z.
Proof.
  revert m. induction p as [|p IH] using Pos.peano_ind; intros m.
  - cbn. lia.
  - rewrite Pos.iter_succ. change (Zpos (Pos.iter xO m p)~0) with (2 * Zpos (Pos.iter xO m p))%Z.
    rewrite IH, Pos2Z.inj_succ, Z.pow_succ_r by lia. lia.
Qed.

Lemma shl_align_spec (m : positive) (e e' : Z) :
  (snd (shl_align m e e') <= e)%Z /\
  Zpos (fst (shl_align m e e')) = (Zpos m * 2 ^ (e - snd (shl_align m e e')))%Z /\
  ((e' <= e)%Z -> snd (shl_align m e e') = e').
Proof.
  unfold shl_align. destruct (e' - e)%Z as [|d|d] eqn:D; cbn [fst snd].
  - rewrite Z.sub_diag. cbn. split; [lia|]. split; lia.
  - rewrite Z.sub_diag. cbn. split; [lia|]. split; lia.
  - split; [lia|]. split; [|reflexivity].
    rewrite iter_xO. f_equal. f_equal. lia.
Qed.

(** The same for [binary_round], which first aligns the mantissa. *)
Lemma binary_round_bound (prec emax : Z) (s : bool) (m : positive) (e : Z) :
  exists (m' e' e0 : Z),
    (0 <= m')%Z /\ (e0 <= e)%Z /\ (e0 <= e')%Z /\
    ((2 * m' - 1) * 2 ^ (e' - e0) <= 2 * (Zpos m * 2 ^ (e - e0)))%Z /\
    binary_round prec emax s m e =
    match m' with
    | Z0 => S754_zero s
    | Zpos p => if (e' <=? emax - prec)%Z then S754_finite s p e' else S754_infinity s
    | Zneg _ => S754_nan
    end.
Proof.
  unfold binary_round.
  destruct (shl_align_spec m e (fexp prec emax (Zpos (digits2_pos m) + e))) as (A1 & A2 & _).
  destruct (shl_align m e (fexp prec emax (Zpos (digits2_pos m) + e))) as [mz ez].
  cbn [fst snd] in *.
  destruct (binary_round_aux_bound prec emax s mz ez) as (m' & e' & P & L & B & E).
  exists m', e', ez. rewrite <- A2. repeat split; assumption.
Qed.


Lemma pow2_pos (e : Z) : (0 < Qpower 2 e)%Q.
Proof. apply Qpower_0_lt. reflexivity. Qed.

Lemma pow2_plus (a b : Z) : (Qpower 2 (a + b) == Qpower 2 a * Qpower 2 b)%Q.
Proof. apply Qpower_plus. discriminate. Qed.

Lemma pow2_shift (m e0 e : Z) :
  (e0 <= e)%Z -> (inject_Z (m * 2 ^ (e - e0)) * Qpower 2 e0 == inject_Z m * Qpower 2 e)%Q.
Proof.
  intros H. rewrite inject_Z_mult, Zpower_Qpower by lia.
  replace e with ((e - e0) + e0)%Z at 2 by lia. rewrite pow2_plus.
  change (inject_Z 2) with (2%Q). ring.
Qed.

Lemma pow2_le (a b : Z) : (a <= b)%Z -> (Qpower 2 a <= Qpower 2 b)%Q.
Proof.
  intros H. replace b with ((b - a) + a)%Z by lia. rewrite pow2_plus.
  rewrite <- (Qmult_1_l (Qpower 2 a)) at 1.
  apply Qmult_le_compat_r; [|apply Qlt_le_weak, pow2_pos].
  assert (E : (Qpower 2 (b - a) == inject_Z (2 ^ (b - a)))%Q)
    by (rewrite Zpower_Qpower by lia; reflexivity).
  rewrite E. change 1%Q with (inject_Z 1).
  rewrite <- Zle_Qle. apply (Z.pow_le_mono_r 2 0 (b - a)); lia.
Qed.

(** A canonical positive float that is at least [Binary64.beat]: *)
Lemma beat_le_finite (s : bool) (q : positive) (e : Z) :
  valid_binary FloatOps.prec FloatOps.emax (S754_finite s q e) = true ->
  SFleb Binary64.beat (S754_finite s q e) = true ->
  s = false /\
  (inject_Z (2 * 7720456504063707 - 1) * Qpower 2 (-53)
   <= inject_Z (2 * Zpos q - 1) * Qpower 2 e)%Q.
Proof.
  intros V L. unfold SFleb, SFcompare, Binary64.beat in L.
  destruct s; [discriminate|]. split; [reflexivity|].
  cbn [valid_binary] in V. unfold bounded in V. apply andb_true_iff in V. destruct V as [C _].
  unfold canonical_mantissa in C. apply Z.eqb_eq in C.
  pose proof (digits2_pos_bounds q) as D.
  destruct (Z.compare_spec (-53) e) as [E|E|E]; try discriminate.
  - subst e.
    assert (Hq : (7720456504063707 <= Zpos q)%Z).
    { change (Pos.compare_cont Eq 7720456504063707 q)
        with (Pos.compare 7720456504063707 q) in L.
      destruct (Pos.compare_spec 7720456504063707 q) as [K|K|K]; try discriminate; lia. }
    apply Qmult_le_compat_r; [|apply Qlt_le_weak, pow2_pos].
    rewrite <- Zle_Qle. lia.
  - (* e >= -52: the mantissa has 53 digits *)
    unfold fexp, emin, FloatOps.prec, FloatOps.emax in C.
    assert (Hd : Zpos (digits2_pos q) = 53%Z) by lia.
    rewrite Hd in D. change (2 ^ (53 - 1))%Z with 4503599627370496%Z in D.
    apply Qle_trans with (inject_Z (2 * Zpos q - 1) * Qpower 2 (-52))%Q.
    + change (Qpower 2 (-53)) with (1 # 9007199254740992)%Q.
      change (Qpower 2 (-52)) with (1 # 4503599627370496)%Q.
      unfold Qle, Qmult, inject_Z. cbn [Qnum Qden]. lia.
    + apply Qmult_le_l.
      * change 0%Q with (inject_Z 0). rewrite <- Zlt_Qlt. lia.
      * apply pow2_le. lia.
Qed.

Lemma beat_le_negative_round (p : positive) (e : Z) :
  SFleb Binary64.beat (binary_round FloatOps.prec FloatOps.emax true p e) = false.
Proof.
  destruct (binary_round_bound FloatOps.prec FloatOps.emax true p e)
    as (m' & e' & e0 & _ & _ & _ & _ & E).
  rewrite E. destruct m' as [|q|q]; [reflexivity| |reflexivity].
  destruct (e' <=? FloatOps.emax - FloatOps.prec)%Z; reflexivity.
Qed.

Lemma aligned_value (s : bool) (m : positive) (e ez : Z) :
  (ez <= e)%Z ->
  (inject_Z (cond_Zopp s (Zpos (fst (shl_align m e ez)))) * Qpower 2 ez
   == inject_Z (cond_Zopp s (Zpos m)) * Qpower 2 e)%Q.
Proof.
  intros H. destruct (shl_align_spec m e ez) as (_ & A & B). rewrite (B H) in A.
  rewrite A. rewrite <- (pow2_shift (cond_Zopp s (Zpos m)) ez e H).
  destruct s; cbn [cond_Zopp]; [|reflexivity].
  rewrite Z.mul_opp_l. reflexivity.
Qed.

Lemma half_of_bound (c P v : Q) (q : Z) :
  (c <= inject_Z (2 * q - 1) * P -> inject_Z (2 * q - 1) * P <= 2 * v -> c * (1 # 2) <= v)%Q.
Proof. intros A B. qlra. Qed.

Lemma exact_bound (q : positive) (e : Z) :
  (inject_Z (2 * Zpos q - 1) * Qpower 2 e <= 2 * (inject_Z (Zpos q) * Qpower 2 e))%Q.
Proof.
  pose proof (pow2_pos e) as P.
  unfold Z.sub. rewrite inject_Z_plus, inject_Z_mult.
  change (inject_Z 2) with 2%Q. change (inject_Z (- (1))) with (-1)%Q.
  set (a := (inject_Z (Zpos q))). set (b := Qpower 2 e) in *.
  assert (E : ((2 * a + -1) * b == 2 * (a * b) - b)%Q) by ring.
  rewrite E. qlra.
Qed.

(** When the rounded difference of two finite doubles is at least [Binary64.beat],
    their exact difference is at least [Binary64.beat] less half a unit in its last
    place. *)
Lemma SFsub_guard (x y : spec_float) (qx qy : Q) :
  valid_binary FloatOps.prec FloatOps.emax x = true ->
  valid_binary FloatOps.prec FloatOps.emax y = true ->
  valid_binary FloatOps.prec FloatOps.emax (SFsub FloatOps.prec FloatOps.emax x y) = true ->
  Binary64.value x = Some qx -> Binary64.value y = Some qy ->
  SFleb Binary64.beat (SFsub FloatOps.prec FloatOps.emax x y) = true ->
  (15440913008127413 # 18014398509481984 <= qx - qy)%Q.
Proof.
  intros Vx Vy Vr Ex Ey L.
  assert (C : (15440913008127413 # 18014398509481984
               == inject_Z (2 * 7720456504063707 - 1) * Qpower 2 (-53) * (1 # 2))%Q)
    by reflexivity.
  rewrite C. clear C.
  destruct x as [sx|sx| |sx mx ex]; try discriminate;
    destruct y as [sy|sy| |sy my ey]; try discriminate;
    cbn [Binary64.value] in Ex, Ey; injection Ex as <-; injection Ey as <-.
  - destruct sx, sy; discriminate.
  - cbn [SFsub] in L, Vr.
    destruct (beat_le_finite _ _ _ Vr L) as [S B].
    apply half_of_bound with (1 := B).
    destruct sy; [|discriminate]. cbn [cond_Zopp].
    apply Qle_trans with (1 := exact_bound my ey).
    rewrite inject_Z_opp. apply Qle_lteq. right. ring.
  - cbn [SFsub] in L, Vr.
    destruct (beat_le_finite _ _ _ Vr L) as [S B]. subst sx.
    apply half_of_bound with (1 := B). cbn [cond_Zopp].
    apply Qle_trans with (1 := exact_bound mx ex).
    apply Qle_lteq. right. ring.
  - cbn [SFsub] in L, Vr.
    set (ez := Z.min ex ey) in *.
    pose proof (aligned_value sx mx ex ez ltac:(lia)) as Ax.
    pose proof (aligned_value sy my ey ez ltac:(lia)) as Ay.
    set (X := cond_Zopp sx (Zpos (fst (shl_align mx ex ez)))) in *.
    set (Y := cond_Zopp sy (Zpos (fst (shl_align my ey ez)))) in *.
    assert (V : (inject_Z (cond_Zopp sx (Zpos mx)) * Qpower 2 ex
                 - inject_Z (cond_Zopp sy (Zpos my)) * Qpower 2 ey
                 == inject_Z (X - Y) * Qpower 2 ez)%Q).
    { rewrite <- Ax, <- Ay. unfold Z.sub. rewrite inject_Z_plus, inject_Z_opp. ring. }
    rewrite V. clearbody X Y. clear Ax Ay V.
    destruct (X - Y)%Z as [|p|p]; cbn [binary_normalize] in L, Vr.
    + discriminate.
    + destruct (binary_round_bound FloatOps.prec FloatOps.emax false p ez)
        as (m' & e' & e0 & P0 & L0 & L1 & B & E).
      rewrite E in L, Vr.
      assert (B' : (inject_Z (2 * m' - 1) * Qpower 2 e'
                    <= 2 * (inject_Z (Zpos p) * Qpower 2 ez))%Q).
      { rewrite <- (pow2_shift (2 * m' - 1) e0 e' L1).
        rewrite <- (pow2_shift (Zpos p) e0 ez L0).
        assert (R : (2 * (inject_Z (Zpos p * 2 ^ (ez - e0)) * Qpower 2 e0)
                     == inject_Z (2 * (Zpos p * 2 ^ (ez - e0))) * Qpower 2 e0)%Q).
        { rewrite (inject_Z_mult 2). change (inject_Z 2) with 2%Q. ring. }
        rewrite R.
        apply Qmult_le_compat_r; [|apply Qlt_le_weak, pow2_pos].
        rewrite <- Zle_Qle. exact B. }
      destruct m' as [|q|q]; [discriminate| |discriminate].
      destruct (e' <=? FloatOps.emax - FloatOps.prec)%Z eqn:O.
      * destruct (beat_le_finite _ _ _ Vr L) as [_ B0].
        exact (half_of_bound _ _ _ _ B0 B').
      * apply Z.leb_gt in O. unfold FloatOps.emax, FloatOps.prec in O.
        refine (half_of_bound _ _ _ _ _ B').
        apply Qle_trans with (1 * Qpower 2 1)%Q; [discriminate|].
        apply Qle_trans with (1 * Qpower 2 e')%Q.
        { apply Qmult_le_l; [reflexivity|]. apply pow2_le. lia. }
        apply Qmult_le_compat_r; [|apply Qlt_le_weak, pow2_pos].
        change 1%Q with (inject_Z 1). rewrite <- Zle_Qle. lia.
    + rewrite beat_le_negative_round in L. discriminate.
Qed.

Lemma binary64_beat : FloatOps.Prim2SF Binary64.BEAT_INTERVAL = Binary64.beat.
Proof. vm_compute. reflexivity. Qed.

(** When the guard [seconds - lastBeatTime >= BEAT_INTERVAL] holds of two
    finite doubles, their exact difference is at least [BEAT_INTERVAL] less
    [2^-54], which is more than 60/70 less [2^-53]. *)
Lemma binary64_guard_exact (a b : PrimFloat.float) (qa qb : Q) :
  Binary64.to_Q a = Some qa -> Binary64.to_Q b = Some qb ->
  PrimFloat.leb Binary64.BEAT_INTERVAL (PrimFloat.sub b a) = true ->
  15440913008127413 # 18014398509481984 <= qb - qa /\
  60 / 70 - (1 # 9007199254740992) < qb - qa.
Proof.
  intros Ea Eb G.
  rewrite FloatAxioms.leb_spec, FloatAxioms.sub_spec, binary64_beat in G.
  assert (L : 15440913008127413 # 18014398509481984 <= qb - qa).
  { apply (SFsub_guard (FloatOps.Prim2SF b) (FloatOps.Prim2SF a)).
    - apply FloatAxioms.Prim2SF_valid.
    - apply FloatAxioms.Prim2SF_valid.
    - rewrite <- FloatAxioms.sub_spec. apply FloatAxioms.Prim2SF_valid.
    - exact Eb.
    - exact Ea.
    - exact G. }
  split; [exact L|].
  apply Qlt_le_trans with (2 := L). reflexivity.
Qed.

End Rounding.

(** ** The playback loop in binary64: frame selection *)

Section Binary64Playback.
Import PrimFloat.

Lemma binary64_render_nonempty (time : float) (st : Binary64.State) :
  Binary64.framesRef st <> [] ->
  match Binary64.currentFramePoints time (Binary64.framesRef st) with
  | Some points => Binary64.draws time st points
  | None => Binary64.render time st = None
  end.
Proof.
  intros Hne. unfold Binary64.draws, Binary64.render.
  destruct (Binary64.framesRef st) as [|f fs] eqn:F; [congruence|].
  cbn [List.length Nat.eqb].
  destruct (Binary64.currentFramePoints time (f :: fs)) as [points|]; [|reflexivity].
  eexists. eexists. reflexivity.
Qed.

(** The double the code computes for [60 / 70] is below 6/7, by less than
    [2^-54]. *)
Lemma binary64_BEAT_INTERVAL_value :
  Binary64.to_Q Binary64.BEAT_INTERVAL = Some (7720456504063707 # 9007199254740992) /\
  (7720456504063707 # 9007199254740992) < 60 / 70 /\
  60 / 70 - (7720456504063707 # 9007199254740992) < 1 # 18014398509481984.
Proof. split; [vm_compute; reflexivity|]. split; reflexivity. Qed.

(** C3, as stated, fails.  At [time = 8700] the exact formula
    [floor(((time/1000) mod (60/70)) / (60/70) * 20) mod 20] is 3, the
    remainder being exactly 9/70 of a second; in binary64 the product is
    [2.9999999999999947], the index is 2, and the tick draws frame 2 of the
    sequence, not frame 3. *)
Lemma frame_formula_counterexample :
  JS.rem (JS.Math_floor (JS.rem (8700 / 1000) (60 / 70) / (60 / 70) * 20)) 20 == 3 /\
  Binary64.rem (Binary64.frameIndex 8700) 20 = 2%float /\
  Binary64.draws 8700 Binary64.sampleState [Point.mk 2 0 1] /\
  ~ Binary64.draws 8700 Binary64.sampleState [Point.mk 3 0 1].
Proof.
  assert (E : Binary64.currentFramePoints 8700 (Binary64.framesRef Binary64.sampleState)
              = Some [Point.mk 2 0 1]).
  { unfold Binary64.currentFramePoints, Binary64.array_get.
    replace (Binary64.integer (Binary64.rem (Binary64.frameIndex 8700) Binary64.GENERATE_FRAMES))
      with (Some 2%Z) by (vm_compute; reflexivity).
    reflexivity. }
  assert (Hne : Binary64.framesRef Binary64.sampleState <> []) by discriminate.
  pose proof (binary64_render_nonempty 8700 Binary64.sampleState Hne) as D.
  rewrite E in D.
  split; [reflexivity|]. split; [vm_compute; reflexivity|]. split; [exact D|].
  intros (st3 & sound3 & R3). destruct D as (st2 & sound2 & R2).
  rewrite R2 in R3. injection R3 as _ R3.
  assert (L : forall (s2 s3 : list AudioCall) (rest2 rest3 : list Effect),
             map audio s2 ++ fillStyle BACKGROUND_COLOR :: rest2 =
             map audio s3 ++ fillStyle BACKGROUND_COLOR :: rest3 -> rest2 = rest3).
  { induction s2 as [|c2 s2 IH]; intros [|c3 s3] rest2 rest3 H; cbn [map app] in H.
    - now injection H.
    - discriminate.
    - discriminate.
    - injection H as _ H. exact (IH _ _ _ H). }
  apply L in R3. cbn [map app drawPoint Point.x] in R3.
  injection R3 as R3. lra.
Qed.

(** C3, amended.  The frame a tick draws is a function of the timestamp
    alone: in every state with a frame sequence the tick draws (or fails to
    find) the frame at index
    [Math.floor(((time/1000) % (60/70)) / (60/70) * 20) % 20], evaluated in
    binary64 as the code does, and a second state holding the same frames,
    whatever its last-beat timer, audio context or texts, draws that same
    frame.  The double [60 / 70] is [7720456504063707 / 2^53]. *)
Theorem frame_selected_by_time_alone (time : float) (st1 st2 : Binary64.State) :
  Binary64.framesRef st1 <> [] ->
  Binary64.framesRef st2 = Binary64.framesRef st1 ->
  Binary64.to_Q (60 / 70)%float = Some (7720456504063707 # 9007199254740992) /\
  match Binary64.array_get (Binary64.framesRef st1)
          (Binary64.rem
             (Binary64.Math_floor
                (Binary64.rem (time / 1000) (60 / 70) / (60 / 70) * 20)%float)
             20%float) with
  | Some points => Binary64.draws time st1 points /\ Binary64.draws time st2 points
  | None => Binary64.render time st1 = None /\ Binary64.render time st2 = None
  end.
Proof.
  intros Hne Hsame. split; [exact (proj1 binary64_BEAT_INTERVAL_value)|].
  assert (Hne2 : Binary64.framesRef st2 <> []) by (rewrite Hsame; exact Hne).
  pose proof (binary64_render_nonempty time st1 Hne) as H1.
  pose proof (binary64_render_nonempty time st2 Hne2) as H2.
  rewrite Hsame in H2.
  change (Binary64.array_get (Binary64.framesRef st1) _)
    with (Binary64.currentFramePoints time (Binary64.framesRef st1)).
  destruct (Binary64.currentFramePoints time (Binary64.framesRef st1)); split; assumption.
Qed.

(** ** The playback loop in binary64: the sound trigger *)

Lemma binary64_spaced_consecutive (l : list float) (last : float)
    (i : nat) (a b : float) :
  Binary64.spaced last l ->
  nth_error l i = Some a -> nth_error l (S i) = Some b ->
  (Binary64.BEAT_INTERVAL <=? b - a)%float = true.
Proof.
  revert last i. induction l as [|c l IH]; intros last i Hs Ha Hb.
  - destruct i; discriminate.
  - destruct Hs as [_ Hs]. destruct i as [|i].
    + cbn [nth_error] in Ha. inversion Ha; subst c.
      destruct l as [|d l]; [discriminate|].
      cbn [nth_error] in Hb. inversion Hb; subst d. exact (proj1 Hs).
    + cbn [nth_error] in Ha. exact (IH c i Hs Ha Hb).
Qed.

(** Only a tick that fires moves the last-beat timer, and it moves it to the
    tick's own timestamp. *)
Lemma binary64_step_lastBeatTimeRef (e : Binary64.Event) (st st' : Binary64.State)
    (fx : list Effect) :
  Binary64.step e st = Some (st', fx) ->
  Binary64.lastBeatTimeRef st' =
  match e with
  | Binary64.Tick time =>
    if Binary64.fires time st then (time / 1000)%float else Binary64.lastBeatTimeRef st
  | _ => Binary64.lastBeatTimeRef st
  end.
Proof.
  destruct e as [time|fresh now cx cy|w h d|ctx]; unfold Binary64.step.
  - unfold Binary64.render, Binary64.fires.
    destruct (List.length (Binary64.framesRef st) =? 0)%nat; cbn [negb andb].
    + intros H. inversion H. reflexivity.
    + destruct (Binary64.currentFramePoints time (Binary64.framesRef st)); [|discriminate].
      intros H. inversion H. reflexivity.
  - unfold Binary64.handleCanvasClick, Binary64.initAudio.
    destruct (Binary64.audioContextRef st) as [c|]; [destruct (state c)|];
      intros H; inversion H; reflexivity.
  - destruct (generatedFrames w h d 0%nat) as [[frames n]|]; [|discriminate].
    intros H. inversion H. reflexivity.
  - destruct (Binary64.audioContextRef st); intros H; inversion H; reflexivity.
Qed.

Lemma binary64_fires_guard (time : float) (st : Binary64.State) :
  Binary64.fires time st = true ->
  (Binary64.BEAT_INTERVAL <=? time / 1000 - Binary64.lastBeatTimeRef st)%float = true.
Proof.
  unfold Binary64.fires. intros F. apply andb_true_iff in F. exact (proj2 F).
Qed.

Lemma binary64_triggers_spaced (events : list Binary64.Event) (st : Binary64.State) :
  Binary64.spaced (Binary64.lastBeatTimeRef st) (Binary64.triggers events st).
Proof.
  revert st. induction events as [|e events IH]; intros st; [exact I|].
  cbn [Binary64.triggers]. destruct (Binary64.step e st) as [[st1 fx1]|] eqn:S.
  - pose proof (binary64_step_lastBeatTimeRef e st st1 fx1 S) as L.
    specialize (IH st1). rewrite L in IH.
    destruct e as [time| | |]; try exact IH.
    destruct (Binary64.fires time st) eqn:F; [|exact IH].
    cbn [app Binary64.spaced]. split; [|exact IH].
    now apply binary64_fires_guard.
  - destruct e as [time| | |]; try exact I.
    destruct (Binary64.fires time st) eqn:F; [|exact I].
    cbn [app Binary64.spaced]. split; [|exact I].
    now apply binary64_fires_guard.
Qed.

(** C4, as stated, fails.  With the timer at 0 and frames present, ticks at
    857.1428571428571 ms and 1714.2857142857142 ms (increasing) both call
    the sound trigger: their timestamps in seconds are the double
    [BEAT_INTERVAL] and twice it, so they are exactly that double apart,
    which is less than 60/70 of a second. *)
Lemma trigger_spacing_counterexample :
  (0x1.ac92492492492p+9 <? 0x1.ac92492492492p+10)%float = true /\
  Binary64.triggers [Binary64.Tick 0x1.ac92492492492p+9; Binary64.Tick 0x1.ac92492492492p+10]
                    Binary64.sampleState
  = [0x1.ac92492492492p+9 / 1000; 0x1.ac92492492492p+10 / 1000]%float /\
  exists a b : Q,
    Binary64.to_Q (0x1.ac92492492492p+9 / 1000) = Some a /\
    Binary64.to_Q (0x1.ac92492492492p+10 / 1000) = Some b /\
    b - a < 60 / 70.
Proof.
  split; [vm_compute; reflexivity|]. split; [vm_compute; reflexivity|].
  exists (7720456504063707 # 9007199254740992), (7720456504063707 # 4503599627370496).
  split; [vm_compute; reflexivity|]. split; [vm_compute; reflexivity|]. reflexivity.
Qed.

(** C4, amended.  In every run of the component, from any state and for any
    timestamps (increasing or not), two consecutive calls of the sound
    trigger are one beat interval apart up to rounding: the binary64
    difference of their timestamps is at least the double
    [BEAT_INTERVAL = 60 / 70], which is [7720456504063707 / 2^53], and when
    the timestamps are finite their exact difference is at least that
    double less [2^-54], hence more than 60/70 less [2^-53] of a second.
    The first call passes the same guard against the initial last-beat
    timer. *)
Theorem trigger_at_most_once_per_beat (events : list Binary64.Event) (st : Binary64.State) :
  Binary64.to_Q (60 / 70)%float = Some (7720456504063707 # 9007199254740992) /\
  Binary64.spaced (Binary64.lastBeatTimeRef st) (Binary64.triggers events st) /\
  forall (i : nat) (a b : float),
    nth_error (Binary64.triggers events st) i = Some a ->
    nth_error (Binary64.triggers events st) (S i) = Some b ->
    (60 / 70 <=? b - a)%float = true /\
    forall qa qb : Q,
      Binary64.to_Q a = Some qa -> Binary64.to_Q b = Some qb ->
      15440913008127413 # 18014398509481984 <= qb - qa /\
      60 / 70 - (1 # 9007199254740992) < qb - qa.
Proof.
  split; [exact (proj1 binary64_BEAT_INTERVAL_value)|].
  split; [apply binary64_triggers_spaced|].
  intros i a b Ha Hb.
  assert (G : (Binary64.BEAT_INTERVAL <=? b - a)%float = true).
  { apply binary64_spaced_consecutive
      with (l := Binary64.triggers events st) (last := Binary64.lastBeatTimeRef st) (i := i);
      [apply binary64_triggers_spaced|exact Ha|exact Hb]. }
  split; [exact G|].
  intros qa qb Ea Eb. exact (binary64_guard_exact a b qa qb Ea Eb G).
Qed.

Lemma frame_selected_by_time_alone_witness :
  Binary64.framesRef Binary64.sampleState <> [] /\
  Binary64.framesRef Binary64.otherState = Binary64.framesRef Binary64.sampleState /\
  Binary64.draws 8700 Binary64.sampleState [Point.mk 2 0 1] /\
  Binary64.draws 8700 Binary64.otherState [Point.mk 2 0 1].
Proof.
  assert (H1 : Binary64.framesRef Binary64.sampleState <> []) by discriminate.
  assert (H2 : Binary64.framesRef Binary64.otherState
               = Binary64.framesRef Binary64.sampleState) by reflexivity.
  split; [exact H1|]. split; [exact H2|].
  destruct (frame_selected_by_time_alone 8700 Binary64.sampleState Binary64.otherState H1 H2)
    as [_ T].
  match type of T with
  | match ?lookup with _ => _ end =>
    assert (E : lookup = Some [Point.mk 2 0 1])
  end.
  { unfold Binary64.array_get.
    match goal with
    | |- match ?i with _ => _ end = _ =>
      replace i with (Some 2%Z) by (vm_compute; reflexivity)
    end.
    reflexivity. }
  rewrite E in T. exact T.
Defined.

Lemma trigger_at_most_once_per_beat_witness :
  nth_error (Binary64.triggers [Binary64.Tick 1000; Binary64.Tick 1500; Binary64.Tick 2000]
                               Binary64.sampleState) 0 = Some 1%float /\
  nth_error (Binary64.triggers [Binary64.Tick 1000; Binary64.Tick 1500; Binary64.Tick 2000]
                               Binary64.sampleState) 1 = Some 2%float /\
  (60 / 70 <=? 2 - 1)%float = true /\
  exists qa qb : Q,
    Binary64.to_Q 1 = Some qa /\ Binary64.to_Q 2 = Some qb /\ qa == 1 /\ qb == 2 /\
    60 / 70 - (1 # 9007199254740992) < qb - qa.
Proof.
  assert (H1 : nth_error (Binary64.triggers
                            [Binary64.Tick 1000; Binary64.Tick 1500; Binary64.Tick 2000]
                            Binary64.sampleState) 0 = Some 1%float)
    by (vm_compute; reflexivity).
  assert (H2 : nth_error (Binary64.triggers
                            [Binary64.Tick 1000; Binary64.Tick 1500; Binary64.Tick 2000]
                            Binary64.sampleState) 1 = Some 2%float)
    by (vm_compute; reflexivity).
  split; [exact H1|]. split; [exact H2|].
  destruct (proj2 (proj2 (trigger_at_most_once_per_beat
                            [Binary64.Tick 1000; Binary64.Tick 1500; Binary64.Tick 2000]
                            Binary64.sampleState)) 0%nat _ _ H1 H2) as [G E].
  split; [exact G|].
  destruct (Binary64.to_Q 1) as [qa|] eqn:Q1; [|discriminate].
  destruct (Binary64.to_Q 2) as [qb|] eqn:Q2; [|discriminate].
  exists qa, qb. split; [reflexivity|]. split; [reflexivity|].
  split; [injection Q1 as <-; reflexivity|]. split; [injection Q2 as <-; reflexivity|].
  exact (proj2 (E qa qb eq_refl eq_refl)).
Defined.

End Binary64Playback.

(** ** The sound trigger without a running audio context *)

Lemma filter_audio_map_audio (calls : list AudioCall) :
  filter is_audio (map audio calls) = map audio calls.
Proof. induction calls as [|c calls IH]; simpl; [reflexivity|]. now rewrite IH. Qed.

Lemma filter_audio_drawPoint (points : Frame) :
  filter is_audio (map drawPoint points) = [].
Proof. induction points as [|p points IH]; simpl; [reflexivity|exact IH]. Qed.

(** The audio calls of a tick are those of [playHeartbeatSound], made when
    the tick fires. *)
Lemma render_audio (time : Q) (st st' : State) (fx : list Effect) :
  render time st = Some (st', fx) ->
  filter is_audio fx =
  if fires time st then map audio (playHeartbeatSound (audioContextRef st)) else [].
Proof.
  unfold render, fires.
  destruct (List.length (framesRef st) =? 0)%nat; simpl.
  - intros H. inversion H. reflexivity.
  - destruct (currentFramePoints time (framesRef st)) as [points|]; [|discriminate].
    intros H. inversion H. subst st' fx. clear H.
    rewrite filter_app, filter_audio_map_audio. simpl.
    rewrite filter_app, filter_audio_drawPoint. simpl. rewrite app_nil_r.
    destruct (beatDue (time / 1000) (lastBeatTimeRef st)); reflexivity.
Qed.

(** A running context does produce the two tone bursts. *)
Lemma playHeartbeatSound_running (now : Q) :
  List.length (playHeartbeatSound (Some (mkAudioContext running now))) = 24%nat.
Proof. reflexivity. Qed.

(** C8.  With no audio context, or one that is not running,
    [playHeartbeatSound] makes no call at all: nothing is created,
    scheduled or queued.  A tick in such a state has no audio effect, leaves
    the audio context as it was, and still sets the last-beat timer when it
    fires, so the skipped beat is not retried. *)
Theorem playHeartbeatSound_noop (ctx : option AudioContext) :
  (ctx = None \/ exists c, ctx = Some c /\ state c <> running) ->
  playHeartbeatSound ctx = [] /\
  forall (time : Q) (st st' : State) (fx : list Effect),
    audioContextRef st = ctx ->
    render time st = Some (st', fx) ->
    filter is_audio fx = [] /\
    audioContextRef st' = ctx /\
    (fires time st = true -> lastBeatTimeRef st' = time / 1000).
Proof.
  intros Hctx.
  assert (Hnone : playHeartbeatSound ctx = []).
  { destruct Hctx as [->|(c & -> & Hc)]; [reflexivity|].
    simpl. destruct (state c); congruence. }
  split; [exact Hnone|].
  intros time st st' fx Hst Hr.
  split; [|split].
  - rewrite (render_audio _ _ _ _ Hr), Hst, Hnone. now destruct (fires time st).
  - revert Hr. unfold render.
    destruct (List.length (framesRef st) =? 0)%nat.
    + intros H. inversion H. subst. reflexivity.
    + destruct (currentFramePoints time (framesRef st)); [|discriminate].
      intros H. inversion H. subst. reflexivity.
  - intros F. rewrite (step_lastBeatTimeRef (Tick time) st st' fx Hr). now rewrite F.
Qed.

(** ** Floating texts *)

Lemma visible_iff (t : FloatingText.t) :
  visible t = true <-> 0 < FloatingText.opacity t.
Proof.
  unfold visible, JS.gt. rewrite negb_true_iff.
  split.
  - intros H. apply Qnot_le_lt. intros L. apply Qle_bool_iff in L. congruence.
  - intros H. destruct (Qle_bool (FloatingText.opacity t) 0) eqn:E; [|reflexivity].
    apply Qle_bool_iff in E. qlra.
Qed.

Lemma render_floatingTexts (time : Q) (st st' : State) (fx : list Effect) :
  framesRef st <> [] ->
  render time st = Some (st', fx) ->
  floatingTexts st' = updateFloatingTexts (floatingTexts st).
Proof.
  intros Hne. unfold render.
  destruct (framesRef st) as [|f fs]; [congruence|]. simpl.
  destruct (currentFramePoints time (f :: fs)); [|discriminate].
  intros H. inversion H. reflexivity.
Qed.

(** C10.  After the update of a render tick, the overlay list is exactly the
    decayed entries whose opacity is still positive: every entry left has
    opacity [> 0], and an entry whose decayed opacity is [<= 0] is gone in
    that same tick. *)
Theorem floatingTexts_positive_opacity (time : Q) (st st' : State) (fx : list Effect) :
  framesRef st <> [] ->
  render time st = Some (st', fx) ->
  floatingTexts st' = filter visible (map decay (floatingTexts st)) /\
  Forall (fun t => 0 < FloatingText.opacity t) (floatingTexts st') /\
  forall t, In t (floatingTexts st) ->
    FloatingText.opacity (decay t) <= 0 -> ~ In (decay t) (floatingTexts st').
Proof.
  intros Hne Hr.
  rewrite (render_floatingTexts time st st' fx Hne Hr). unfold updateFloatingTexts.
  split; [reflexivity|]. split.
  - apply Forall_forall. intros t Ht. apply filter_In in Ht.
    apply visible_iff. tauto.
  - intros t _ Hle Hin. apply filter_In in Hin. destruct Hin as [_ Hv].
    apply visible_iff in Hv. qlra.
Qed.

Lemma handleCanvasClick_floatingTexts (fresh : AudioContext) (now : Z) (cx cy : Q) (st : State) :
  floatingTexts (fst (handleCanvasClick fresh now cx cy st)) =
  floatingTexts st ++ [newText now cx cy].
Proof.
  unfold handleCanvasClick, initAudio.
  destruct (audioContextRef st) as [c|]; [destruct (state c)|]; reflexivity.
Qed.

Lemma ticks_app (k : nat) (l1 l2 : list FloatingText.t) :
  ticks k (l1 ++ l2) = ticks k l1 ++ ticks k l2.
Proof.
  induction k as [|k IH]; simpl; [reflexivity|].
  rewrite IH. unfold updateFloatingTexts. now rewrite map_app, filter_app.
Qed.

(** The state of an entry after [k] decays. *)
Lemma iter_decay (k : nat) (t : FloatingText.t) :
  let tk := Nat.iter k decay t in
  FloatingText.opacity tk == FloatingText.opacity t - 0.01 * inject_Z (Z.of_nat k) /\
  FloatingText.scale tk == FloatingText.scale t + 0.005 * inject_Z (Z.of_nat k) /\
  FloatingText.y tk == FloatingText.y t - inject_Z (Z.of_nat k) /\
  FloatingText.x tk = FloatingText.x t /\
  FloatingText.id tk = FloatingText.id t.
Proof.
  induction k as [|k IH].
  - simpl. repeat split; try reflexivity; change (inject_Z 0) with 0; qlra.
  - cbv zeta in IH |- *. destruct IH as (Ho & Hs & Hy & Hx & Hi).
    rewrite Nat2Z.inj_succ. unfold Z.succ. rewrite inject_Z_plus.
    change (inject_Z 1) with 1.
    change (Nat.iter (S k) decay t) with (decay (Nat.iter k decay t)).
    simpl. rewrite Ho, Hs, Hy. repeat split; try assumption; qlra.
Qed.

Lemma opacity_exhausted (k : nat) :
  1 - 0.01 * inject_Z (Z.of_nat k) <= 0 <-> (100 <= k)%nat.
Proof.
  split.
  - intros H.
    assert (H1 : inject_Z 100 <= inject_Z (Z.of_nat k)) by (change (inject_Z 100) with 100; qlra).
    rewrite <- Zle_Qle in H1. lia.
  - intros H.
    assert (H1 : inject_Z 100 <= inject_Z (Z.of_nat k)) by (rewrite <- Zle_Qle; lia).
    change (inject_Z 100) with 100 in H1. qlra.
Qed.

Lemma ticks_newText (now : Z) (x0 y0 : Q) (k : nat) :
  ticks k [newText now x0 y0] =
  if (k <? 100)%nat then [Nat.iter k decay (newText now x0 y0)] else [].
Proof.
  induction k as [|k IH]; [reflexivity|].
  simpl ticks. rewrite IH.
  destruct (k <? 100)%nat eqn:K.
  - apply Nat.ltb_lt in K. unfold updateFloatingTexts. simpl map. simpl filter.
    change (decay (Nat.iter k decay (newText now x0 y0)))
      with (Nat.iter (S k) decay (newText now x0 y0)).
    destruct (iter_decay (S k) (newText now x0 y0)) as (Ho & _).
    simpl FloatingText.opacity in Ho.
    destruct (visible (Nat.iter (S k) decay (newText now x0 y0))) eqn:V.
    + apply visible_iff in V. rewrite Ho in V.
      destruct (S k <? 100)%nat eqn:K'; [reflexivity|].
      apply Nat.ltb_ge in K'. apply opacity_exhausted in K'. qlra.
    + destruct (S k <? 100)%nat eqn:K'; [|reflexivity].
      apply Nat.ltb_lt in K'.
      assert (~ 1 - 0.01 * inject_Z (Z.of_nat (S k)) <= 0)
        by (rewrite opacity_exhausted; lia).
      assert (V' : visible (Nat.iter (S k) decay (newText now x0 y0)) = true).
      { apply visible_iff. rewrite Ho. apply Qnot_le_lt. assumption. }
      congruence.
  - apply Nat.ltb_ge in K. destruct (S k <? 100)%nat eqn:K'; [|reflexivity].
    apply Nat.ltb_lt in K'. lia.
Qed.

(** C7.  A click appends a text with opacity 1 and scale 1 at the click
    position.  After [k] tick updates its opacity is [1 - 0.01 k], its scale
    [1 + 0.005 k], its ordinate [y0 - k], its abscissa and id unchanged;
    its opacity is [<= 0] exactly from [k = 100] on, and it is in the
    overlay list after [k] updates exactly when [k < 100], independently of
    the other entries. *)
Theorem floatingText_decay (fresh : AudioContext) (now : Z) (x0 y0 : Q) (st : State) (k : nat) :
  let t0 := newText now x0 y0 in
  let tk := Nat.iter k decay t0 in
  floatingTexts (fst (handleCanvasClick fresh now x0 y0 st)) = floatingTexts st ++ [t0] /\
  FloatingText.opacity t0 = 1 /\ FloatingText.scale t0 = 1 /\
  FloatingText.opacity tk == 1 - 0.01 * inject_Z (Z.of_nat k) /\
  FloatingText.scale tk == 1 + 0.005 * inject_Z (Z.of_nat k) /\
  FloatingText.y tk == y0 - inject_Z (Z.of_nat k) /\
  FloatingText.x tk = x0 /\
  FloatingText.id tk = now /\
  (FloatingText.opacity tk <= 0 <-> (100 <= k)%nat) /\
  ticks k (floatingTexts st ++ [t0]) =
  ticks k (floatingTexts st) ++ (if (k <? 100)%nat then [tk] else []).
Proof.
  cbv zeta.
  destruct (iter_decay k (newText now x0 y0)) as (Ho & Hs & Hy & Hx & Hi).
  simpl in Ho, Hs, Hy, Hx, Hi.
  split; [apply handleCanvasClick_floatingTexts|].
  repeat (split; [first [reflexivity | assumption]|]).
  split.
  - rewrite Ho. apply opacity_exhausted.
  - rewrite ticks_app, ticks_newText. reflexivity.
Qed.

(** ** Reasoning about generator computations *)

Section TotalRules.
Variable draws : nat -> R.

Lemma total_ret {A : Type} (a : A) (P : A -> Prop) : P a -> total draws (ret a) P.
Proof. intros H n. exists a, n. split; [reflexivity|exact H]. Qed.

Lemma total_bind {A B : Type} (g : Gen A) (k : A -> Gen B) (Q : A -> Prop) (P : B -> Prop) :
  total draws g Q -> (forall a, Q a -> total draws (k a) P) -> total draws (bind g k) P.
Proof.
  intros Hg Hk n. destruct (Hg n) as (a & n1 & E & Ha).
  destruct (Hk a Ha n1) as (b & n2 & E2 & Hb).
  exists b, n2. unfold bind. rewrite E. split; assumption.
Qed.

Lemma total_weaken {A : Type} (g : Gen A) (P Q : A -> Prop) :
  total draws g P -> (forall a, P a -> Q a) -> total draws g Q.
Proof.
  intros Hg HPQ n. destruct (Hg n) as (a & n' & E & Ha).
  exists a, n'. split; [exact E|apply HPQ; exact Ha].
Qed.

Lemma total_random : valid_draws draws -> total draws Math_random (fun u => (0 <= u < 1)%R).
Proof. intros V n. exists (draws n), (S n). split; [reflexivity|apply V]. Qed.

Lemma total_defined {A : Type} (o : option A) (P : A -> Prop) :
  (exists a, o = Some a /\ P a) -> total draws (defined o) P.
Proof. intros (a & -> & Ha) n. exists a, n. split; [reflexivity|exact Ha]. Qed.

Lemma total_mapM {A B : Type} (f : A -> Gen B) (l : list A) (P : A -> B -> Prop) :
  (forall a, In a l -> total draws (f a) (P a)) ->
  total draws (mapM f l) (fun bs => Forall2 P l bs).
Proof.
  induction l as [|a l IH]; intros H.
  - apply total_ret. constructor.
  - simpl. apply total_bind with (Q := P a); [apply H; now left|].
    intros b Hb. apply total_bind with (Q := fun bs => Forall2 P l bs).
    + apply IH. intros a' Ha'. apply H. now right.
    + intros bs Hbs. apply total_ret. now constructor.
Qed.

Lemma total_replicateM {A : Type} (n : nat) (g : Gen A) (P : A -> Prop) :
  total draws g P ->
  total draws (replicateM n g) (fun l => List.length l = n /\ Forall P l).
Proof.
  intros Hg. unfold replicateM.
  apply total_weaken with (P := fun bs => Forall2 (fun _ b => P b) (seq 0 n) bs).
  - apply total_mapM. intros _ _. exact Hg.
  - intros bs H. split.
    + rewrite <- (Forall2_length H). apply length_seq.
    + clear Hg. induction H; constructor; assumption.
Qed.

End TotalRules.

Lemma Forall2_forget {A B : Type} (P : B -> Prop) (l : list A) (bs : list B) :
  Forall2 (fun _ b => P b) l bs -> List.length bs = List.length l /\ Forall P bs.
Proof.
  intros H. split; [symmetry; exact (Forall2_length H)|].
  induction H; constructor; assumption.
Qed.

(** ** Real arithmetic of the generator *)

Section RealFacts.
Local Open Scope R_scope.
Import RMath.

Lemma Math_floor_IZR (z : Z) : Math_floor (IZR z) = IZR z.
Proof. unfold Math_floor. now rewrite ZfloorZ. Qed.

Lemma Math_pow_integer (base : R) (z : Z) : Math_pow base (IZR z) = powerRZ base z.
Proof.
  unfold Math_pow. rewrite ZfloorZ.
  destruct (Req_dec_T (IZR z) (IZR z)) as [_|N]; [reflexivity|congruence].
Qed.

Lemma Math_pow_2 (base : R) : Math_pow base 2 = base * base.
Proof. rewrite Math_pow_integer. simpl. ring. Qed.

Lemma Math_pow_fraction (base e : R) :
  0 < base -> e <> IZR (Zfloor e) -> Math_pow base e = Rpower base e.
Proof.
  intros Hb He. unfold Math_pow.
  destruct (Req_dec_T e (IZR (Zfloor e))) as [E|_]; [congruence|].
  destruct (Rlt_dec 0 base) as [_|N]; [reflexivity|contradiction].
Qed.

(** A proper fraction is not an integer. *)
Lemma fraction_not_integer (e : R) : 0 < e < 1 -> e <> IZR (Zfloor e).
Proof.
  intros He. rewrite (Zfloor_eq 0 e) by (simpl; lra). simpl. lra.
Qed.

(** [Math.floor(s * c)] for a draw [s] and a positive integer [c] is one of
    [0 .. c-1]. *)
Lemma floor_scaled_draw (s : R) (c : Z) :
  0 <= s < 1 -> (0 < c)%Z ->
  exists z : Z, (0 <= z < c)%Z /\ Math_floor (s * IZR c) = IZR z.
Proof.
  intros Hs Hc. exists (Zfloor (s * IZR c)). split; [|reflexivity].
  assert (Hc' : 0 < IZR c) by (apply IZR_lt; exact Hc).
  destruct (Zfloor_bound (s * IZR c)) as [Hlo Hhi].
  assert (H0 : 0 <= s * IZR c) by (apply Rmult_le_pos; lra).
  assert (H1 : s * IZR c < IZR c) by nra.
  split.
  - apply Zfloor_lub. simpl. exact H0.
  - apply lt_IZR. lra.
Qed.

Lemma array_get_IZR {A : Type} (arr : list A) (z : Z) :
  (0 <= z)%Z -> array_get arr (IZR z) = nth_error arr (Z.to_nat z).
Proof.
  intros Hz. unfold array_get. rewrite ZfloorZ.
  destruct (Req_dec_T (IZR z) (IZR z)) as [_|N]; [|congruence].
  destruct (0 <=? z)%Z eqn:L; [reflexivity|]. apply Z.leb_gt in L. lia.
Qed.

Lemma loop_count_IZR (z : Z) : loop_count (IZR z) = Z.to_nat z.
Proof. unfold loop_count, Zceil. rewrite ZfloorNZ. f_equal. lia. Qed.

(** The halo population is an integer, at least 1500. *)
Lemma haloNumber_integer (frame : R) :
  exists z : Z, (1500 <= z)%Z /\ haloNumber frame = IZR z.
Proof.
  unfold haloNumber.
  set (c := Math_abs (curve (phase frame))).
  exists (Zfloor (1500 + 2000 * Math_pow c 2)). split; [|reflexivity].
  apply Zfloor_lub. rewrite Math_pow_2. nra.
Qed.

Lemma INR_loop_count_haloNumber (frame : R) :
  INR (loop_count (haloNumber frame)) = haloNumber frame.
Proof.
  destruct (haloNumber_integer frame) as (z & Hz & E).
  rewrite E, loop_count_IZR, INR_IZR_INZ, Z2Nat.id by lia. reflexivity.
Qed.

End RealFacts.

(** ** The generator: frames, populations and sizes *)

Section GeneratorTotal.
Local Open Scope R_scope.
Import RMath.

Variables width height : R.
Variable draws : nat -> R.
Hypothesis draws_valid : valid_draws draws.

Lemma scatterInside_total (x y beta : R) :
  total draws (scatterInside width height x y beta) (fun _ => True).
Proof.
  unfold scatterInside.
  apply total_bind with (Q := fun _ => True).
  { apply total_weaken with (1 := total_random draws draws_valid). trivial. }
  intros u _. apply total_bind with (Q := fun _ => True).
  { apply total_weaken with (1 := total_random draws draws_valid). trivial. }
  intros v _. now apply total_ret.
Qed.

Lemma calcPosition_total (x y r : R) :
  total draws (calcPosition width height x y r) (fun _ => True).
Proof.
  unfold calcPosition.
  apply total_bind with (Q := fun _ => True).
  { apply total_weaken with (1 := total_random draws draws_valid). trivial. }
  intros u _. apply total_bind with (Q := fun _ => True).
  { apply total_weaken with (1 := total_random draws draws_valid). trivial. }
  intros v _. now apply total_ret.
Qed.

Lemma basePoints_total :
  total draws (basePoints width height) (fun base => List.length base = 1000%nat).
Proof.
  unfold basePoints.
  apply total_weaken with (P := fun l => List.length l = 1000%nat /\ Forall (fun _ => True) l).
  - apply total_replicateM.
    apply total_bind with (Q := fun _ => True).
    { apply total_weaken with (1 := total_random draws draws_valid). trivial. }
    intros u _. now apply total_ret.
  - tauto.
Qed.

Lemma length_concat_groups {A B : Type} (l : list A) (groups : list (list B)) (k : nat) :
  Forall2 (fun _ g => List.length g = k) l groups ->
  List.length (List.concat groups) = (k * List.length l)%nat.
Proof.
  induction 1 as [|a g l groups Hg _ IH]; simpl; [lia|].
  rewrite length_app, IH, Hg. lia.
Qed.

Lemma edgeDiffusionPoints_total (base : list (R * R)) :
  total draws (edgeDiffusionPoints width height base)
        (fun edge => List.length edge = (3 * List.length base)%nat).
Proof.
  unfold edgeDiffusionPoints.
  apply total_bind with (Q := fun groups => Forall2 (fun _ g => List.length g = 3%nat) base groups).
  - apply total_mapM. intros b _.
    apply total_weaken with (P := fun l => List.length l = 3%nat /\ Forall (fun _ => True) l).
    + apply total_replicateM. apply scatterInside_total.
    + tauto.
  - intros groups H. apply total_ret. exact (length_concat_groups _ _ _ H).
Qed.

(** The random index into [basePoints] is always in range. *)
Lemma centerDiffusionPoints_total (base : list (R * R)) :
  List.length base <> 0%nat ->
  total draws (centerDiffusionPoints width height base)
        (fun center => List.length center = 5000%nat).
Proof.
  intros Hbase. unfold centerDiffusionPoints.
  apply total_weaken with (P := fun l => List.length l = 5000%nat /\ Forall (fun _ => True) l);
    [|tauto].
  apply total_replicateM.
  apply total_bind with (Q := fun u => 0 <= u < 1); [exact (total_random draws draws_valid)|].
  intros u Hu. apply total_bind with (Q := fun _ => True); [|intros b _; apply scatterInside_total].
  apply total_defined.
  rewrite INR_IZR_INZ.
  destruct (floor_scaled_draw u (Z.of_nat (List.length base)) Hu) as (z & Hz & E); [lia|].
  rewrite E, array_get_IZR by lia.
  destruct (nth_error base (Z.to_nat z)) as [b|] eqn:N.
  - exists b. split; [reflexivity|exact I].
  - apply nth_error_None in N. lia.
Qed.

Lemma haloPoint_total (r : R) :
  total draws (haloPoint width height r) (size_in [1; 2]).
Proof.
  unfold haloPoint.
  apply total_bind with (Q := fun _ => True).
  { apply total_weaken with (1 := total_random draws draws_valid). trivial. }
  intros u _.
  destruct (heartFunction width height (u * 2 * Math_PI)) as [hx hy].
  destruct (shrink width height hx hy r) as [sx sy].
  apply total_bind with (Q := fun _ => True).
  { apply total_weaken with (1 := total_random draws draws_valid). trivial. }
  intros jx _. apply total_bind with (Q := fun _ => True).
  { apply total_weaken with (1 := total_random draws draws_valid). trivial. }
  intros jy _. apply total_bind with (Q := fun _ => True).
  { apply total_weaken with (1 := total_random draws draws_valid). trivial. }
  intros s _. apply total_ret. unfold size_in. simpl.
  destruct (Rlt_dec s 0.66); tauto.
Qed.

Lemma projected_total_3 (r : R) (b : R * R) :
  total draws (projected width height r 3 b) (size_in [1; 2; 3]).
Proof.
  unfold projected.
  apply total_bind with (Q := fun _ => True); [apply calcPosition_total|].
  intros [px py] _.
  apply total_bind with (Q := fun s => 0 <= s < 1); [exact (total_random draws draws_valid)|].
  intros s Hs. apply total_ret. unfold size_in. simpl Point.size.
  destruct (floor_scaled_draw s 3 Hs) as (z & Hz & E); [lia|]. rewrite E.
  assert (C : z = 0%Z \/ z = 1%Z \/ z = 2%Z) by lia.
  destruct C as [->|[->| ->]]; simpl; intuition lra.
Qed.

Lemma projected_total_2 (r : R) (b : R * R) :
  total draws (projected width height r 2 b) (size_in [1; 2]).
Proof.
  unfold projected.
  apply total_bind with (Q := fun _ => True); [apply calcPosition_total|].
  intros [px py] _.
  apply total_bind with (Q := fun s => 0 <= s < 1); [exact (total_random draws draws_valid)|].
  intros s Hs. apply total_ret. unfold size_in. simpl Point.size.
  destruct (floor_scaled_draw s 2 Hs) as (z & Hz & E); [lia|]. rewrite E.
  assert (C : z = 0%Z \/ z = 1%Z) by lia.
  destruct C as [->| ->]; simpl; intuition lra.
Qed.

Lemma size_in_weaken (p : Point.t) : size_in [1; 2] p -> size_in [1; 2; 3] p.
Proof. unfold size_in. simpl. tauto. Qed.

(** One frame: the halo, then one point per base, edge and center point. *)
Lemma framePoints_total (base edge center : list (R * R)) (frame : nat) :
  total draws (framePoints width height base edge center frame)
        (fun f =>
           List.length f = (loop_count (haloNumber (INR frame)) + List.length base
                            + List.length edge + List.length center)%nat /\
           Forall (size_in [1; 2; 3]) f).
Proof.
  unfold framePoints.
  apply total_bind with
    (Q := fun l => List.length l = loop_count (haloNumber (INR frame))
                   /\ Forall (size_in [1; 2]) l).
  { apply total_replicateM. apply haloPoint_total. }
  intros halo [Lh Fh].
  apply total_bind with (Q := fun bs => Forall2 (fun _ => size_in [1; 2; 3]) base bs).
  { apply total_mapM. intros b _. apply projected_total_3. }
  intros bs Hbs. apply Forall2_forget in Hbs. destruct Hbs as [Lb Fb].
  apply total_bind with (Q := fun es => Forall2 (fun _ => size_in [1; 2]) edge es).
  { apply total_mapM. intros b _. apply projected_total_2. }
  intros es Hes. apply Forall2_forget in Hes. destruct Hes as [Le Fe].
  apply total_bind with (Q := fun cs => Forall2 (fun _ => size_in [1; 2]) center cs).
  { apply total_mapM. intros b _. apply projected_total_2. }
  intros cs Hcs. apply Forall2_forget in Hcs. destruct Hcs as [Lc Fc].
  apply total_ret. split.
  - rewrite !length_app. lia.
  - repeat (apply Forall_app; split); try assumption;
      eapply Forall_impl; try eassumption; apply size_in_weaken.
Qed.

(** The whole run: one frame per index [0 .. 19], each with the halo of its
    index and the 9000 projected points. *)
Lemma generatedFrames_total :
  total draws (generatedFrames width height)
        (fun frames =>
           Forall2 (fun frame f =>
                      List.length f
                      = (loop_count (haloNumber (INR frame)) + 1000 + 3000 + 5000)%nat /\
                      Forall (size_in [1; 2; 3]) f)
                   (seq 0 20) frames).
Proof.
  unfold generatedFrames.
  apply total_bind with (Q := fun base => List.length base = 1000%nat); [apply basePoints_total|].
  intros base Lb.
  apply total_bind with (Q := fun edge => List.length edge = 3000%nat).
  { apply total_weaken with (1 := edgeDiffusionPoints_total base). intros e He. lia. }
  intros edge Le.
  apply total_bind with (Q := fun center => List.length center = 5000%nat).
  { apply centerDiffusionPoints_total. lia. }
  intros center Lc.
  change (Z.to_nat GENERATE_FRAMES) with 20%nat.
  apply total_mapM. intros frame _.
  apply total_weaken with (1 := framePoints_total base edge center frame).
  intros f [Lf Ff]. split; [lia|exact Ff].
Qed.

End GeneratorTotal.

Lemma Forall2_seq_nth {B : Type} (P : nat -> B -> Prop) (n s : nat) (l : list B) :
  Forall2 P (seq s n) l ->
  forall i, (i < n)%nat -> exists b, nth_error l i = Some b /\ P (s + i)%nat b.
Proof.
  revert s l. induction n as [|n IH]; intros s l H i Hi; [lia|].
  simpl in H. inversion H as [|a b l1 l2 Hab Hrest]; subst.
  destruct i as [|i].
  - exists b. rewrite Nat.add_0_r. split; [reflexivity|exact Hab].
  - destruct (IH (S s) l2 Hrest i) as (b' & Hb & Pb); [lia|].
    exists b'. split; [exact Hb|]. now rewrite Nat.add_succ_r.
Qed.

(** C1.  For every canvas size (positive or not) and every sequence of
    values [Math.random] can return, one run of the generator completes and
    produces exactly 20 frames; every frame is non-empty and every point of
    it has size 1, 2 or 3. *)
Theorem generator_twenty_frames (width height : R) (draws : nat -> R) :
  valid_draws draws ->
  exists (frames : list Frame) (n : nat),
    generatedFrames width height draws 0%nat = Some (frames, n) /\
    List.length frames = Z.to_nat GENERATE_FRAMES /\
    Forall (fun f : Frame =>
              f <> [] /\
              Forall (fun p => Point.size p = 1%R \/ Point.size p = 2%R \/ Point.size p = 3%R) f)
           frames.
Proof.
  intros V.
  destruct (generatedFrames_total width height draws V 0%nat) as (frames & n & E & H).
  exists frames, n. split; [exact E|]. split.
  - pose proof (Forall2_length H) as L. rewrite length_seq in L. symmetry. exact L.
  - clear E. induction H as [|frame f l frames [Lf Ff] _ IH]; constructor; [|exact IH].
    split.
    + intros ->. simpl in Lf. lia.
    + eapply Forall_impl; [|exact Ff]. unfold size_in. simpl.
      intros p [S|[S|[S|[]]]]; rewrite <- S; tauto.
Qed.

(** C2.  For every canvas size and every sequence of random draws, frame
    number [frame] has [haloNumber(frame) + 1000 + 3000 + 5000] points, where
    [haloNumber(frame) = floor(1500 + 2000 |curve(p)|^2)], [p = frame/20 * pi]
    and [curve(p) = 2 (2 sin(4p)) / (2 pi)]: the count does not mention the
    draws. *)
Theorem frame_point_count (width height : R) (draws : nat -> R) :
  valid_draws draws ->
  exists (frames : list Frame) (n : nat),
    generatedFrames width height draws 0%nat = Some (frames, n) /\
    forall frame : nat, (frame < 20)%nat ->
      exists f : Frame,
        nth_error frames frame = Some f /\
        INR (List.length f) = (haloNumber (INR frame) + 1000 + 3000 + 5000)%R /\
        haloNumber (INR frame) =
        IZR (Zfloor (1500 + 2000 *
                     Rabs (2 * (2 * sin (4 * (INR frame / 20 * PI))) / (2 * PI)) ^ 2))%R.
Proof.
  intros V.
  destruct (generatedFrames_total width height draws V 0%nat) as (frames & n & E & H).
  exists frames, n. split; [exact E|].
  intros frame Hf.
  destruct (Forall2_seq_nth _ _ _ _ H frame Hf) as (f & Nf & Lf & _).
  exists f. split; [exact Nf|]. simpl in Lf. split.
  - rewrite Lf, !plus_INR, INR_loop_count_haloNumber.
    rewrite !INR_IZR_INZ. simpl. reflexivity.
  - unfold haloNumber, RMath.Math_floor. rewrite Math_pow_2. simpl pow.
    rewrite Rmult_1_r. reflexivity.
Qed.

(** ** The frame sequence the playback loop reads *)

Lemma mapM_length {A B : Type} (f : A -> Gen B) (l : list A) (draws : nat -> R)
    (n n' : nat) (bs : list B) :
  mapM f l draws n = Some (bs, n') -> List.length bs = List.length l.
Proof.
  revert n n' bs. induction l as [|a l IH]; intros n n' bs; simpl.
  - unfold ret. intros H. inversion H. reflexivity.
  - unfold bind at 1. destruct (f a draws n) as [[b n1]|]; [|discriminate].
    unfold bind at 1. destruct (mapM f l draws n1) as [[bs' n2]|] eqn:E; [|discriminate].
    unfold ret. intros H. inversion H. simpl. f_equal. exact (IH _ _ _ E).
Qed.

(** Whatever the draws, a run of the generator that completes has produced
    20 frames. *)
Lemma generatedFrames_length (width height : R) (draws : nat -> R) (n n' : nat)
    (frames : list Frame) :
  generatedFrames width height draws n = Some (frames, n') ->
  List.length frames = 20%nat.
Proof.
  unfold generatedFrames.
  unfold bind at 1. destruct (basePoints width height draws n) as [[base n1]|]; [|discriminate].
  unfold bind at 1.
  destruct (edgeDiffusionPoints width height base draws n1) as [[edge n2]|]; [|discriminate].
  unfold bind at 1.
  destruct (centerDiffusionPoints width height base draws n2) as [[center n3]|]; [|discriminate].
  intros H. apply mapM_length in H. rewrite H. apply length_seq.
Qed.




(** ** Distances and forces *)

Section Forces.
Local Open Scope R_scope.
Import RMath.

Variables width height : R.

Lemma distSq_squares (x y : R) :
  distSq width height x y =
  (x - centerX width) * (x - centerX width) + (y - centerY height) * (y - centerY height).
Proof. unfold distSq. now rewrite !Math_pow_2. Qed.

Lemma distSq_pos (x y : R) :
  (x, y) <> (centerX width, centerY height) -> 0 < distSq width height x y.
Proof.
  intros H. rewrite distSq_squares.
  destruct (Req_dec_T x (centerX width)) as [Ex|Nx].
  - destruct (Req_dec_T y (centerY height)) as [Ey|Ny]; [subst; congruence|].
    assert (0 < (y - centerY height) * (y - centerY height))
      by (apply Rsqr_pos_lt; intros E; apply Ny; lra).
    pose proof (Rle_0_sqr (x - centerX width)) as S. unfold Rsqr in S. lra.
  - assert (0 < (x - centerX width) * (x - centerX width))
      by (apply Rsqr_pos_lt; intros E; apply Nx; lra).
    pose proof (Rle_0_sqr (y - centerY height)) as S. unfold Rsqr in S. lra.
Qed.

Lemma distance_squared (x y : R) :
  distance width height x y * distance width height x y = distSq width height x y.
Proof.
  rewrite distSq_squares. unfold distance. apply sqrt_sqrt.
  pose proof (Rle_0_sqr (x - centerX width)) as Sx.
  pose proof (Rle_0_sqr (y - centerY height)) as Sy.
  unfold Rsqr in Sx, Sy. lra.
Qed.

Lemma distance_pos (x y : R) :
  (x, y) <> (centerX width, centerY height) -> 0 < distance width height x y.
Proof.
  intros H. unfold distance. apply sqrt_lt_R0.
  rewrite <- distSq_squares. now apply distSq_pos.
Qed.

Lemma Rpower_square (d e : R) : 0 < d -> Rpower (d * d) e = Rpower d (2 * e).
Proof.
  intros Hd. unfold Rpower. rewrite ln_mult by assumption. f_equal. ring.
Qed.

Lemma Rpower_pos (b e : R) : 0 < Rpower b e.
Proof. unfold Rpower. apply exp_pos. Qed.

Lemma Math_pow_distSq (x y e : R) :
  (x, y) <> (centerX width, centerY height) -> 0 < e < 1 ->
  Math_pow (distSq width height x y) e = Rpower (distance width height x y) (2 * e).
Proof.
  intros H He.
  rewrite Math_pow_fraction by (auto using distSq_pos, fraction_not_integer).
  rewrite <- distance_squared. apply Rpower_square. now apply distance_pos.
Qed.

(** The force of [calcPosition] is the inverse of the distance to the power
    [0.84]. *)
Lemma calcPosition_force_distance (x y : R) :
  (x, y) <> (centerX width, centerY height) ->
  calcPosition_force width height x y = 1 / Rpower (distance width height x y) 0.84.
Proof.
  intros H. unfold calcPosition_force. rewrite Math_pow_distSq by (auto; lra).
  do 2 f_equal. lra.
Qed.

(** The force of [shrink] is minus the inverse of the distance to the power
    [1.2]. *)
Lemma shrink_force_distance (x y : R) :
  (x, y) <> (centerX width, centerY height) ->
  shrink_force width height x y = - 1 / Rpower (distance width height x y) 1.2.
Proof.
  intros H. unfold shrink_force. rewrite Math_pow_distSq by (auto; lra).
  do 2 f_equal. lra.
Qed.

Lemma spec_calcPosition_force_distance (x y : R) :
  (x, y) <> (centerX width, centerY height) ->
  spec_calcPosition_force width height x y = 1 / Rpower (distance width height x y) 0.42.
Proof.
  intros H. unfold spec_calcPosition_force.
  rewrite Math_pow_fraction; auto using distance_pos, fraction_not_integer.
  apply fraction_not_integer. lra.
Qed.

Lemma spec_shrink_force_distance (x y : R) :
  (x, y) <> (centerX width, centerY height) ->
  spec_shrink_force width height x y = - 1 / Rpower (distance width height x y) 0.6.
Proof.
  intros H. unfold spec_shrink_force.
  rewrite Math_pow_fraction; auto using distance_pos, fraction_not_integer.
  apply fraction_not_integer. lra.
Qed.

(** Beyond distance 1 the two readings of each force differ. *)
Lemma inverse_powers_differ (d a b : R) :
  1 < d -> a < b -> 1 / Rpower d b < 1 / Rpower d a.
Proof.
  intros Hd Hab. pose proof (Rpower_lt d a b Hd Hab) as L.
  pose proof (Rpower_pos d a) as Pa.
  unfold Rdiv. rewrite !Rmult_1_l. apply Rinv_lt_contravar; [|exact L].
  apply Rmult_lt_0_compat; [exact Pa|lra].
Qed.

(** [shrink] multiplies the offset from the center by [1 + ratio / d^1.2]. *)
Lemma shrink_offset (x y r : R) :
  (x, y) <> (centerX width, centerY height) ->
  let k := 1 + r / Rpower (distance width height x y) 1.2 in
  fst (shrink width height x y r) - (centerX width) = k * (x - centerX width) /\
  snd (shrink width height x y r) - (centerY height) = k * (y - centerY height).
Proof.
  intros H k. unfold shrink. simpl. rewrite shrink_force_distance by assumption.
  unfold k. pose proof (Rpower_pos (distance width height x y) 1.2).
  split; field; lra.
Qed.

(** So for a non-negative ratio the point moves away from the center, by
    [ratio / d^0.2]. *)
Lemma shrink_distance (x y r : R) :
  (x, y) <> (centerX width, centerY height) -> 0 <= r ->
  distance width height (fst (shrink width height x y r)) (snd (shrink width height x y r)) =
  (1 + r / Rpower (distance width height x y) 1.2) * distance width height x y.
Proof.
  intros H Hr. destruct (shrink_offset x y r H) as [Ex Ey].
  set (k := 1 + r / Rpower (distance width height x y) 1.2) in *.
  assert (Hk : 0 <= k).
  { unfold k. pose proof (Rpower_pos (distance width height x y) 1.2) as P.
    assert (0 <= r / Rpower (distance width height x y) 1.2).
    { apply Rmult_le_pos; [exact Hr|]. left. now apply Rinv_0_lt_compat. }
    lra. }
  unfold distance at 1. rewrite Ex, Ey.
  replace (k * (x - centerX width) * (k * (x - centerX width))
           + k * (y - centerY height) * (k * (y - centerY height)))
    with ((k * k) * ((x - centerX width) * (x - centerX width)
                     + (y - centerY height) * (y - centerY height))) by ring.
  rewrite sqrt_mult.
  - rewrite sqrt_square by exact Hk. reflexivity.
  - apply Rmult_le_pos; exact Hk.
  - pose proof (Rle_0_sqr (x - centerX width)) as Sx.
    pose proof (Rle_0_sqr (y - centerY height)) as Sy.
    unfold Rsqr in Sx, Sy. lra.
Qed.

End Forces.

(** ** The heart curve and the per-frame quantities *)

Section Curve.
Local Open Scope R_scope.
Import RMath.

(** The sample at [t = 0] is 88 pixels above the center (for 840 x 680:
    [(420, 252)]). *)
Lemma heartFunction_0 (width height : R) :
  heartFunction width height 0 = (centerX width, centerY height - 88).
Proof.
  unfold heartFunction, Math_sin, Math_cos. rewrite Math_pow_integer.
  rewrite !Rmult_0_r, sin_0, cos_0. unfold IMAGE_ENLARGE. simpl. f_equal; lra.
Qed.

(** The heart curve does not pass through the canvas center. *)
Lemma heartFunction_off_center (width height t : R) :
  heartFunction width height t <> (centerX width, centerY height).
Proof.
  unfold heartFunction, Math_sin, Math_cos, IMAGE_ENLARGE. rewrite Math_pow_integer. simpl.
  intros E. injection E as Ex Ey.
  assert (S3 : sin t * (sin t * (sin t * 1)) = 0) by lra.
  assert (S : sin t = 0).
  { destruct (Rmult_integral _ _ S3) as [Z|Z]; [exact Z|].
    destruct (Rmult_integral _ _ Z) as [Z'|Z']; [exact Z'|lra]. }
  pose proof (sin2_cos2 t) as P. unfold Rsqr in P. rewrite S in P.
  assert (C2 : cos (2 * t) = 1) by (rewrite cos_2a, S; lra).
  assert (C3 : cos (3 * t) = cos t).
  { replace (3 * t) with (2 * t + t) by ring.
    rewrite cos_plus, C2, S. ring. }
  rewrite C2, C3 in Ey.
  assert (C : cos t = 5 / 13) by lra.
  rewrite C in P. lra.
Qed.

Lemma curve_bounds (p : R) : - (2 / 3) < curve p < 2 / 3.
Proof.
  unfold curve, Math_sin, Math_PI.
  pose proof (SIN_bound (4 * p)) as [Lo Hi].
  pose proof PI2_3_2 as P.
  assert (P3 : 3 < PI) by lra.
  replace (2 * (2 * sin (4 * p)) / (2 * PI)) with (2 * sin (4 * p) / PI) by (field; lra).
  split.
  - apply Rmult_lt_reg_r with PI; [lra|].
    unfold Rdiv at 2. rewrite Rmult_assoc, Rinv_l by lra. nra.
  - apply Rmult_lt_reg_r with PI; [lra|].
    unfold Rdiv at 1. rewrite Rmult_assoc, Rinv_l by lra. nra.
Qed.

(** The halo radius of every frame is positive. *)
Lemma haloRadius_pos (frame : R) : 0 < haloRadius frame.
Proof. unfold haloRadius. pose proof (curve_bounds (phase frame)). lra. Qed.

(** The displacement ratio of frame 1 is positive. *)
Lemma ratio_1_pos : 0 < ratio 1.
Proof.
  unfold ratio, curve, phase, Math_sin, Math_PI, GENERATE_FRAMES.
  pose proof PI_RGT_0 as P.
  assert (S : 0 < sin (4 * (1 / 20 * PI))) by (apply sin_gt_0; lra).
  apply Rmult_lt_0_compat; [lra|].
  apply Rmult_lt_0_compat; [lra|]. apply Rinv_0_lt_compat. lra.
Qed.

End Curve.

(** ** The per-frame projection [calcPosition] *)

Section Projection.
Local Open Scope R_scope.
Import RMath.

Lemma calcPosition_draws (width height x y r : R) (draws : nat -> R) (n : nat) :
  calcPosition width height x y r draws n =
  let force := calcPosition_force width height x y in
  Some ((x - (r * force * (x - centerX width) + (draws n * 2 - 1)),
         y - (r * force * (y - centerY height) + (draws (S n) * 2 - 1))),
        S (S n)).
Proof. reflexivity. Qed.

Lemma spec_calcPosition_draws (width height x y r : R) (draws : nat -> R) (n : nat) :
  spec_calcPosition width height x y r draws n =
  let force := spec_calcPosition_force width height x y in
  Some ((x - (r * force * (x - centerX width) + (draws n * 2 - 1)),
         y - (r * force * (y - centerY height) + (draws (S n) * 2 - 1))),
        S (S n)).
Proof. reflexivity. Qed.

(** The sample of the heart curve at [t = 0], for the 840 x 680 canvas. *)
Lemma sample_0_off_center : (420, 252) <> (centerX 840, centerY 680).
Proof. unfold centerX, centerY. intros E. injection E as _ E. lra. Qed.

Lemma sample_0_distance : distance 840 680 420 252 = 88.
Proof.
  unfold distance, centerX, centerY.
  replace ((420 - 840 / 2) * (420 - 840 / 2) + (252 - 680 / 2) * (252 - 680 / 2))
    with (88 * 88) by lra.
  apply sqrt_square. lra.
Qed.

(** C5, as stated, fails.  For the 840 x 680 canvas, the base point
    [(420, 252)] (the heart curve at [t = 0]), the ratio of frame 1 and all
    draws 0, [calcPosition] does not return what the specification's
    formula [force = 1 / distance^0.42] gives. *)
Lemma calcPosition_force_counterexample :
  heartFunction 840 680 0 = (420, 252) /\
  calcPosition 840 680 420 252 (ratio 1) (fun _ => 0) 0%nat <>
  spec_calcPosition 840 680 420 252 (ratio 1) (fun _ => 0) 0%nat.
Proof.
  split.
  { rewrite heartFunction_0. unfold centerX, centerY. f_equal; lra. }
  rewrite calcPosition_draws, spec_calcPosition_draws. cbv zeta.
  rewrite (calcPosition_force_distance _ _ _ _ sample_0_off_center).
  rewrite (spec_calcPosition_force_distance _ _ _ _ sample_0_off_center).
  rewrite sample_0_distance.
  pose proof (inverse_powers_differ 88 0.42 0.84) as L.
  pose proof ratio_1_pos as P.
  intros E. injection E as _ Ey. unfold centerY in Ey.
  assert (M : ratio 1 * (1 / Rpower 88 0.84) < ratio 1 * (1 / Rpower 88 0.42)).
  { apply Rmult_lt_compat_l; [exact P|]. apply L; lra. }
  lra.
Qed.

(** C5, amended.  For every point other than the canvas center and every
    ratio, [calcPosition] computes [force = 1 / (d^2)^0.42 = 1 / d^0.84],
    where [d] is the distance of the point from the center, and returns the
    point minus [ratio * force * (point - center)] plus a noise term, one
    fresh draw per axis, each noise lying in [[-1, 1)]. *)
Theorem calcPosition_projection (width height x y r : R) (draws : nat -> R) (n : nat) :
  valid_draws draws ->
  (x, y) <> (centerX width, centerY height) ->
  let d := distance width height x y in
  let force := 1 / Rpower d 0.84 in
  let noiseX := draws n * 2 - 1 in
  let noiseY := draws (S n) * 2 - 1 in
  0 < d /\
  calcPosition_force width height x y = force /\
  force = 1 / Rpower (d * d) 0.42 /\
  calcPosition width height x y r draws n =
  Some ((x - (r * force * (x - centerX width) + noiseX),
         y - (r * force * (y - centerY height) + noiseY)), S (S n)) /\
  -1 <= noiseX < 1 /\ -1 <= noiseY < 1.
Proof.
  intros V H d force noiseX noiseY.
  pose proof (distance_pos width height x y H) as Hd.
  pose proof (calcPosition_force_distance width height x y H) as F.
  split; [exact Hd|]. split; [exact F|]. split.
  { unfold force. rewrite Rpower_square by exact Hd. do 2 f_equal. lra. }
  split.
  { rewrite calcPosition_draws. cbv zeta. rewrite F. reflexivity. }
  pose proof (V n). pose proof (V (S n)). unfold noiseX, noiseY. lra.
Qed.

End Projection.

(** ** The halo *)

Section Halo.
Local Open Scope R_scope.
Import RMath.

Lemma haloPoint_draws (width height r : R) (draws : nat -> R) (n : nat) :
  haloPoint width height r draws n =
  let hp := heartFunction width height (draws n * 2 * Math_PI) in
  let s := shrink width height (fst hp) (snd hp) r in
  Some (Point.mk (fst s + (draws (S n) * 120 - 60))
                 (snd s + (draws (S (S n)) * 120 - 60))
                 (if Rlt_dec (draws (S (S (S n)))) 0.66 then 1 else 2),
        S (S (S (S n)))).
Proof.
  unfold haloPoint, bind, Math_random.
  destruct (heartFunction width height (draws n * 2 * Math_PI)) as [hx hy].
  reflexivity.
Qed.

Lemma spec_haloPoint_draws (width height r : R) (draws : nat -> R) (n : nat) :
  spec_haloPoint width height r draws n =
  let hp := heartFunction width height (draws n * 2 * Math_PI) in
  let s := spec_shrink width height (fst hp) (snd hp) r in
  Some (Point.mk (fst s + (draws (S n) * 120 - 60))
                 (snd s + (draws (S (S n)) * 120 - 60))
                 (if Rlt_dec (draws (S (S (S n)))) 0.66 then 1 else 2),
        S (S (S (S n)))).
Proof.
  unfold spec_haloPoint, bind, Math_random.
  destruct (heartFunction width height (draws n * 2 * Math_PI)) as [hx hy].
  reflexivity.
Qed.

(** C6, as stated, fails.  For the 840 x 680 canvas, frame 0 and all draws
    0, the halo sample is the heart curve at [t = 0], [(420, 252)]; the halo
    point the code builds from it is not the one the specification's
    [force = -1 / distance^0.6] gives, and [shrink] moves the sample away
    from the canvas center, not toward it. *)
Lemma haloPoint_shrink_counterexample :
  heartFunction 840 680 (0 * 2 * Math_PI) = (420, 252) /\
  haloPoint 840 680 (haloRadius 0) (fun _ => 0) 0%nat <>
  spec_haloPoint 840 680 (haloRadius 0) (fun _ => 0) 0%nat /\
  distance 840 680 420 252 <
  distance 840 680 (fst (shrink 840 680 420 252 (haloRadius 0)))
                   (snd (shrink 840 680 420 252 (haloRadius 0))).
Proof.
  assert (H0 : heartFunction 840 680 (0 * 2 * Math_PI) = (420, 252)).
  { replace (0 * 2 * Math_PI) with 0 by ring.
    rewrite heartFunction_0. unfold centerX, centerY. f_equal; lra. }
  pose proof (haloRadius_pos 0) as P.
  pose proof (Rpower_pos 88 1.2) as P12.
  pose proof (Rpower_pos 88 0.6) as P06.
  split; [exact H0|]. split.
  - rewrite haloPoint_draws, spec_haloPoint_draws. cbv zeta. rewrite H0.
    unfold shrink, spec_shrink. simpl fst. simpl snd.
    rewrite (shrink_force_distance _ _ _ _ sample_0_off_center).
    rewrite (spec_shrink_force_distance _ _ _ _ sample_0_off_center).
    rewrite sample_0_distance.
    pose proof (inverse_powers_differ 88 0.6 1.2) as L.
    intros E. injection E as _ Ey. unfold centerY in Ey.
    assert (M : haloRadius 0 * (1 / Rpower 88 1.2) < haloRadius 0 * (1 / Rpower 88 0.6)).
    { apply Rmult_lt_compat_l; [exact P|]. apply L; lra. }
    unfold Rdiv in Ey, M. lra.
  - rewrite (shrink_distance _ _ _ _ _ sample_0_off_center) by lra.
    rewrite sample_0_distance.
    assert (0 < haloRadius 0 / Rpower 88 1.2).
    { apply Rmult_lt_0_compat; [exact P|]. now apply Rinv_0_lt_compat. }
    nra.
Qed.

(** One iteration of the halo loop, started at draw number [n]: the heart
    curve sampled at the first draw; [shrink] with the frame's halo radius,
    whose force is [-1 / (d^2)^0.6 = -1 / d^1.2] for the sample's distance
    [d > 0] from the center and which moves the sample away from the
    center; a jitter from the second and third draws; the size from the
    fourth. *)
Lemma haloPoint_built (width height frame : R) (draws : nat -> R) (n : nat) :
  valid_draws draws ->
  let hp := heartFunction width height (draws n * 2 * PI) in
  let d := distance width height (fst hp) (snd hp) in
  let force := - 1 / Rpower d 1.2 in
  let sx := fst hp - haloRadius frame * force * (fst hp - centerX width) in
  let sy := snd hp - haloRadius frame * force * (snd hp - centerY height) in
  let jx := draws (S n) * 120 - 60 in
  let jy := draws (S (S n)) * 120 - 60 in
  0 < d /\ 0 < haloRadius frame /\
  shrink_force width height (fst hp) (snd hp) = force /\
  force = - 1 / Rpower (d * d) 0.6 /\
  haloPoint width height (haloRadius frame) draws n =
  Some (Point.mk (sx + jx) (sy + jy)
                 (if Rlt_dec (draws (S (S (S n)))) 0.66 then 1 else 2),
        S (S (S (S n)))) /\
  distance width height sx sy = (1 + haloRadius frame / Rpower d 1.2) * d /\
  d < distance width height sx sy /\
  -60 <= jx < 60 /\ -60 <= jy < 60.
Proof.
  intros V hp d force sx sy jx jy.
  assert (H : (fst hp, snd hp) <> (centerX width, centerY height)).
  { rewrite <- surjective_pairing. apply heartFunction_off_center. }
  assert (E : haloPoint width height (haloRadius frame) draws n =
              Some (Point.mk (fst (shrink width height (fst hp) (snd hp) (haloRadius frame)) + jx)
                             (snd (shrink width height (fst hp) (snd hp) (haloRadius frame)) + jy)
                             (if Rlt_dec (draws (S (S (S n)))) 0.66 then 1 else 2),
                    S (S (S (S n))))).
  { rewrite haloPoint_draws. reflexivity. }
  clearbody hp.
  pose proof (distance_pos width height _ _ H) as Hd.
  pose proof (haloRadius_pos frame) as Hr.
  pose proof (shrink_force_distance width height _ _ H) as F.
  pose proof (Rpower_pos d 1.2) as P12.
  assert (D : distance width height sx sy = (1 + haloRadius frame / Rpower d 1.2) * d).
  { pose proof (shrink_distance width height _ _ (haloRadius frame) H) as S.
    unfold shrink in S. simpl fst in S. simpl snd in S. rewrite F in S.
    apply S. lra. }
  split; [exact Hd|]. split; [exact Hr|]. split; [exact F|]. split.
  { unfold force. rewrite Rpower_square by exact Hd. do 2 f_equal. lra. }
  split.
  { rewrite E. unfold shrink. simpl fst. simpl snd. rewrite F. reflexivity. }
  split; [exact D|]. split.
  { rewrite D.
    assert (0 < haloRadius frame / Rpower d 1.2).
    { apply Rmult_lt_0_compat; [exact Hr|]. now apply Rinv_0_lt_compat. }
    fold d in Hd. nra. }
  pose proof (V (S n)). pose proof (V (S (S n))). unfold jx, jy. lra.
Qed.

End Halo.

(** ** Concrete runs *)

Lemma halves_valid : valid_draws halves.
Proof. intros n. unfold halves. lra. Defined.

Lemma zeros_valid : valid_draws zeros.
Proof. intros n. unfold zeros. lra. Defined.

(** One second after the start the loop shows frame 3, whatever else the
    state holds. *)
Example frame_at_one_second :
  JS.rem (frameIndex 1000) 20 = 3 /\
  currentFramePoints 1000 (framesRef sampleState) = nth_error sampleFrames 3 /\
  currentFramePoints 1000 (framesRef otherState) = nth_error sampleFrames 3.
Proof. repeat split; reflexivity. Qed.

(** A negative timestamp would index the frames below zero: the guard on the
    timestamp in C9 is needed. *)
Example frame_before_start :
  JS.rem (frameIndex (-100)) 20 = -3 /\ render (-100) sampleState = None.
Proof. split; reflexivity. Qed.

(** Ticks every half second from a timer at zero: the trigger fires at 1s
    and 2s, not at 1.5s or 2.857s, and again at 2.858s. *)
Example triggers_half_seconds :
  triggers [Tick 500; Tick 1000; Tick 1500; Tick 2000; Tick 2857; Tick 2858] sampleState
  = [1000 / 1000; 2000 / 1000; 2858 / 1000].
Proof. reflexivity. Qed.

(** A text is still in the list after 99 updates and gone after 100. *)
Example text_gone_after_100 :
  List.length (ticks 99 [newText 0 100 200]) = 1%nat /\ ticks 100 [newText 0 100 200] = [].
Proof. split; vm_compute; reflexivity. Qed.

(** ** Witnesses *)

Lemma generator_twenty_frames_witness :
  valid_draws halves /\
  exists (frames : list Frame) (n : nat),
    generatedFrames 840 680 halves 0%nat = Some (frames, n) /\
    List.length frames = Z.to_nat GENERATE_FRAMES /\
    Forall (fun f : Frame =>
              f <> [] /\
              Forall (fun p => Point.size p = 1%R \/ Point.size p = 2%R \/ Point.size p = 3%R) f)
           frames.
Proof.
  split; [exact halves_valid|].
  exact (generator_twenty_frames 840 680 halves halves_valid).
Defined.

Lemma frame_point_count_witness :
  valid_draws zeros /\
  exists (frames : list Frame) (n : nat),
    generatedFrames 840 680 zeros 0%nat = Some (frames, n) /\
    forall frame : nat, (frame < 20)%nat ->
      exists f : Frame,
        nth_error frames frame = Some f /\
        INR (List.length f) = (haloNumber (INR frame) + 1000 + 3000 + 5000)%R /\
        haloNumber (INR frame) =
        IZR (Zfloor (1500 + 2000 *
                     Rabs (2 * (2 * sin (4 * (INR frame / 20 * PI))) / (2 * PI)) ^ 2))%R.
Proof.
  split; [exact zeros_valid|].
  exact (frame_point_count 840 680 zeros zeros_valid).
Defined.

Lemma calcPosition_projection_witness :
  valid_draws zeros /\
  (420, 252)%R <> (centerX 840, centerY 680) /\
  (0 < distance 840 680 420 252 /\
   calcPosition_force 840 680 420 252 = 1 / Rpower (distance 840 680 420 252) 0.84 /\
   1 / Rpower (distance 840 680 420 252) 0.84 =
   1 / Rpower (distance 840 680 420 252 * distance 840 680 420 252) 0.42 /\
   calcPosition 840 680 420 252 15 zeros 0%nat =
   Some ((420 - (15 * (1 / Rpower (distance 840 680 420 252) 0.84) * (420 - centerX 840)
                 + (zeros 0%nat * 2 - 1)),
          252 - (15 * (1 / Rpower (distance 840 680 420 252) 0.84) * (252 - centerY 680)
                 + (zeros 1%nat * 2 - 1))), 2%nat) /\
   -1 <= zeros 0%nat * 2 - 1 < 1 /\ -1 <= zeros 1%nat * 2 - 1 < 1)%R.
Proof.
  split; [exact zeros_valid|]. split; [exact sample_0_off_center|].
  exact (calcPosition_projection 840 680 420 252 15 zeros 0%nat zeros_valid sample_0_off_center).
Defined.

Lemma playHeartbeatSound_noop_witness :
  (Some (mkAudioContext suspended 3) = None \/
   exists c, Some (mkAudioContext suspended 3) = Some c /\ state c <> running) /\
  playHeartbeatSound (Some (mkAudioContext suspended 3)) = [].
Proof.
  assert (H : Some (mkAudioContext suspended 3) = None \/
              exists c, Some (mkAudioContext suspended 3) = Some c /\ state c <> running).
  { right. exists (mkAudioContext suspended 3). split; [reflexivity|discriminate]. }
  split; [exact H|].
  exact (proj1 (playHeartbeatSound_noop (Some (mkAudioContext suspended 3)) H)).
Defined.


Lemma floatingTexts_positive_opacity_witness :
  framesRef sampleState <> [] /\
  exists (st' : State) (fx : list Effect),
    render 1000 sampleState = Some (st', fx) /\
    floatingTexts st' = filter visible (map decay (floatingTexts sampleState)) /\
    Forall (fun t => 0 < FloatingText.opacity t) (floatingTexts st').
Proof.
  assert (H : framesRef sampleState <> []) by discriminate.
  split; [exact H|].
  eexists. eexists.
  assert (R : render 1000 sampleState = Some (_, _)) by reflexivity.
  split; [exact R|].
  destruct (floatingTexts_positive_opacity 1000 sampleState _ _ H R) as (E & F & _).
  split; [exact E|exact F].
Defined.

Lemma floatingText_decay_witness :
  floatingTexts (fst (handleCanvasClick (mkAudioContext running 0) 7 100 200 initialState))
  = [newText 7 100 200] /\
  FloatingText.opacity (Nat.iter 100 decay (newText 7 100 200)) == 0 /\
  FloatingText.y (Nat.iter 100 decay (newText 7 100 200)) == 100 /\
  ticks 100 [newText 7 100 200] = [].
Proof.
  destruct (floatingText_decay (mkAudioContext running 0) 7 100 200 initialState 100)
    as (C & _ & _ & O & _ & Y & _ & _ & _ & T).
  split; [exact C|]. split; [rewrite O; reflexivity|]. split; [rewrite Y; reflexivity|].
  exact T.
Defined.

(** ** The opacity threshold in binary64

    In doubles the decayed opacities are not the rationals [1 - 0.01 k]:
    each subtraction rounds.  The comparison [opacity > 0] still changes at
    the same tick: the 99th value is positive and the 100th is below zero
    (about [-7.5e-16]), so the entry is dropped at [k = 100] there too. *)

Lemma binary64_opacity_threshold :
  forallb (fun k => Binary64.visible (Binary64.opacity_after k)) (seq 0 100) = true /\
  Binary64.visible (Binary64.opacity_after 100) = false /\
  Binary64.opacity_after 100 = Binary64.below_zero.
Proof. repeat split; vm_compute; reflexivity. Qed.

(** * Further properties *)

(** ** The heartbeat sound *)

(** X1.  With a running context, whatever the audio clock reads: every
    scheduled time lies within a quarter of a second from now, every
    exponential ramp has a positive target, each oscillator is started once
    and stopped once, the second starting when the first stops; the whole
    sound is shorter than one beat. *)
Theorem playHeartbeatSound_schedule (now : Q) :
  let calls := playHeartbeatSound (Some (mkAudioContext running now)) in
  Forall (fun c => Forall (fun t => now <= t /\ t <= now + 0.25) (call_times c)) calls /\
  Forall (fun c => Forall (fun v => 0 < v) (exponential_targets c)) calls /\
  starts_of osc1 calls = [now] /\
  stops_of osc1 calls = [now + 0.15] /\
  starts_of osc2 calls = stops_of osc1 calls /\
  (exists t, stops_of osc2 calls = [t] /\ t == now + 0.25) /\
  0.25 < BEAT_INTERVAL.
Proof.
  cbv zeta. simpl playHeartbeatSound.
  split; [repeat (constructor; simpl); qlra|].
  split; [repeat (constructor; simpl); reflexivity|].
  repeat (split; [reflexivity|]).
  split; [|reflexivity].
  eexists. split; [reflexivity|]. qlra.
Qed.

(** ** Clicks and the audio context *)

(** X2.  A click never replaces an existing audio context: it installs the
    fresh one only when there was none, asks a suspended one to resume and
    makes no other audio call; it leaves the frames, the last-beat timer and
    the dimensions alone and adds exactly one text. *)
Theorem handleCanvasClick_audio (fresh : AudioContext) (now : Z) (cx cy : Q) (st : State) :
  let st' := fst (handleCanvasClick fresh now cx cy st) in
  let fx := snd (handleCanvasClick fresh now cx cy st) in
  (forall c, audioContextRef st = Some c -> audioContextRef st' = Some c) /\
  (audioContextRef st = None -> audioContextRef st' = Some fresh) /\
  (fx = [audio resume] <-> exists c, audioContextRef st = Some c /\ state c = suspended) /\
  (fx = [] \/ fx = [audio resume]) /\
  framesRef st' = framesRef st /\
  lastBeatTimeRef st' = lastBeatTimeRef st /\
  dimensions st' = dimensions st /\
  List.length (floatingTexts st') = S (List.length (floatingTexts st)).
Proof.
  unfold handleCanvasClick, initAudio.
  destruct (audioContextRef st) as [c|] eqn:A; [destruct (state c) eqn:S|]; simpl;
    rewrite ?A, ?length_app; simpl;
    (split; [intros c' E; congruence|]);
    (split; [intros E; congruence|]);
    (split; [split; [intros E; try discriminate E; eauto
                    |intros (c' & E & S'); congruence]|]);
    (split; [tauto|]); repeat split; try reflexivity; lia.
Qed.

Lemma step_audio_started (e : Event) (st st' : State) (fx : list Effect) :
  step e st = Some (st', fx) ->
  (isAudioStarted st = true <-> audioContextRef st <> None) ->
  (isAudioStarted st' = true <-> audioContextRef st' <> None) /\
  (isAudioStarted st' = true <-> isAudioStarted st = true \/ is_click e = true).
Proof.
  destruct e as [time|fresh now cx cy|w h d|ctx]; unfold step.
  - unfold render. destruct (List.length (framesRef st) =? 0)%nat.
    + intros H I. inversion H. subst. simpl. intuition discriminate.
    + destruct (currentFramePoints time (framesRef st)); [|discriminate].
      intros H I. inversion H. simpl. intuition discriminate.
  - unfold handleCanvasClick, initAudio.
    destruct (audioContextRef st) as [c|] eqn:A; [destruct (state c)|];
      intros H I; inversion H; simpl; rewrite ?A; intuition congruence.
  - destruct (generatedFrames w h d 0%nat) as [[frames n]|]; [|discriminate].
    intros H I. inversion H. simpl. intuition discriminate.
  - destruct (audioContextRef st) eqn:A; intros H I; inversion H; subst; simpl;
      rewrite ?A; intuition congruence.
Qed.

(** X3.  In every state the component reaches, [isAudioStarted] (which
    hides the "Click to enable sound" hint) is true exactly when an audio
    context exists, and exactly when the run contained a click. *)
Theorem audio_started_iff_clicked (events : list Event) (st : State) (fx : list Effect) :
  run events initialState = Some (st, fx) ->
  (isAudioStarted st = true <-> audioContextRef st <> None) /\
  (isAudioStarted st = true <-> existsb is_click events = true).
Proof.
  assert (G : forall events st0 st fx,
             run events st0 = Some (st, fx) ->
             (isAudioStarted st0 = true <-> audioContextRef st0 <> None) ->
             (isAudioStarted st = true <-> audioContextRef st <> None) /\
             (isAudioStarted st = true <->
              isAudioStarted st0 = true \/ existsb is_click events = true)).
  { clear. induction events as [|e events IH]; intros st0 st fx; cbn [run].
    - intros H I. inversion H. subst. simpl. intuition discriminate.
    - destruct (step e st0) as [[st1 fx1]|] eqn:S; [|discriminate].
      destruct (run events st1) as [[st2 fx2]|] eqn:R; [|discriminate].
      intros H I. inversion H. subst.
      destruct (step_audio_started _ _ _ _ S I) as [I1 J1].
      destruct (IH _ _ _ R I1) as [I2 J2].
      split; [exact I2|]. cbn [existsb]. rewrite orb_true_iff. tauto. }
  intros H. destruct (G events initialState st fx H) as [I J].
  - simpl. intuition discriminate.
  - split; [exact I|]. rewrite J. simpl. intuition discriminate.
Qed.

(** ** The last-beat timer *)





(** ** What a tick leaves alone *)

Lemma render_framesRef (time : Q) (st st' : State) (fx : list Effect) :
  render time st = Some (st', fx) ->
  framesRef st' = framesRef st /\ dimensions st' = dimensions st /\
  audioContextRef st' = audioContextRef st /\ isAudioStarted st' = isAudioStarted st.
Proof.
  unfold render. destruct (List.length (framesRef st) =? 0)%nat.
  - intros H. inversion H. subst. tauto.
  - destruct (currentFramePoints time (framesRef st)); [|discriminate].
    intros H. inversion H. simpl. tauto.
Qed.


(** ** The frame shown as a function of the beat phase *)

Lemma beat_interval_value : BEAT_INTERVAL == 6 # 7.
Proof. reflexivity. Qed.












(** ** Every tick reschedules *)






(** ** The overlay of floating texts *)

Lemma newText_fading (now : Z) (cx cy : Q) : fading (newText now cx cy).
Proof. unfold fading. simpl. repeat split; try reflexivity; discriminate. Qed.

Lemma updateFloatingTexts_fading (l : list FloatingText.t) :
  Forall fading l -> Forall fading (updateFloatingTexts l).
Proof.
  intros H. unfold updateFloatingTexts. apply Forall_forall. intros t' Ht'.
  apply filter_In in Ht'. destruct Ht' as [Hin Hv].
  apply in_map_iff in Hin. destruct Hin as (t & <- & Hin).
  rewrite Forall_forall in H. destruct (H t Hin) as (P & L1 & S).
  apply visible_iff in Hv. unfold fading. simpl in *.
  repeat split; [exact Hv|qlra|rewrite S; field].
Qed.

Lemma updateFloatingTexts_length (l : list FloatingText.t) :
  (List.length (updateFloatingTexts l) <= List.length l)%nat.
Proof.
  unfold updateFloatingTexts.
  eapply Nat.le_trans; [apply filter_length_le|]. rewrite length_map. lia.
Qed.

Lemma step_floatingTexts (e : Event) (st st' : State) (fx : list Effect) :
  step e st = Some (st', fx) ->
  Forall fading (floatingTexts st) ->
  Forall fading (floatingTexts st') /\
  (List.length (floatingTexts st')
   <= List.length (floatingTexts st) + (if is_click e then 1 else 0))%nat.
Proof.
  destruct e as [time|fresh now cx cy|w h d|ctx]; unfold step.
  - unfold render. destruct (List.length (framesRef st) =? 0)%nat.
    + intros H F. inversion H. subst. split; [exact F|simpl; lia].
    + destruct (currentFramePoints time (framesRef st)); [|discriminate].
      intros H F. inversion H. simpl. split; [now apply updateFloatingTexts_fading|].
      pose proof (updateFloatingTexts_length (floatingTexts st)). lia.
  - intros H F. injection H as H.
    assert (E : st' = fst (handleCanvasClick fresh now cx cy st)) by (rewrite H; reflexivity).
    rewrite E, handleCanvasClick_floatingTexts. split.
    + apply Forall_app. split; [exact F|]. constructor; [apply newText_fading|constructor].
    + rewrite length_app. simpl. lia.
  - destruct (generatedFrames w h d 0%nat) as [[frames n]|]; [|discriminate].
    intros H F. inversion H. simpl. split; [exact F|lia].
  - destruct (audioContextRef st); intros H F; inversion H; subst; simpl;
      (split; [exact F|lia]).
Qed.

(** X9.  In every state the component reaches, each floating text has an
    opacity in [(0, 1]] and a scale tied to it, [scale = 1 + (1 - opacity)/2]
    (so between 1 and 1.5), and there are at most as many texts as the run
    had clicks. *)
Theorem floatingTexts_fading (events : list Event) (st : State) (fx : list Effect) :
  run events initialState = Some (st, fx) ->
  Forall fading (floatingTexts st) /\
  Forall (fun t => 1 <= FloatingText.scale t /\ FloatingText.scale t < 3 # 2)
         (floatingTexts st) /\
  (List.length (floatingTexts st) <= List.length (filter is_click events))%nat.
Proof.
  assert (G : forall events st0 st fx,
             run events st0 = Some (st, fx) ->
             Forall fading (floatingTexts st0) ->
             Forall fading (floatingTexts st) /\
             (List.length (floatingTexts st)
              <= List.length (floatingTexts st0) + List.length (filter is_click events))%nat).
  { clear. induction events as [|e events IH]; intros st0 st fx; cbn [run].
    - intros H F. inversion H. subst. split; [exact F|simpl; lia].
    - destruct (step e st0) as [[st1 fx1]|] eqn:S; [|discriminate].
      destruct (run events st1) as [[st2 fx2]|] eqn:R; [|discriminate].
      intros H F. inversion H. subst.
      destruct (step_floatingTexts _ _ _ _ S F) as [F1 L1].
      destruct (IH _ _ _ R F1) as [F2 L2].
      split; [exact F2|]. cbn [filter]. destruct (is_click e); simpl in *; lia. }
  intros H. destruct (G events initialState st fx H (Forall_nil _)) as [F L].
  split; [exact F|]. split; [|exact L].
  eapply Forall_impl; [|exact F]. intros t (P & L1 & S).
  assert (S' : FloatingText.scale t == 1 + (1 - FloatingText.opacity t) * (1 # 2))
    by (rewrite S; field).
  rewrite S'. split; qlra.
Qed.

Lemma updateFloatingTexts_bound (c : Q) (l : list FloatingText.t) :
  Forall (fun t => FloatingText.opacity t <= c) l ->
  Forall (fun t => 0 < FloatingText.opacity t /\ FloatingText.opacity t <= c - 0.01)
         (updateFloatingTexts l).
Proof.
  intros H. unfold updateFloatingTexts. apply Forall_forall. intros t' Ht'.
  apply filter_In in Ht'. destruct Ht' as [Hin Hv].
  apply in_map_iff in Hin. destruct Hin as (t & <- & Hin).
  rewrite Forall_forall in H. specialize (H t Hin).
  apply visible_iff in Hv. simpl in *. split; [exact Hv|qlra].
Qed.

Lemma ticks_bound (k : nat) (l : list FloatingText.t) :
  Forall (fun t => FloatingText.opacity t <= 1) l ->
  Forall (fun t => FloatingText.opacity t <= 1 - 0.01 * inject_Z (Z.of_nat k)) (ticks k l).
Proof.
  intros H. induction k as [|k IH].
  - simpl. eapply Forall_impl; [|exact H]. intros t Ht. simpl in Ht |- *.
    change (inject_Z 0) with 0. qlra.
  - cbn [ticks]. pose proof (updateFloatingTexts_bound _ _ IH) as B.
    eapply Forall_impl; [|exact B]. intros t [_ Ht].
    rewrite Nat2Z.inj_succ. unfold Z.succ. rewrite inject_Z_plus.
    change (inject_Z 1) with 1. simpl in Ht |- *. qlra.
Qed.

Lemma ticks_exhausted (k : nat) (l : list FloatingText.t) :
  Forall (fun t => FloatingText.opacity t <= 1) l -> (100 <= k)%nat -> ticks k l = [].
Proof.
  intros H Hk. destruct k as [|k]; [lia|].
  cbn [ticks]. pose proof (ticks_bound k l H) as B.
  pose proof (updateFloatingTexts_bound _ _ B) as U.
  destruct (updateFloatingTexts (ticks k l)) as [|t ts]; [reflexivity|].
  inversion U as [|? ? [P L] _]. subst. exfalso.
  assert (A : inject_Z 99 <= inject_Z (Z.of_nat k)) by (rewrite <- Zle_Qle; lia).
  change (inject_Z 99) with 99 in A. simpl in P, L. qlra.
Qed.

Lemma run_ticks_floatingTexts (times : list Q) (st st' : State) (fx : list Effect) :
  framesRef st <> [] ->
  run (map Tick times) st = Some (st', fx) ->
  floatingTexts st' = ticks (List.length times) (floatingTexts st).
Proof.
  revert st fx. induction times as [|t times IH]; intros st fx Hne; cbn [map run step].
  - intros H. inversion H. reflexivity.
  - destruct (render t st) as [[st1 fx1]|] eqn:R; [|discriminate].
    destruct (run (map Tick times) st1) as [[st2 fx2]|] eqn:Rn; [|discriminate].
    intros H. inversion H. subst.
    assert (Hne1 : framesRef st1 <> []).
    { rewrite (proj1 (render_framesRef _ _ _ _ R)). exact Hne. }
    rewrite (IH _ _ Hne1 Rn), (render_floatingTexts _ _ _ _ Hne R).
    clear. cbn [List.length]. induction (List.length times) as [|k IHk]; [reflexivity|].
    cbn [ticks] in *. rewrite IHk. reflexivity.
Qed.

(** X10.  Texts never outlive 100 drawn ticks: from a state with frames
    whose texts have opacity at most 1 (every reachable state), a run of 100
    or more ticks with no click in between ends with an empty overlay, and
    no run of ticks ever makes the overlay longer. *)
Theorem overlay_drains (times : list Q) (st st' : State) (fx : list Effect) :
  framesRef st <> [] ->
  Forall (fun t => FloatingText.opacity t <= 1) (floatingTexts st) ->
  run (map Tick times) st = Some (st', fx) ->
  (List.length (floatingTexts st') <= List.length (floatingTexts st))%nat /\
  ((100 <= List.length times)%nat -> floatingTexts st' = []).
Proof.
  intros Hne Hop Hrun.
  rewrite (run_ticks_floatingTexts _ _ _ _ Hne Hrun). split.
  - clear. induction (List.length times) as [|k IH]; [simpl; lia|].
    cbn [ticks]. pose proof (updateFloatingTexts_length (ticks k (floatingTexts st))). lia.
  - intros Hk. now apply ticks_exhausted.
Qed.

(** ** The per-frame parameters *)

Section FrameParameters.
Local Open Scope R_scope.
Import RMath.

Lemma curve_quarter_turn (p : R) : curve (p + PI / 2) = curve p.
Proof.
  unfold curve, Math_sin, Math_PI.
  replace (4 * (p + PI / 2)) with (4 * p + 2 * INR 1 * PI) by (simpl; field).
  now rewrite sin_period.
Qed.

Lemma phase_ten_frames (frame : R) : phase (frame + 10) = phase frame + PI / 2.
Proof. unfold phase, Math_PI, GENERATE_FRAMES. field. Qed.

Lemma curve_five_frames (j : nat) : curve (phase (INR (5 * j))) = 0.
Proof.
  unfold curve, phase, Math_sin, Math_PI, GENERATE_FRAMES.
  rewrite (sin_eq_0_1 (4 * (INR (5 * j) / 20 * PI))).
  - unfold Rdiv. ring.
  - exists (Z.of_nat j). rewrite mult_INR, <- INR_IZR_INZ. simpl INR. field.
Qed.

Lemma haloNumber_bounds (frame : R) :
  exists z : Z, (1500 <= z <= 2388)%Z /\ haloNumber frame = IZR z.
Proof.
  unfold haloNumber, Math_floor, Math_abs.
  pose proof (curve_bounds (phase frame)) as [Lo Hi].
  set (c := curve (phase frame)) in *.
  rewrite Math_pow_2.
  assert (A : 0 <= Rabs c * Rabs c < 4 / 9).
  { pose proof (Rabs_pos c).
    assert (Rabs c < 2 / 3) by (apply Rabs_def1; lra). nra. }
  exists (Zfloor (1500 + 2000 * (Rabs c * Rabs c))). split; [|reflexivity].
  destruct (Zfloor_bound (1500 + 2000 * (Rabs c * Rabs c))) as [B1 B2].
  split.
  - apply Zfloor_lub. lra.
  - assert (Hlt : IZR (Zfloor (1500 + 2000 * (Rabs c * Rabs c))) < IZR 2389) by lra.
    apply lt_IZR in Hlt. lia.
Qed.

(** X11.  The per-frame parameters repeat after 10 frames: [ratio],
    [haloRadius] and [haloNumber] are the same for [frame] and
    [frame + 10], so one beat of 20 frames runs through the pulse twice;
    and in every generated sequence frames [k] and [k + 10] have the same
    number of points. *)
Theorem frame_parameters_repeat (width height : R) (draws : nat -> R) :
  valid_draws draws ->
  (forall frame : R,
     ratio (frame + 10) = ratio frame /\
     haloRadius (frame + 10) = haloRadius frame /\
     haloNumber (frame + 10) = haloNumber frame) /\
  exists (frames : list Frame) (n : nat),
    generatedFrames width height draws 0%nat = Some (frames, n) /\
    forall k : nat, (k < 10)%nat ->
      exists f g : Frame,
        nth_error frames k = Some f /\ nth_error frames (k + 10) = Some g /\
        List.length f = List.length g.
Proof.
  intros V.
  assert (P : forall frame : R,
             ratio (frame + 10) = ratio frame /\
             haloRadius (frame + 10) = haloRadius frame /\
             haloNumber (frame + 10) = haloNumber frame).
  { intros frame. unfold ratio, haloRadius, haloNumber.
    rewrite phase_ten_frames, curve_quarter_turn. repeat split; reflexivity. }
  split; [exact P|].
  destruct (generatedFrames_total width height draws V 0%nat) as (frames & n & E & H).
  exists frames, n. split; [exact E|].
  intros k Hk.
  destruct (Forall2_seq_nth _ _ _ _ H k) as (f & Nf & Lf & _); [lia|].
  destruct (Forall2_seq_nth _ _ _ _ H (k + 10)%nat) as (g & Ng & Lg & _); [lia|].
  exists f, g. split; [exact Nf|]. split; [exact Ng|].
  simpl in Lf, Lg. rewrite Lf, Lg, plus_INR.
  replace (INR 10) with 10 by (simpl; lra). now rewrite (proj2 (proj2 (P (INR k)))).
Qed.

(** X12.  The halo population of every frame is between 1500 and 2388, so
    every generated frame has between 10500 and 11388 points. *)
Theorem frame_size_bounds (width height : R) (draws : nat -> R) :
  valid_draws draws ->
  (forall frame : R, 1500 <= haloNumber frame <= 2388) /\
  exists (frames : list Frame) (n : nat),
    generatedFrames width height draws 0%nat = Some (frames, n) /\
    Forall (fun f : Frame => (10500 <= Z.of_nat (List.length f) <= 11388)%Z) frames.
Proof.
  intros V. split.
  { intros frame. destruct (haloNumber_bounds frame) as (z & Hz & ->).
    split; apply IZR_le; lia. }
  destruct (generatedFrames_total width height draws V 0%nat) as (frames & n & E & H).
  exists frames, n. split; [exact E|].
  clear E. induction H as [|frame f l frames [Lf _] _ IH]; constructor; [|exact IH].
  destruct (haloNumber_bounds (INR frame)) as (z & Hz & Ez).
  rewrite Lf, Ez, loop_count_IZR. rewrite !Nat2Z.inj_add, Z2Nat.id by lia.
  change (Z.of_nat 1000) with 1000%Z. change (Z.of_nat 3000) with 3000%Z.
  change (Z.of_nat 5000) with 5000%Z. lia.
Qed.

End FrameParameters.

(** ** How the projection moves a point *)

Section ProjectionGeometry.
Local Open Scope R_scope.
Import RMath.

(** X13.  Without its noise, [calcPosition] scales the offset of a point
    from the canvas center by [1 - ratio / d^0.84]: a positive ratio pulls
    the point toward the center (or through it), a negative ratio pushes it
    away, and a zero ratio leaves it in place. *)
Theorem calcPosition_scaling (width height x y r : R) (draws : nat -> R) (n : nat) :
  (x, y) <> (centerX width, centerY height) ->
  let k := 1 - r / Rpower (distance width height x y) 0.84 in
  exists px py : R,
    calcPosition width height x y r draws n = Some ((px, py), S (S n)) /\
    px + (draws n * 2 - 1) - centerX width = k * (x - centerX width) /\
    py + (draws (S n) * 2 - 1) - centerY height = k * (y - centerY height) /\
    (0 < r -> k < 1) /\ (r < 0 -> 1 < k) /\ (r = 0 -> k = 1).
Proof.
  intros H k. rewrite calcPosition_draws. cbv zeta.
  rewrite (calcPosition_force_distance width height x y H).
  pose proof (Rpower_pos (distance width height x y) 0.84) as P.
  eexists. eexists. split; [reflexivity|].
  assert (I : 0 < / Rpower (distance width height x y) 0.84) by now apply Rinv_0_lt_compat.
  unfold k, Rdiv. repeat split.
  - field. lra.
  - field. lra.
  - intros Hr. assert (0 < r * / Rpower (distance width height x y) 0.84)
      by now apply Rmult_lt_0_compat. lra.
  - intros Hr. assert (0 < (- r) * / Rpower (distance width height x y) 0.84)
      by (apply Rmult_lt_0_compat; lra). lra.
  - intros ->. lra.
Qed.

(** X14.  In frames 0, 5, 10 and 15 (every fifth frame) the pulse is at
    rest: the ratio is 0, the halo radius 10 and the halo population 1500,
    and the projection moves every point by its noise only, less than one
    pixel up or left and at most one pixel down or right. *)
Theorem rest_frames (j : nat) (width height x y : R) (draws : nat -> R) (n : nat) :
  valid_draws draws ->
  (x, y) <> (centerX width, centerY height) ->
  ratio (INR (5 * j)) = 0 /\
  haloRadius (INR (5 * j)) = 10 /\
  haloNumber (INR (5 * j)) = 1500 /\
  exists px py : R,
    calcPosition width height x y (ratio (INR (5 * j))) draws n = Some ((px, py), S (S n)) /\
    -1 < px - x <= 1 /\ -1 < py - y <= 1.
Proof.
  intros V H.
  pose proof (curve_five_frames j) as C.
  assert (R0 : ratio (INR (5 * j)) = 0) by (unfold ratio; rewrite C; lra).
  split; [exact R0|]. split; [unfold haloRadius; rewrite C; lra|]. split.
  { unfold haloNumber, Math_floor, Math_abs. rewrite C, Math_pow_2, Rabs_R0.
    replace (1500 + 2000 * (0 * 0)) with (IZR 1500) by lra.
    now rewrite ZfloorZ. }
  rewrite calcPosition_draws, R0. cbv zeta.
  eexists. eexists. split; [reflexivity|].
  pose proof (V n). pose proof (V (S n)). split; lra.
Qed.

End ProjectionGeometry.

(** ** The heart curve *)

Section HeartCurve.
Local Open Scope R_scope.
Import RMath.

Lemma cube_bound (s : R) : -1 <= s <= 1 -> -1 <= s * (s * (s * 1)) <= 1.
Proof.
  intros [Lo Hi].
  assert (0 <= s * s <= 1) by nra.
  split; nra.
Qed.

(** X15.  The heart curve is mirror-symmetric about the vertical line
    through the canvas center, and every sample lies within 187 pixels of
    the center horizontally and 264 vertically, hence inside a canvas of at
    least 374 by 528 pixels. *)
Theorem heartFunction_shape (width height t : R) :
  let p := heartFunction width height t in
  let q := heartFunction width height (2 * PI - t) in
  fst q - centerX width = - (fst p - centerX width) /\
  snd q = snd p /\
  Rabs (fst p - centerX width) <= 187 /\
  Rabs (snd p - centerY height) <= 264 /\
  (374 <= width -> 528 <= height -> 0 <= fst p <= width /\ 0 <= snd p <= height).
Proof.
  cbv zeta. unfold heartFunction, Math_sin, Math_cos, IMAGE_ENLARGE.
  rewrite !Math_pow_integer. simpl fst. simpl snd. simpl powerRZ.
  assert (S : sin (2 * PI - t) = - sin t).
  { rewrite sin_minus, sin_2PI, cos_2PI. ring. }
  assert (C1 : cos (2 * PI - t) = cos t).
  { rewrite cos_minus, sin_2PI, cos_2PI. ring. }
  assert (C2 : cos (2 * (2 * PI - t)) = cos (2 * t)).
  { replace (2 * (2 * PI - t)) with (- (2 * t) + 2 * INR 2 * PI) by (simpl; ring).
    now rewrite cos_period, cos_neg. }
  assert (C3 : cos (3 * (2 * PI - t)) = cos (3 * t)).
  { replace (3 * (2 * PI - t)) with (- (3 * t) + 2 * INR 3 * PI) by (simpl; ring).
    now rewrite cos_period, cos_neg. }
  rewrite S, C1, C2, C3.
  pose proof (cube_bound (sin t) (SIN_bound t)) as B.
  pose proof (COS_bound t) as B1.
  pose proof (COS_bound (2 * t)) as B2.
  pose proof (COS_bound (3 * t)) as B3.
  assert (X : Rabs (17 * (sin t * (sin t * (sin t * 1))) * 11 + centerX width - centerX width)
              <= 187) by (apply Rabs_le; lra).
  assert (Y : Rabs (- (16 * cos t - 5 * cos (2 * t) - 3 * cos (3 * t)) * 11
                    + centerY height - centerY height) <= 264) by (apply Rabs_le; lra).
  split; [ring|]. split; [reflexivity|]. split; [exact X|]. split; [exact Y|].
  intros W Hh. unfold centerX, centerY. lra.
Qed.

End HeartCurve.

(** ** Scattering toward the center *)

Section Scatter.
Local Open Scope R_scope.
Import RMath.

Lemma scatterInside_draws (width height x y beta : R) (draws : nat -> R) (n : nat) :
  scatterInside width height x y beta draws n =
  Some ((x - - beta * Math_log (draws n) * (x - centerX width),
         y - - beta * Math_log (draws (S n)) * (y - centerY height)), S (S n)).
Proof. reflexivity. Qed.

Lemma scatter_factor (beta u : R) :
  0 < beta ->
  (exp (- / beta) <= u < 1 -> 0 <= 1 + beta * ln u < 1) /\
  (0 < u < exp (- / beta) -> 1 + beta * ln u < 0).
Proof.
  intros Hb. pose proof (exp_pos (- / beta)) as E.
  assert (I : beta * / beta = 1) by (apply Rinv_r; lra).
  split.
  - intros [Lo Hi].
    assert (L1 : ln u < 0) by (rewrite <- ln_1; apply ln_increasing; lra).
    assert (L2 : - / beta <= ln u).
    { rewrite <- (ln_exp (- / beta)).
      destruct Lo as [Lo|Lo]; [left; apply ln_increasing; lra|rewrite Lo; lra]. }
    split; nra.
  - intros [Lo Hi].
    assert (L : ln u < - / beta).
    { rewrite <- (ln_exp (- / beta)). apply ln_increasing; lra. }
    nra.
Qed.

(** X16.  [scatterInside] uses two draws and scales the offset of the point
    from the canvas center by [1 + beta ln u] on each axis (for a draw
    [u > 0]).  For [beta > 0] and a draw in [[exp(-1/beta), 1)] the factor
    is in [[0, 1)]: the coordinate lands between the center and where it
    was.  For a smaller positive draw the factor is negative: the coordinate
    lands on the other side of the center. *)
Theorem scatterInside_scaling (width height x y beta : R) (draws : nat -> R) (n : nat) :
  0 < beta ->
  0 < draws n -> 0 < draws (S n) ->
  let kx := 1 + beta * ln (draws n) in
  let ky := 1 + beta * ln (draws (S n)) in
  exists px py : R,
    scatterInside width height x y beta draws n = Some ((px, py), S (S n)) /\
    px - centerX width = kx * (x - centerX width) /\
    py - centerY height = ky * (y - centerY height) /\
    (exp (- / beta) <= draws n < 1 -> 0 <= kx < 1) /\
    (draws n < exp (- / beta) -> kx < 0) /\
    (exp (- / beta) <= draws (S n) < 1 -> 0 <= ky < 1) /\
    (draws (S n) < exp (- / beta) -> ky < 0).
Proof.
  intros Hb Hu Hv kx ky. rewrite scatterInside_draws. unfold Math_log.
  eexists. eexists. split; [reflexivity|].
  destruct (scatter_factor beta (draws n) Hb) as [A1 A2].
  destruct (scatter_factor beta (draws (S n)) Hb) as [B1 B2].
  unfold kx, ky. repeat split; try ring; try (apply A1; assumption);
    try (apply B1; assumption); intros; try (apply A2; lra); try (apply B2; lra).
Qed.

End Scatter.

(** ** The draws of a projection *)

Section Sizes.
Local Open Scope R_scope.
Import RMath.

Lemma projected_draws (width height r sizes : R) (b : R * R) (draws : nat -> R) (n : nat) :
  projected width height r sizes b draws n =
  Some (Point.mk
          (fst b - (r * calcPosition_force width height (fst b) (snd b) * (fst b - centerX width)
                    + (draws n * 2 - 1)))
          (snd b - (r * calcPosition_force width height (fst b) (snd b) * (snd b - centerY height)
                    + (draws (S n) * 2 - 1)))
          (Math_floor (draws (S (S n)) * sizes) + 1),
        S (S (S n))).
Proof. reflexivity. Qed.

End Sizes.

(** ** One set of points behind all frames *)

Section DataModel.
Local Open Scope R_scope.
Import RMath.

Variables width height : R.
Variable draws : nat -> R.
Hypothesis draws_valid : valid_draws draws.

Lemma scatterInside_scattered (beta : R) (b : R * R) :
  total draws (scatterInside width height (fst b) (snd b) beta)
        (scattered_from width height draws beta b).
Proof.
  intros n. eexists. eexists. split; [apply scatterInside_draws|].
  exists n. apply scatterInside_draws.
Qed.

Lemma projected_projected (r sizes : R) (b : R * R) :
  total draws (projected width height r sizes b)
        (projected_from width height draws r sizes b).
Proof.
  intros n. eexists. eexists. split; [apply projected_draws|].
  exists n. apply projected_draws.
Qed.

Lemma haloPoint_halo (r : R) :
  total draws (haloPoint width height r) (halo_from width height draws r).
Proof.
  intros n. eexists. eexists. split; [apply haloPoint_draws|].
  exists n. apply haloPoint_draws.
Qed.

Lemma basePoints_on_heart :
  total draws (basePoints width height)
        (fun base => List.length base = 1000%nat /\ Forall (on_heart width height) base).
Proof.
  unfold basePoints. apply total_replicateM.
  apply total_bind with (Q := fun u => 0 <= u < 1); [exact (total_random draws draws_valid)|].
  intros u Hu. apply total_ret. exists (u * 2 * Math_PI). split; [|reflexivity].
  unfold Math_PI. pose proof PI_RGT_0. nra.
Qed.

Lemma edgeDiffusionPoints_groups (base : list (R * R)) :
  total draws (edgeDiffusionPoints width height base)
        (fun edge => exists groups : list (list (R * R)),
           edge = List.concat groups /\
           Forall2 (fun b g => List.length g = 3%nat /\
                               Forall (scattered_from width height draws 0.05 b) g)
                   base groups).
Proof.
  unfold edgeDiffusionPoints.
  apply total_bind with
    (Q := fun groups =>
            Forall2 (fun b g => List.length g = 3%nat /\
                                Forall (scattered_from width height draws 0.05 b) g)
                    base groups).
  - apply total_mapM. intros b _. apply total_replicateM. apply scatterInside_scattered.
  - intros groups H. apply total_ret. exists groups. split; [reflexivity|exact H].
Qed.

Lemma centerDiffusionPoints_from_base (base : list (R * R)) :
  List.length base <> 0%nat ->
  total draws (centerDiffusionPoints width height base)
        (fun center =>
           List.length center = 5000%nat /\
           Forall (fun c => exists b, In b base /\ scattered_from width height draws 0.27 b c)
                  center).
Proof.
  intros Hbase. unfold centerDiffusionPoints. apply total_replicateM.
  apply total_bind with (Q := fun u => 0 <= u < 1); [exact (total_random draws draws_valid)|].
  intros u Hu. apply total_bind with (Q := fun b => In b base).
  - apply total_defined. rewrite INR_IZR_INZ.
    destruct (floor_scaled_draw u (Z.of_nat (List.length base)) Hu) as (z & Hz & E); [lia|].
    rewrite E, array_get_IZR by lia.
    destruct (nth_error base (Z.to_nat z)) as [b|] eqn:N.
    + exists b. split; [reflexivity|]. exact (nth_error_In _ _ N).
    + apply nth_error_None in N. lia.
  - intros b Hb. apply total_weaken with (1 := scatterInside_scattered 0.27 b).
    intros c Hc. exists b. split; assumption.
Qed.

Lemma framePoints_layout (base edge center : list (R * R)) (frame : nat) :
  total draws (framePoints width height base edge center frame)
        (frame_layout width height draws base edge center frame).
Proof.
  unfold framePoints.
  apply total_bind with
    (Q := fun l => List.length l = loop_count (haloNumber (INR frame))
                   /\ Forall (halo_from width height draws (haloRadius (INR frame))) l).
  { apply total_replicateM. apply haloPoint_halo. }
  intros halo [Lh Fh].
  apply total_bind with
    (Q := fun bs => Forall2 (projected_from width height draws (ratio (INR frame)) 3) base bs).
  { apply total_mapM. intros b _. apply projected_projected. }
  intros bs Hbs.
  apply total_bind with
    (Q := fun es => Forall2 (projected_from width height draws (ratio (INR frame)) 2) edge es).
  { apply total_mapM. intros b _. apply projected_projected. }
  intros es Hes.
  apply total_bind with
    (Q := fun cs => Forall2 (projected_from width height draws (ratio (INR frame)) 2) center cs).
  { apply total_mapM. intros b _. apply projected_projected. }
  intros cs Hcs. apply total_ret. exists halo, bs, es, cs. repeat split; assumption.
Qed.

(** The whole run, with the point sets it builds. *)
Lemma generatedFrames_model :
  total draws (generatedFrames width height)
        (fun frames =>
           exists (base : list (R * R)) (groups : list (list (R * R))) (center : list (R * R)),
             (List.length base = 1000%nat /\ Forall (on_heart width height) base) /\
             Forall2 (fun b g => List.length g = 3%nat /\
                                 Forall (scattered_from width height draws 0.05 b) g)
                     base groups /\
             (List.length center = 5000%nat /\
              Forall (fun c => exists b, In b base /\
                                         scattered_from width height draws 0.27 b c) center) /\
             Forall2 (frame_layout width height draws base (List.concat groups) center)
                     (seq 0 20) frames).
Proof.
  unfold generatedFrames.
  eapply total_bind; [apply basePoints_on_heart|]. intros base Hb.
  eapply total_bind; [apply edgeDiffusionPoints_groups|]. intros edge (groups & -> & Hg).
  eapply total_bind; [apply centerDiffusionPoints_from_base; destruct Hb as [L _]; lia|].
  intros center Hc.
  change (Z.to_nat GENERATE_FRAMES) with 20%nat.
  eapply total_weaken.
  - apply total_mapM. intros frame _. apply framePoints_layout.
  - intros frames H. exists base, groups, center.
    split; [exact Hb|]. split; [exact Hg|]. split; [exact Hc|exact H].
Qed.

End DataModel.

Section DataModelTheorems.
Local Open Scope R_scope.
Import RMath.


Lemma projected_from_size_2 (width height : R) (draws : nat -> R) (r : R) (b : R * R)
    (p : Point.t) :
  valid_draws draws -> projected_from width height draws r 2 b p -> size_in [1; 2] p.
Proof.
  intros V (n & E).
  destruct (projected_total_2 width height draws V r b n) as (p' & n' & E' & S).
  rewrite E in E'. inversion E'. subst. exact S.
Qed.

Lemma halo_from_size (width height : R) (draws : nat -> R) (r : R) (p : Point.t) :
  valid_draws draws -> halo_from width height draws r p -> size_in [1; 2] p.
Proof.
  intros V (n & E).
  destruct (haloPoint_total width height draws V r n) as (p' & n' & E' & S).
  rewrite E in E'. inversion E'. subst. exact S.
Qed.

Lemma Forall2_right {A B : Type} (R : A -> B -> Prop) (P : B -> Prop)
    (l : list A) (l' : list B) :
  Forall2 R l l' -> (forall a b, R a b -> P b) -> Forall P l'.
Proof. induction 1; intros H'; constructor; eauto. Qed.

(** X19.  Size 3 occurs only among the projected base points: in every
    generated frame a point of size 3 sits at an index from
    [haloNumber(frame)] up to [haloNumber(frame) + 999]; the halo before it
    and the 8000 edge and center points after it have size 1 or 2. *)
Theorem size_three_only_base (width height : R) (draws : nat -> R) :
  valid_draws draws ->
  exists (frames : list Frame) (n_end : nat),
    generatedFrames width height draws 0%nat = Some (frames, n_end) /\
    forall (frame i : nat) (f : Frame) (p : Point.t),
      nth_error frames frame = Some f ->
      nth_error f i = Some p ->
      Point.size p = 3 ->
      (loop_count (haloNumber (INR frame)) <= i
       < loop_count (haloNumber (INR frame)) + 1000)%nat.
Proof.
  intros V.
  destruct (generatedFrames_model width height draws V 0%nat)
    as (frames & n_end & E & base & groups & center & [Lb _] & _ & _ & Hf).
  exists frames, n_end. split; [exact E|].
  intros frame i f p Nf Ni S3.
  assert (Hlt : (frame < 20)%nat).
  { pose proof (Forall2_length Hf) as L. rewrite length_seq in L.
    assert (frame < List.length frames)%nat by (apply nth_error_Some; congruence). lia. }
  destruct (Forall2_seq_nth _ _ _ _ Hf frame Hlt) as (f' & Nf' & L).
  rewrite Nf in Nf'. inversion Nf'. subst f'. simpl in L.
  destruct L as (halo & bs & es & cs & -> & Lh & Fh & Fb & Fe & Fc).
  assert (Sh : Forall (size_in [1; 2]) halo).
  { eapply Forall_impl; [|exact Fh]. intros q. now apply halo_from_size. }
  assert (Se : Forall (size_in [1; 2]) es).
  { eapply Forall2_right; [exact Fe|]. intros b q. now apply projected_from_size_2. }
  assert (Sc : Forall (size_in [1; 2]) cs).
  { eapply Forall2_right; [exact Fc|]. intros b q. now apply projected_from_size_2. }
  assert (No3 : forall l, Forall (size_in [1; 2]) l -> ~ In p l).
  { intros l Fl Hin. rewrite Forall_forall in Fl. specialize (Fl p Hin).
    unfold size_in in Fl. simpl in Fl. lra. }
  pose proof (Forall2_length Fb) as Lbs. rewrite Lb in Lbs.
  rewrite <- Lh.
  destruct (Nat.lt_ge_cases i (List.length halo)) as [A|A].
  { exfalso. rewrite nth_error_app1 in Ni by exact A.
    exact (No3 halo Sh (nth_error_In _ _ Ni)). }
  split; [exact A|].
  rewrite nth_error_app2 in Ni by exact A.
  destruct (Nat.lt_ge_cases (i - List.length halo) (List.length bs)) as [B|B]; [lia|].
  exfalso. rewrite nth_error_app2 in Ni by exact B.
  apply nth_error_In in Ni. apply in_app_or in Ni.
  destruct Ni as [Ni|Ni]; [exact (No3 es Se Ni)|exact (No3 cs Sc Ni)].
Qed.

End DataModelTheorems.

(** ** The number of random draws of a run *)

Section DrawCount.
Import RMath.

Lemma counts_ret {A : Type} (a : A) : counts (ret a) 0.
Proof. intros d n a' n' H. inversion H. lia. Qed.

Lemma counts_random : counts Math_random 1.
Proof. intros d n a n' H. inversion H. lia. Qed.

Lemma counts_defined {A : Type} (o : option A) : counts (defined o) 0.
Proof. intros d n a n' H. unfold defined in H. destruct o; inversion H. lia. Qed.

Lemma counts_bind {A B : Type} (g : Gen A) (k : A -> Gen B) (c1 c2 : nat) :
  counts g c1 -> (forall a, counts (k a) c2) -> counts (bind g k) (c1 + c2).
Proof.
  intros Hg Hk d n b n' H. unfold bind in H.
  destruct (g d n) as [[a n1]|] eqn:E; [|discriminate].
  apply Hg in E. apply Hk in H. lia.
Qed.

Lemma counts_eq {A : Type} (g : Gen A) (c c' : nat) : c = c' -> counts g c -> counts g c'.
Proof. now intros ->. Qed.

Lemma counts_mapM_sum {A B : Type} (f : A -> Gen B) (cost : A -> nat) (l : list A) :
  (forall a, counts (f a) (cost a)) -> counts (mapM f l) (list_sum (map cost l)).
Proof.
  intros Hf. induction l as [|a l IH].
  - apply counts_ret.
  - cbn [mapM map].
    apply counts_eq with (c := (cost a + (list_sum (map cost l) + 0))%nat); [simpl; lia|].
    apply counts_bind; [apply Hf|]. intros b.
    apply counts_bind; [exact IH|]. intros bs. apply counts_ret.
Qed.

Lemma list_sum_const {A : Type} (l : list A) (c : nat) :
  list_sum (map (fun _ => c) l) = (c * List.length l)%nat.
Proof. induction l as [|a l IH]; simpl; [lia|]. rewrite IH. lia. Qed.

Lemma counts_mapM {A B : Type} (f : A -> Gen B) (c : nat) (l : list A) :
  (forall a, counts (f a) c) -> counts (mapM f l) (c * List.length l).
Proof.
  intros Hf. rewrite <- list_sum_const. now apply counts_mapM_sum.
Qed.

Lemma counts_replicateM {A : Type} (g : Gen A) (c n : nat) :
  counts g c -> counts (replicateM n g) (c * n).
Proof.
  intros Hg. unfold replicateM.
  replace (c * n)%nat with (c * List.length (seq 0 n))%nat by (now rewrite length_seq).
  apply counts_mapM. intros _. exact Hg.
Qed.

Variables width height : R.

Lemma counts_scatterInside (x y beta : R) : counts (scatterInside width height x y beta) 2.
Proof. intros d n a n' H. rewrite scatterInside_draws in H. inversion H. lia. Qed.

Lemma counts_projected (r sizes : R) (b : R * R) : counts (projected width height r sizes b) 3.
Proof. intros d n a n' H. rewrite projected_draws in H. inversion H. lia. Qed.

Lemma counts_haloPoint (r : R) : counts (haloPoint width height r) 4.
Proof. intros d n a n' H. rewrite haloPoint_draws in H. inversion H. lia. Qed.

Lemma counts_basePoints : counts (basePoints width height) 1000.
Proof.
  unfold basePoints. apply counts_eq with (c := (1 * 1000)%nat); [reflexivity|].
  apply counts_replicateM.
  apply counts_eq with (c := (1 + 0)%nat); [reflexivity|].
  apply counts_bind; [apply counts_random|]. intros u. apply counts_ret.
Qed.

Lemma counts_edgeDiffusionPoints (base : list (R * R)) :
  counts (edgeDiffusionPoints width height base) (6 * List.length base).
Proof.
  unfold edgeDiffusionPoints.
  apply counts_eq with (c := (6 * List.length base + 0)%nat); [lia|].
  apply counts_bind; [|intros g; apply counts_ret].
  apply counts_mapM. intros b.
  apply counts_eq with (c := (2 * 3)%nat); [reflexivity|].
  apply counts_replicateM. apply counts_scatterInside.
Qed.

Lemma counts_centerDiffusionPoints (base : list (R * R)) :
  counts (centerDiffusionPoints width height base) (3 * 5000).
Proof.
  unfold centerDiffusionPoints. apply counts_replicateM.
  apply counts_eq with (c := (1 + (0 + 2))%nat); [reflexivity|].
  apply counts_bind; [apply counts_random|]. intros u.
  apply counts_bind; [apply counts_defined|]. intros b. apply counts_scatterInside.
Qed.

Lemma counts_framePoints (base edge center : list (R * R)) (frame : nat) :
  counts (framePoints width height base edge center frame)
         (4 * loop_count (haloNumber (INR frame))
          + 3 * (List.length base + List.length edge + List.length center)).
Proof.
  unfold framePoints.
  apply counts_eq with
    (c := (4 * loop_count (haloNumber (INR frame))
           + (3 * List.length base + (3 * List.length edge + (3 * List.length center + 0))))%nat);
    [lia|].
  apply counts_bind; [apply counts_replicateM; apply counts_haloPoint|]. intros halo.
  apply counts_bind; [apply counts_mapM; intros b; apply counts_projected|]. intros bs.
  apply counts_bind; [apply counts_mapM; intros b; apply counts_projected|]. intros es.
  apply counts_bind; [apply counts_mapM; intros b; apply counts_projected|]. intros cs.
  apply counts_ret.
Qed.

End DrawCount.

Section DrawCountTheorem.
Import RMath.

Lemma list_sum_frames (halo : nat -> nat) (c : nat) (l : list nat) :
  Z.of_nat (list_sum (map (fun frame => 4 * halo frame + c)%nat l)) =
  (4 * fold_right Z.add 0 (map (fun frame => Z.of_nat (halo frame)) l)
   + Z.of_nat c * Z.of_nat (List.length l))%Z.
Proof.
  unfold list_sum. induction l as [|a l IH]; [simpl; lia|].
  cbn [map fold_right List.length].
  rewrite Nat2Z.inj_succ, Z.mul_succ_r, Nat2Z.inj_add, IH, Nat2Z.inj_add, Nat2Z.inj_mul.
  change (Z.of_nat 4) with 4%Z. lia.
Qed.

Lemma fold_right_bounds (lo hi : Z) (l : list Z) :
  Forall (fun z => lo <= z <= hi)%Z l ->
  (lo * Z.of_nat (List.length l) <= fold_right Z.add 0 l <= hi * Z.of_nat (List.length l))%Z.
Proof.
  induction 1 as [|z l Hz _ IH]; [simpl; lia|].
  cbn [fold_right List.length]. lia.
Qed.

Lemma haloCounts_bounds : Forall (fun z => 1500 <= z <= 2388)%Z haloCounts.
Proof.
  unfold haloCounts. apply Forall_forall. intros z Hz.
  apply in_map_iff in Hz. destruct Hz as (frame & <- & _).
  destruct (haloNumber_bounds (INR frame)) as (h & Hh & E).
  rewrite E, loop_count_IZR, Z2Nat.id; lia.
Qed.

(** X20.  One run of the generator calls [Math.random] a number of times
    fixed by the frame parameters alone, whatever the canvas size and the
    values drawn: 562000 plus four per halo point, between 682000 and
    753040 calls. *)
Theorem generator_draw_count (width height : R) (rand : nat -> R) :
  valid_draws rand ->
  exists (frames : list Frame) (n_end : nat),
    generatedFrames width height rand 0%nat = Some (frames, n_end) /\
    Z.of_nat n_end = (562000 + 4 * fold_right Z.add 0 haloCounts)%Z /\
    (682000 <= Z.of_nat n_end <= 753040)%Z.
Proof.
  intros V.
  destruct (generatedFrames_total width height rand V 0%nat) as (frames & n_end & E & _).
  exists frames, n_end. split; [exact E|].
  assert (C : Z.of_nat n_end = (562000 + 4 * fold_right Z.add 0 haloCounts)%Z).
  { revert E. unfold generatedFrames.
    unfold bind at 1.
    destruct (basePoints_total width height rand V 0%nat) as (base & n1 & Eb & Lb).
    rewrite Eb. pose proof (counts_basePoints width height _ _ _ _ Eb) as N1.
    unfold bind at 1.
    destruct (edgeDiffusionPoints_total width height rand V base n1) as (edge & n2 & Ee & Le).
    rewrite Ee. pose proof (counts_edgeDiffusionPoints width height base _ _ _ _ Ee) as N2.
    unfold bind at 1.
    destruct (centerDiffusionPoints_total width height rand V base) with (n := n2)
      as (center & n3 & Ec & Lc); [lia|].
    rewrite Ec. pose proof (counts_centerDiffusionPoints width height base _ _ _ _ Ec) as N3.
    intros E.
    pose proof (counts_mapM_sum (framePoints width height base edge center) _ _
                  (counts_framePoints width height base edge center) _ _ _ _ E) as N4.
    change (Z.to_nat GENERATE_FRAMES) with 20%nat in N4.
    rewrite N4, Nat2Z.inj_add, list_sum_frames, length_seq.
    fold haloCounts. rewrite N3, N2, N1, Lb, Le, Lc.
    rewrite !Nat2Z.inj_add, !Nat2Z.inj_mul, !Nat2Z.inj_add.
    change (Z.of_nat 1000) with 1000%Z. change (Z.of_nat 5000) with 5000%Z.
    change (Z.of_nat 20) with 20%Z. change (Z.of_nat 6) with 6%Z.
    change (Z.of_nat 3) with 3%Z. change (Z.of_nat 0) with 0%Z. lia. }
  split; [exact C|].
  pose proof (fold_right_bounds _ _ _ haloCounts_bounds) as B.
  unfold haloCounts in B at 1 4. rewrite length_map, length_seq in B.
  change (Z.of_nat 20) with 20%Z in B. lia.
Qed.

End DrawCountTheorem.

(** ** The draws of the halo *)

Section HaloDraws.
Local Open Scope R_scope.
Import RMath.

(** The element of index [i] of a loop over [seq s k] is computed at the
    draw counter reached after the elements before it. *)
Lemma mapM_seq_nth_at {B : Type} (f : nat -> Gen B) (cost : nat -> nat) (s k : nat)
    (draws : nat -> R) (n n' : nat) (bs : list B) (i : nat) (b : B) :
  (forall a, counts (f a) (cost a)) ->
  mapM f (seq s k) draws n = Some (bs, n') ->
  nth_error bs i = Some b ->
  f (s + i)%nat draws (n + list_sum (map cost (seq s i)))%nat
  = Some (b, (n + list_sum (map cost (seq s (S i))))%nat).
Proof.
  intros Hf. revert s n n' bs i. induction k as [|k IH]; intros s n n' bs i M E.
  - cbn [seq mapM] in M. unfold ret in M. inversion M. subst bs. destruct i; discriminate.
  - cbn [seq mapM] in M. unfold bind at 1 in M.
    destruct (f s draws n) as [[b0 n1]|] eqn:F; [|discriminate].
    unfold bind at 1 in M.
    destruct (mapM f (seq (S s) k) draws n1) as [[bs' n2]|] eqn:M'; [|discriminate].
    unfold ret in M. inversion M. subst bs n'. clear M.
    pose proof (Hf s draws n b0 n1 F) as N1.
    assert (Hs : forall j, (n + list_sum (map cost (seq s (S j))))%nat
                           = (n1 + list_sum (map cost (seq (S s) j)))%nat).
    { intros j. cbn [seq map]. unfold list_sum. cbn [fold_right]. lia. }
    destruct i as [|i]; cbn [nth_error] in E.
    + inversion E. subst b0. rewrite Hs. cbn [seq map]. unfold list_sum. cbn [fold_right].
      rewrite !Nat.add_0_r. exact F.
    + rewrite !Hs. replace (s + S i)%nat with (S s + i)%nat by lia.
      exact (IH _ _ _ _ _ M' E).
Qed.

Lemma replicateM_nth_at {B : Type} (g : Gen B) (c k : nat)
    (draws : nat -> R) (n n' : nat) (bs : list B) (i : nat) (b : B) :
  counts g c ->
  replicateM k g draws n = Some (bs, n') ->
  nth_error bs i = Some b ->
  g draws (n + c * i)%nat = Some (b, (n + c * i + c)%nat).
Proof.
  intros Hg M E. unfold replicateM in M.
  pose proof (mapM_seq_nth_at (fun _ => g) (fun _ => c) 0 k draws n n' bs i b
                (fun _ => Hg) M E) as P.
  cbv beta in P. rewrite !list_sum_const, !length_seq in P.
  rewrite P. f_equal. f_equal. lia.
Qed.

Lemma frameStart_sum (frame : nat) :
  frameStart frame = (frameStart 0 + list_sum (map frameDraws (seq 0 frame)))%nat.
Proof.
  induction frame as [|frame IH].
  - generalize (frameStart 0). intros c. cbn [seq map]. unfold list_sum. cbn [fold_right]. lia.
  - rewrite seq_S, map_app, list_sum_app.
    change (frameStart (S frame)) with (frameStart frame + frameDraws frame)%nat.
    rewrite IH. generalize (frameStart 0). intros c.
    cbn [Nat.add map]. unfold list_sum. cbn [fold_right]. lia.
Qed.

Lemma frameStart_mono (frame frame' : nat) :
  (frame < frame')%nat -> (frameStart frame + frameDraws frame <= frameStart frame')%nat.
Proof.
  induction 1 as [|frame' _ IH]; cbn [frameStart]; lia.
Qed.

(** The halo points of the frames read pairwise disjoint draws. *)
Lemma haloDraw_disjoint (frame i frame' i' : nat) :
  (i < loop_count (haloNumber (INR frame)))%nat ->
  (i' < loop_count (haloNumber (INR frame')))%nat ->
  (frame, i) <> (frame', i') ->
  (haloDraw frame i + 4 <= haloDraw frame' i')%nat \/
  (haloDraw frame' i' + 4 <= haloDraw frame i)%nat.
Proof.
  intros Hi Hi' Hne. unfold haloDraw.
  destruct (Nat.lt_trichotomy frame frame') as [L|[E|L]].
  - left. pose proof (frameStart_mono _ _ L) as M. unfold frameDraws in M. lia.
  - subst frame'. assert (i <> i') by congruence. lia.
  - right. pose proof (frameStart_mono _ _ L) as M. unfold frameDraws in M. lia.
Qed.

Variables width height : R.

(** The halo point [i] of a frame whose loop body starts at draw counter
    [n] is built at counter [n + 4 * i]. *)
Lemma framePoints_halo_at (base edge center : list (R * R)) (frame : nat)
    (draws : nat -> R) (n n' : nat) (f : Frame) (i : nat) (p : Point.t) :
  framePoints width height base edge center frame draws n = Some (f, n') ->
  (i < loop_count (haloNumber (INR frame)))%nat ->
  nth_error f i = Some p ->
  haloPoint width height (haloRadius (INR frame)) draws (n + 4 * i)%nat
  = Some (p, (n + 4 * i + 4)%nat).
Proof.
  unfold framePoints. unfold bind at 1.
  destruct (replicateM (loop_count (haloNumber (INR frame)))
              (haloPoint width height (haloRadius (INR frame))) draws n)
    as [[halo m1]|] eqn:Eh; [|discriminate].
  unfold bind at 1.
  destruct (mapM (projected width height (ratio (INR frame)) 3) base draws m1)
    as [[bs m2]|]; [|discriminate].
  unfold bind at 1.
  destruct (mapM (projected width height (ratio (INR frame)) 2) edge draws m2)
    as [[es m3]|]; [|discriminate].
  unfold bind at 1.
  destruct (mapM (projected width height (ratio (INR frame)) 2) center draws m3)
    as [[cs m4]|]; [|discriminate].
  unfold ret. intros H Hi Hp. injection H as H _. subst f.
  pose proof Eh as L. unfold replicateM in L.
  apply mapM_length in L. rewrite length_seq in L.
  rewrite nth_error_app1 in Hp by lia.
  exact (replicateM_nth_at _ 4 _ _ _ _ _ _ _ (counts_haloPoint width height _) Eh Hp).
Qed.

(** A run makes [frameStart 20] calls of [Math.random] in all, and the loop
    body of [frame] runs from draw counter [frameStart frame] to
    [frameStart (S frame)]. *)
Lemma generatedFrames_frame_at (draws : nat -> R) (n_end : nat) (frames : list Frame) :
  valid_draws draws ->
  generatedFrames width height draws 0%nat = Some (frames, n_end) ->
  n_end = frameStart 20 /\
  forall (frame : nat) (f : Frame),
    nth_error frames frame = Some f ->
    exists base edge center : list (R * R),
      framePoints width height base edge center frame draws (frameStart frame)
      = Some (f, frameStart (S frame)).
Proof.
  intros V. unfold generatedFrames.
  unfold bind at 1.
  destruct (basePoints_total width height draws V 0%nat) as (base & n1 & Eb & Lb).
  rewrite Eb. pose proof (counts_basePoints width height _ _ _ _ Eb) as N1.
  unfold bind at 1.
  destruct (edgeDiffusionPoints_total width height draws V base n1) as (edge & n2 & Ee & Le).
  rewrite Ee. pose proof (counts_edgeDiffusionPoints width height base _ _ _ _ Ee) as N2.
  unfold bind at 1.
  destruct (centerDiffusionPoints_total width height draws V base) with (n := n2)
    as (center & n3 & Ec & Lc); [lia|].
  rewrite Ec. pose proof (counts_centerDiffusionPoints width height base _ _ _ _ Ec) as N3.
  intros G.
  assert (C : forall l : list nat,
             map (fun frame0 : nat =>
                    (4 * loop_count (haloNumber (INR frame0))
                     + 3 * (List.length base + List.length edge + List.length center))%nat) l
             = map frameDraws l).
  { intros l. apply map_ext. intros a. unfold frameDraws. rewrite Le, Lc, Lb. lia. }
  assert (S0 : forall frame,
             (n3 + list_sum (map frameDraws (seq 0 frame)))%nat = frameStart frame).
  { intros frame. rewrite (frameStart_sum frame).
    change (frameStart 0) with (1000 + 2 * 3000 + 3 * 5000)%nat.
    rewrite N3, N2, N1, Lb. lia. }
  split.
  - pose proof (counts_mapM_sum (framePoints width height base edge center) _ _
                  (counts_framePoints width height base edge center) _ _ _ _ G) as N4.
    change (Z.to_nat GENERATE_FRAMES) with 20%nat in N4.
    rewrite C in N4. rewrite N4. apply S0.
  - intros frame f Hf. exists base, edge, center.
    pose proof (mapM_seq_nth_at (framePoints width height base edge center) _ _ _ _ _ _ _ _ _
                  (counts_framePoints width height base edge center) G Hf) as F.
    rewrite !C, !S0 in F. exact F.
Qed.

End HaloDraws.

Section HaloConstruction.
Local Open Scope R_scope.
Import RMath.

(** C6, amended.  A run of the generator makes [frameStart 20] calls of
    [Math.random]; the loop body of [frame] makes the calls number
    [frameStart frame] to [frameStart (S frame) - 1], the halo first.  Each
    of the first [haloNumber(frame)] points of the frame (the halo) is
    built from four calls of its own, number [haloDraw frame i] to
    [haloDraw frame i + 3]: the heart curve sampled at the first; [shrink]
    with the frame's (positive) halo radius, whose force is
    [-1 / (d^2)^0.6 = -1 / d^1.2] for the sample's distance [d > 0] from
    the center and which moves the sample away from the center; a jitter
    in [[-60, 60)] on each axis from the second and third; and size 1 when
    the fourth is below 0.66, size 2 otherwise.  No two halo points, of the
    same frame or of different frames, read a draw in common. *)
Theorem halo_points_construction (width height : R) (draws : nat -> R) :
  valid_draws draws ->
  exists (frames : list Frame) (n_end : nat),
    generatedFrames width height draws 0%nat = Some (frames, n_end) /\
    n_end = frameStart 20 /\
    (forall (frame : nat) (f : Frame),
      nth_error frames frame = Some f ->
      exists base edge center : list (R * R),
        framePoints width height base edge center frame draws (frameStart frame)
        = Some (f, frameStart (S frame))) /\
    (forall (frame i : nat) (f : Frame) (p : Point.t),
      nth_error frames frame = Some f ->
      (i < loop_count (haloNumber (INR frame)))%nat ->
      nth_error f i = Some p ->
      let n := haloDraw frame i in
      let hp := heartFunction width height (draws n * 2 * PI) in
      let d := distance width height (fst hp) (snd hp) in
      let force := - 1 / Rpower d 1.2 in
      let sx := fst hp - haloRadius (INR frame) * force * (fst hp - centerX width) in
      let sy := snd hp - haloRadius (INR frame) * force * (snd hp - centerY height) in
      let jx := draws (S n) * 120 - 60 in
      let jy := draws (S (S n)) * 120 - 60 in
      haloPoint width height (haloRadius (INR frame)) draws n = Some (p, (n + 4)%nat) /\
      p = Point.mk (sx + jx) (sy + jy)
                   (if Rlt_dec (draws (S (S (S n)))) 0.66 then 1 else 2) /\
      0 < d /\ 0 < haloRadius (INR frame) /\
      shrink_force width height (fst hp) (snd hp) = force /\
      force = - 1 / Rpower (d * d) 0.6 /\
      d < distance width height sx sy /\
      -60 <= jx < 60 /\ -60 <= jy < 60) /\
    (forall frame i frame' i' : nat,
      (i < loop_count (haloNumber (INR frame)))%nat ->
      (i' < loop_count (haloNumber (INR frame')))%nat ->
      (frame, i) <> (frame', i') ->
      (haloDraw frame i + 4 <= haloDraw frame' i')%nat \/
      (haloDraw frame' i' + 4 <= haloDraw frame i)%nat).
Proof.
  intros V.
  destruct (generatedFrames_total width height draws V 0%nat) as (frames & n_end & G & _).
  destruct (generatedFrames_frame_at width height draws n_end frames V G) as [N A].
  exists frames, n_end. split; [exact G|]. split; [exact N|]. split; [exact A|].
  split; [|exact haloDraw_disjoint].
  intros frame i f p Hf Hi Hp.
  destruct (A frame f Hf) as (base & edge & center & F).
  pose proof (framePoints_halo_at width height base edge center frame draws _ _ f i p
                F Hi Hp) as E.
  fold (haloDraw frame i) in E.
  destruct (haloPoint_built width height (INR frame) draws (haloDraw frame i) V)
    as (Hd & Hr & F1 & F2 & E' & _ & Hout & Hj).
  cbv zeta. split; [exact E|]. rewrite E' in E. injection E as E.
  repeat split; try assumption; try apply Hj. symmetry. exact E.
Qed.

Lemma halo_points_construction_witness :
  valid_draws zeros /\
  exists (frames : list Frame) (n_end : nat) (f : Frame) (p : Point.t),
    generatedFrames 840 680 zeros 0%nat = Some (frames, n_end) /\
    nth_error frames 0 = Some f /\
    (0 < loop_count (haloNumber (INR 0)))%nat /\
    (1 < loop_count (haloNumber (INR 0)))%nat /\
    nth_error f 0 = Some p /\
    (0%nat, 0%nat) <> (0%nat, 1%nat) /\
    Point.size p = 1 /\
    ((haloDraw 0 0 + 4 <= haloDraw 0 1)%nat \/ (haloDraw 0 1 + 4 <= haloDraw 0 0)%nat).
Proof.
  split; [exact zeros_valid|].
  destruct (halo_points_construction 840 680 zeros zeros_valid)
    as (frames & n_end & G & _ & _ & H & D).
  destruct (generatedFrames_total 840 680 zeros zeros_valid 0%nat) as (frames' & n' & G' & T).
  rewrite G in G'. injection G' as <- _.
  destruct (Forall2_seq_nth _ _ _ _ T 0%nat) as (f & Hf & Lf & _); [lia|].
  assert (N : (1 < loop_count (haloNumber (INR 0)))%nat).
  { destruct (haloNumber_bounds (INR 0)) as (z & Hz & E).
    rewrite E, loop_count_IZR. lia. }
  cbn [Nat.add] in Lf.
  destruct (nth_error f 0) as [p|] eqn:Hp.
  2:{ apply nth_error_None in Hp. lia. }
  assert (Ne : (0%nat, 0%nat) <> (0%nat, 1%nat)) by discriminate.
  exists frames, n_end, f, p.
  split; [exact G|]. split; [exact Hf|]. split; [lia|]. split; [exact N|].
  split; [exact Hp|]. split; [exact Ne|]. split.
  - destruct (H 0%nat 0%nat f p Hf ltac:(lia) Hp) as (_ & E & _).
    rewrite E. cbn [Point.size]. unfold zeros.
    destruct (Rlt_dec 0 0.66) as [_|N']; [reflexivity|exfalso; lra].
  - exact (D 0%nat 0%nat 0%nat 1%nat ltac:(lia) N Ne).
Defined.

End HaloConstruction.

(** ** Regeneration and the loop *)

(** X21.  A change of dimensions with any admissible draws completes,
    installs a full sequence of 20 frames for the new size and touches
    nothing else (texts, audio context, last-beat timer); every later tick
    with a non-negative timestamp finds and draws one of the new frames. *)
Theorem regeneration_keeps_loop (w h : R) (rand : nat -> R) (st : State) :
  valid_draws rand ->
  exists st' : State,
    step (Dimensions w h rand) st = Some (st', []) /\
    dimensions st' = (w, h) /\
    List.length (framesRef st') = 20%nat /\
    floatingTexts st' = floatingTexts st /\
    audioContextRef st' = audioContextRef st /\
    lastBeatTimeRef st' = lastBeatTimeRef st /\
    isAudioStarted st' = isAudioStarted st /\
    forall time : Q, 0 <= time ->
      exists points : Frame, In points (framesRef st') /\ draws time st' points.
Proof.
  intros V.
  destruct (generatedFrames_total w h rand V 0%nat) as (frames & n & E & _).
  pose proof (generatedFrames_length _ _ _ _ _ _ E) as L.
  eexists. split; [unfold step; rewrite E; reflexivity|].
  cbn [dimensions framesRef floatingTexts audioContextRef lastBeatTimeRef isAudioStarted].
  repeat (split; [first [reflexivity|exact L]|]).
  intros time Ht.
  set (st' := mkState (w, h) frames (floatingTexts st) (audioContextRef st)
                      (lastBeatTimeRef st) (isAudioStarted st)).
  destruct (currentFramePoints_index time frames Ht) as (k & Hk & _ & G).
  destruct (nth_error frames k) as [points|] eqn:N; [|apply nth_error_None in N; lia].
  exists points. split; [exact (nth_error_In _ _ N)|].
  assert (Hne : framesRef st' <> []).
  { simpl. intros Z. rewrite Z in L. discriminate. }
  pose proof (render_nonempty time st' Hne) as R. simpl framesRef in R.
  rewrite G in R. exact R.
Qed.

(** ** The keys of the floating texts *)

Lemma updateFloatingTexts_ids (l : list FloatingText.t) (x : Z) :
  In x (map FloatingText.id (updateFloatingTexts l)) -> In x (map FloatingText.id l).
Proof.
  intros H. apply in_map_iff in H. destruct H as (t' & <- & Ht').
  unfold updateFloatingTexts in Ht'. apply filter_In in Ht'. destruct Ht' as [Hin _].
  apply in_map_iff in Hin. destruct Hin as (t & <- & Hin).
  apply in_map_iff. exists t. split; [reflexivity|exact Hin].
Qed.

Lemma updateFloatingTexts_sorted (l : list FloatingText.t) (rest : list Z) :
  StronglySorted Z.lt (map FloatingText.id l ++ rest) ->
  StronglySorted Z.lt (map FloatingText.id (updateFloatingTexts l) ++ rest).
Proof.
  induction l as [|t l IH]; intros H; [exact H|].
  cbn [map app] in H. inversion H as [|? ? Hs Hf]. subst.
  specialize (IH Hs).
  unfold updateFloatingTexts. cbn [map filter].
  fold (updateFloatingTexts l).
  destruct (visible (decay t)); [|exact IH].
  cbn [map app]. constructor; [exact IH|].
  apply Forall_forall. intros x Hx. rewrite Forall_forall in Hf. apply Hf.
  apply in_app_or in Hx. apply in_or_app.
  destruct Hx as [Hx|Hx]; [left; now apply updateFloatingTexts_ids|right; exact Hx].
Qed.

Lemma step_text_ids (e : Event) (st st' : State) (fx : list Effect) (rest : list Z) :
  step e st = Some (st', fx) ->
  StronglySorted Z.lt (text_ids st ++ click_nows [e] ++ rest) ->
  StronglySorted Z.lt (text_ids st' ++ rest).
Proof.
  unfold text_ids.
  destruct e as [time|fresh now cx cy|w h d|ctx]; unfold step; cbn [click_nows flat_map app].
  - unfold render. destruct (List.length (framesRef st) =? 0)%nat.
    + intros H S. inversion H. subst. exact S.
    + destruct (currentFramePoints time (framesRef st)); [|discriminate].
      intros H S. inversion H. cbn [floatingTexts]. now apply updateFloatingTexts_sorted.
  - intros H S. injection H as H.
    assert (E : st' = fst (handleCanvasClick fresh now cx cy st)) by (rewrite H; reflexivity).
    rewrite E, handleCanvasClick_floatingTexts, map_app, <- app_assoc. exact S.
  - destruct (generatedFrames w h d 0%nat) as [[frames n]|]; [|discriminate].
    intros H S. inversion H. exact S.
  - destruct (audioContextRef st); intros H S; inversion H; subst; exact S.
Qed.

Lemma run_text_ids (events : list Event) (st st' : State) (fx : list Effect) :
  run events st = Some (st', fx) ->
  StronglySorted Z.lt (text_ids st ++ click_nows events) ->
  StronglySorted Z.lt (text_ids st').
Proof.
  revert st fx. induction events as [|e events IH]; intros st fx; cbn [run].
  - intros H S. inversion H. subst. unfold click_nows in S. simpl in S.
    now rewrite app_nil_r in S.
  - destruct (step e st) as [[st1 fx1]|] eqn:E; [|discriminate].
    destruct (run events st1) as [[st2 fx2]|] eqn:R; [|discriminate].
    intros H S. inversion H. subst.
    apply (IH _ _ R). apply (step_text_ids e st st1 fx1 _ E).
    unfold click_nows in *. cbn [flat_map] in *. rewrite app_nil_r. exact S.
Qed.

Lemma StronglySorted_lt_NoDup (l : list Z) : StronglySorted Z.lt l -> NoDup l.
Proof.
  induction 1 as [|a l _ IH Hf]; constructor; [|exact IH].
  intros Hin. rewrite Forall_forall in Hf. specialize (Hf a Hin). lia.
Qed.

(** X23.  When the clicks of a run carry strictly increasing [Date.now()]
    values, the ids of the texts on screen, which are their React keys, are
    strictly increasing along the overlay list and so pairwise distinct. *)
Theorem text_ids_distinct (events : list Event) (st : State) (fx : list Effect) :
  run events initialState = Some (st, fx) ->
  StronglySorted Z.lt (click_nows events) ->
  StronglySorted Z.lt (text_ids st) /\ NoDup (text_ids st).
Proof.
  intros H S.
  assert (T : StronglySorted Z.lt (text_ids st)) by exact (run_text_ids _ _ _ _ H S).
  split; [exact T|now apply StronglySorted_lt_NoDup].
Qed.

(** ** Witnesses of the further properties *)

Lemma handleCanvasClick_audio_witness :
  audioContextRef otherState = Some (mkAudioContext running 3) /\
  audioContextRef (fst (handleCanvasClick (mkAudioContext suspended 0) 7 100 200 otherState))
  = Some (mkAudioContext running 3).
Proof.
  assert (H : audioContextRef otherState = Some (mkAudioContext running 3)) by reflexivity.
  split; [exact H|].
  exact (proj1 (handleCanvasClick_audio (mkAudioContext suspended 0) 7 100 200 otherState)
               _ H).
Defined.

Lemma audio_started_iff_clicked_witness :
  run [Tick 0; Click (mkAudioContext suspended 0) 7 100 200; Tick 16] initialState
  = Some (mkState (840%R, 680%R) [] [newText 7 100 200]
                  (Some (mkAudioContext suspended 0)) 0 true,
          [requestAnimationFrame; requestAnimationFrame]) /\
  (true = true <-> Some (mkAudioContext suspended 0) <> None).
Proof.
  assert (H : run [Tick 0; Click (mkAudioContext suspended 0) 7 100 200; Tick 16] initialState
              = Some (mkState (840%R, 680%R) [] [newText 7 100 200]
                              (Some (mkAudioContext suspended 0)) 0 true,
                      [requestAnimationFrame; requestAnimationFrame])) by reflexivity.
  split; [exact H|].
  exact (proj1 (audio_started_iff_clicked _ _ _ H)).
Defined.



Lemma floatingTexts_fading_witness :
  exists (st : State) (fx : list Effect),
    run [Click (mkAudioContext running 0) 7 100 200; Tick 16;
         Click (mkAudioContext running 0) 8 50 60] initialState = Some (st, fx) /\
    Forall fading (floatingTexts st) /\
    (List.length (floatingTexts st) <= 2)%nat.
Proof.
  eexists. eexists.
  assert (H : run [Click (mkAudioContext running 0) 7 100 200; Tick 16;
                   Click (mkAudioContext running 0) 8 50 60] initialState
              = Some (_, _)) by reflexivity.
  split; [exact H|].
  destruct (floatingTexts_fading _ _ _ H) as (F & _ & L). split; [exact F|exact L].
Defined.

Lemma overlay_drains_witness :
  framesRef sampleState <> [] /\
  Forall (fun t => FloatingText.opacity t <= 1) (floatingTexts sampleState) /\
  exists (st' : State) (fx : list Effect),
    run (map Tick (repeat 1000 100)) sampleState = Some (st', fx) /\
    floatingTexts st' = [].
Proof.
  assert (H : framesRef sampleState <> []) by discriminate.
  assert (O : Forall (fun t => FloatingText.opacity t <= 1) (floatingTexts sampleState)).
  { repeat constructor. discriminate. }
  split; [exact H|]. split; [exact O|].
  eexists. eexists.
  assert (R : run (map Tick (repeat 1000 100)) sampleState = Some (_, _))
    by (vm_compute; reflexivity).
  split; [exact R|].
  apply (proj2 (overlay_drains _ _ _ _ H O R)). rewrite repeat_length. apply le_n.
Defined.

Lemma frame_parameters_repeat_witness :
  valid_draws halves /\
  exists (frames : list Frame) (n : nat),
    generatedFrames 840 680 halves 0%nat = Some (frames, n) /\
    exists f g : Frame,
      nth_error frames 3 = Some f /\ nth_error frames 13 = Some g /\
      List.length f = List.length g.
Proof.
  split; [exact halves_valid|].
  destruct (frame_parameters_repeat 840 680 halves halves_valid) as (_ & frames & n & E & H).
  exists frames, n. split; [exact E|]. apply (H 3%nat). repeat constructor.
Defined.

Lemma frame_size_bounds_witness :
  valid_draws halves /\ (1500 <= haloNumber 3 <= 2388)%R.
Proof.
  split; [exact halves_valid|].
  exact (proj1 (frame_size_bounds 840 680 halves halves_valid) 3%R).
Defined.

Lemma calcPosition_scaling_witness :
  (420, 252)%R <> (centerX 840, centerY 680) /\
  exists px py : R,
    calcPosition 840 680 420 252 15 zeros 0%nat = Some ((px, py), 2%nat).
Proof.
  split; [exact sample_0_off_center|].
  destruct (calcPosition_scaling 840 680 420 252 15 zeros 0%nat sample_0_off_center)
    as (px & py & E & _).
  exists px, py. exact E.
Defined.

Lemma rest_frames_witness :
  valid_draws zeros /\
  (420, 252)%R <> (centerX 840, centerY 680) /\
  ratio (INR (5 * 2)) = 0%R /\ haloNumber (INR (5 * 2)) = 1500%R.
Proof.
  split; [exact zeros_valid|]. split; [exact sample_0_off_center|].
  destruct (rest_frames 2 840 680 420 252 zeros 0%nat zeros_valid sample_0_off_center)
    as (R0 & _ & N & _).
  split; [exact R0|exact N].
Defined.

Lemma heartFunction_shape_witness :
  (374 <= 840)%R /\ (528 <= 680)%R /\
  (0 <= fst (heartFunction 840 680 0) <= 840)%R /\
  (0 <= snd (heartFunction 840 680 0) <= 680)%R.
Proof.
  assert (W : (374 <= 840)%R) by lra.
  assert (H : (528 <= 680)%R) by lra.
  split; [exact W|]. split; [exact H|].
  exact (proj2 (proj2 (proj2 (proj2 (heartFunction_shape 840 680 0)))) W H).
Defined.

Lemma scatterInside_scaling_witness :
  (0 < 0.05)%R /\ (0 < halves 0%nat)%R /\ (0 < halves 1%nat)%R /\
  exists px py : R,
    scatterInside 840 680 420 252 0.05 halves 0%nat = Some ((px, py), 2%nat).
Proof.
  assert (B : (0 < 0.05)%R) by lra.
  assert (U : (0 < halves 0%nat)%R) by (unfold halves; lra).
  assert (V : (0 < halves 1%nat)%R) by (unfold halves; lra).
  split; [exact B|]. split; [exact U|]. split; [exact V|].
  destruct (scatterInside_scaling 840 680 420 252 0.05 halves 0%nat B U V)
    as (px & py & E & _).
  exists px, py. exact E.
Defined.


Lemma size_three_only_base_witness :
  valid_draws halves /\
  exists (frames : list Frame) (n_end : nat),
    generatedFrames 840 680 halves 0%nat = Some (frames, n_end).
Proof.
  split; [exact halves_valid|].
  destruct (size_three_only_base 840 680 halves halves_valid) as (frames & n_end & E & _).
  exists frames, n_end. exact E.
Defined.

Lemma generator_draw_count_witness :
  valid_draws halves /\
  exists (frames : list Frame) (n_end : nat),
    generatedFrames 840 680 halves 0%nat = Some (frames, n_end) /\
    (682000 <= Z.of_nat n_end <= 753040)%Z.
Proof.
  split; [exact halves_valid|].
  destruct (generator_draw_count 840 680 halves halves_valid) as (frames & n_end & E & _ & B).
  exists frames, n_end. split; [exact E|exact B].
Defined.

Lemma regeneration_keeps_loop_witness :
  valid_draws halves /\
  exists st' : State,
    step (Dimensions 1024 768 halves) sampleState = Some (st', []) /\
    dimensions st' = (1024%R, 768%R) /\
    floatingTexts st' = floatingTexts sampleState.
Proof.
  split; [exact halves_valid|].
  destruct (regeneration_keeps_loop 1024 768 halves sampleState halves_valid)
    as (st' & E & D & _ & T & _).
  exists st'. repeat split; assumption.
Defined.

Lemma text_ids_distinct_witness :
  exists (st : State) (fx : list Effect),
    run [Click (mkAudioContext running 0) 7 100 200; Tick 16;
         Click (mkAudioContext running 0) 8 50 60] initialState = Some (st, fx) /\
    StronglySorted Z.lt
      (click_nows [Click (mkAudioContext running 0) 7 100 200; Tick 16;
                   Click (mkAudioContext running 0) 8 50 60]) /\
    NoDup (text_ids st).
Proof.
  eexists. eexists.
  assert (H : run [Click (mkAudioContext running 0) 7 100 200; Tick 16;
                   Click (mkAudioContext running 0) 8 50 60] initialState
              = Some (_, _)) by reflexivity.
  assert (S : StronglySorted Z.lt
                (click_nows [Click (mkAudioContext running 0) 7 100 200; Tick 16;
                             Click (mkAudioContext running 0) 8 50 60])).
  { simpl. repeat constructor. }
  split; [exact H|]. split; [exact S|].
  exact (proj2 (text_ids_distinct _ _ _ H S)).
Defined.

